(** * bluefin-releases: the fetch-and-enrichment pipeline, embedded in Rocq

    A shallow embedding of the Go packages [models], [flathub], [mozilla],
    [bluefin] and [rss] of castrojo/bluefin-releases, followed by the
    properties of the pipeline that hold (or fail) on that code.

    Conventions of the embedding:
    - a Go [string] / [[]byte] is a [string] (a sequence of bytes);
    - a Go [error] is a value of [error]; a pair [(T, error)] is [result T];
    - [time.Time] is the instant as an integer ([Z], nanoseconds); what a
      call of [time.Now()] returns is an argument, one reading for each
      call;
    - a pointer that may be [nil] is an [option];
    - a Go [map[string]T] is a [gmap string T]; the order in which [range]
      visits it is chosen by the runtime and is an explicit argument;
    - the answer of an upstream to an HTTP request is an argument
      ([HttpResult]); goroutine interleavings are an explicit schedule;
    - [log.Printf]/[log.Println] lines do not influence any result and are
      left out; [log.Fatalf] ends the process and is kept ([run]). *)

From Stdlib Require Import ZArith Ascii String.
From stdpp Require Import base option list gmap strings pretty sorting.

Local Open Scope Z_scope.

(** ** Go values shared by all packages *)

(** [error]: [errorString] is what [fmt.Errorf] builds without [%w] (and
    [errors.New]); [wrapError] is what it builds with [%w]. *)
Inductive error : Type :=
  | errorString (s : string)
  | wrapError (msg : string) (err : error).

(** [err.Error()] *)
Definition Error (e : error) : string :=
  match e with
  | errorString s => s
  | wrapError msg _ => msg
  end.

(** [fmt.Errorf(prefix + ": %w", err)] *)
Definition Errorf_w (prefix : string) (err : error) : error :=
  wrapError (prefix +:+ ": " +:+ Error err) err.

(** [(T, error)]: exactly one of the two components is meaningful in all the
    code below, except where a function returns [(nil, nil)], which is
    [Ok None] at an [option] type. *)
Inductive result (T : Type) : Type :=
  | Ok (v : T)
  | Err (e : error).
Arguments Ok {T} v.
Arguments Err {T} e.

(** What a function that may call [log.Fatalf] does: it returns, or the
    process exits with status 1 after logging [msg]. *)
Inductive run (T : Type) : Type :=
  | Returns (v : T)
  | Fatal (msg : string).
Arguments Returns {T} v.
Arguments Fatal {T} msg.

(** The outcome of reading (and, for JSON endpoints, decoding) a response
    body: [io.ReadAll] fails, or yields the payload. *)
Inductive Body (A : Type) : Type :=
  | ReadFailed (e : error)
  | Payload (a : A).
Arguments ReadFailed {A} e.
Arguments Payload {A} a.

(** The outcome of one HTTP request as the code observes it: the request
    cannot be built ([http.NewRequest] returns an error, as it does for an
    address that does not parse), the transport fails ([client.Do] returns
    an error), or a response with a status code arrives. [http.Get] builds
    and sends the request in one call and returns one error for both
    failures. For JSON endpoints the payload is the outcome of
    [json.Unmarshal] on the body: [Err] for a malformed document. *)
Inductive HttpResult (A : Type) : Type :=
  | RequestError (e : error)
  | TransportError (e : error)
  | Response (StatusCode : Z) (body : Body A).
Arguments RequestError {A} e.
Arguments TransportError {A} e.
Arguments Response {A} StatusCode body.

Definition StatusOK : Z := 200.
Definition StatusForbidden : Z := 403.
Definition StatusNotFound : Z := 404.
Definition StatusTooManyRequests : Z := 429.

(** ** Package [strings] (the functions the pipeline uses) *)
Module strings.

Fixpoint HasPrefix (s prefix : string) : bool :=
  match prefix, s with
  | EmptyString, _ => true
  | String p prefix', String c s' =>
      if Ascii.eqb c p then HasPrefix s' prefix' else false
  | String _ _, EmptyString => false
  end.

Fixpoint drop (n : nat) (s : string) : string :=
  match n, s with
  | O, _ => s
  | S n', String _ s' => drop n' s'
  | S _, EmptyString => EmptyString
  end.

Fixpoint take (n : nat) (s : string) : string :=
  match n, s with
  | O, _ => EmptyString
  | S n', String c s' => String c (take n' s')
  | S _, EmptyString => EmptyString
  end.

Fixpoint Contains (s substr : string) : bool :=
  if HasPrefix s substr then true
  else match s with
       | EmptyString => false
       | String _ s' => Contains s' substr
       end.

Definition TrimPrefix (s prefix : string) : string :=
  if HasPrefix s prefix then drop (String.length prefix) s else s.

Definition HasSuffix (s suffix : string) : bool :=
  (String.length suffix <=? String.length s)%nat
  && String.eqb (drop (String.length s - String.length suffix) s) suffix.

Definition TrimSuffix (s suffix : string) : string :=
  if HasSuffix s suffix
  then take (String.length s - String.length suffix) s else s.

(** [strings.Split(s, sep)] for a separator that is not empty. [skip]
    counts the bytes of a separator still to step over, [cur] is the piece
    being read, in reverse. *)
Fixpoint split_go (sep : string) (s : string) (skip : nat) (cur : string)
    : list string :=
  match s with
  | EmptyString => [String.rev cur]
  | String c s' =>
      match skip with
      | S skip' => split_go sep s' skip' cur
      | O =>
          if HasPrefix s sep
          then String.rev cur
                 :: split_go sep s' (String.length sep - 1) EmptyString
          else split_go sep s' O (String c cur)
      end
  end.

Definition Split (s sep : string) : list string :=
  split_go sep s O EmptyString.

(** [strings.ReplaceAll(s, old, new)] for [old] and [new] of one byte. *)
Fixpoint ReplaceAll1 (s : string) (old new : ascii) : string :=
  match s with
  | EmptyString => EmptyString
  | String c s' =>
      String (if Ascii.eqb c old then new else c) (ReplaceAll1 s' old new)
  end.

End strings.

(** ** Package [regexp]: the fragment the pipeline's patterns need

    Go's matcher is leftmost-first with greedy repetition. All the patterns
    below are sequences of literals, one-byte classes, greedy repetitions of
    a class, and capture groups that are neither nested nor repeated. Every
    class used contains either only ASCII bytes or all non-ASCII bytes, so
    matching bytes and matching runes give the same submatches. *)
Module regexp.

Inductive re : Type :=
  | Lit (c : ascii)
  | Cls (p : ascii → bool)
  | Star (p : ascii → bool)
  | Plus (p : ascii → bool)
  | Cat (r1 r2 : re)
  | Cap (r : re).

(** a literal string *)
Fixpoint Str (s : string) : re → re :=
  match s with
  | EmptyString => λ k, k
  | String c s' => λ k, Cat (Lit c) (Str s' k)
  end.

Section match_.
Context {X : Type}.

(** greedy [p*]: the longest run first, then shorter ones *)
Fixpoint star (p : ascii → bool) (s : string)
    (k : string → option X) : option X :=
  match s with
  | String c s' =>
      if p c then
        match star p s' k with
        | Some x => Some x
        | None => k s
        end
      else k s
  | EmptyString => k s
  end.

(** [m r s caps k]: match [r] at the start of [s], then continue with [k]
    on the rest and the captures made so far *)
Fixpoint m (r : re) (s : string) (caps : list string)
    (k : string → list string → option X) : option X :=
  match r with
  | Lit c =>
      match s with
      | String c' s' => if Ascii.eqb c' c then k s' caps else None
      | EmptyString => None
      end
  | Cls p =>
      match s with
      | String c' s' => if p c' then k s' caps else None
      | EmptyString => None
      end
  | Star p => star p s (λ s1, k s1 caps)
  | Plus p =>
      match s with
      | String c' s' => if p c' then star p s' (λ s1, k s1 caps) else None
      | EmptyString => None
      end
  | Cat r1 r2 => m r1 s caps (λ s1 c1, m r2 s1 c1 k)
  | Cap r1 =>
      m r1 s caps (λ s1 c1,
        k s1 (c1 ++ [strings.take (String.length s - String.length s1) s]))
  end.
End match_.

(** a match of [r] at the start of [s]: the rest of the input and the
    submatches (the whole match first) *)
Definition match_here (r : re) (s : string) : option (string * list string) :=
  m r s [] (λ rest caps,
    Some (rest, strings.take (String.length s - String.length rest) s :: caps)).

(** [re.FindStringSubmatch(s)]: the leftmost match; [[]] is [nil] *)
Fixpoint FindStringSubmatch (r : re) (s : string) : list string :=
  match match_here r s with
  | Some (_, sub) => sub
  | None =>
      match s with
      | String _ s' => FindStringSubmatch r s'
      | EmptyString => []
      end
  end.

(** [re.FindAllSubmatch(s, -1)]: successive non-overlapping matches.
    [skip] counts the bytes of the previous match still to step over. *)
Fixpoint find_all (r : re) (s : string) (skip : nat) : list (list string) :=
  match skip with
  | S skip' =>
      match s with
      | String _ s' => find_all r s' skip'
      | EmptyString => []
      end
  | O =>
      match match_here r s with
      | Some (rest, sub) =>
          sub :: match s with
                 | String _ s' =>
                     find_all r s' (String.length s - String.length rest - 1)
                 | EmptyString => []
                 end
      | None =>
          match s with
          | String _ s' => find_all r s' O
          | EmptyString => []
          end
      end
  end.

Definition FindAllSubmatch (r : re) (s : string) : list (list string) :=
  find_all r s O.

(** character classes *)
Definition chr (c : ascii) : ascii → bool := λ x, Ascii.eqb x c.
Definition not_chr (c : ascii) : ascii → bool := λ x, negb (Ascii.eqb x c).
(** [\s] is [[\t\n\f\r ]] *)
Definition space : ascii → bool := λ x,
  match Ascii.nat_of_ascii x with
  | 9%nat | 10%nat | 12%nat | 13%nat | 32%nat => true
  | _ => false
  end.
(** [\d] *)
Definition digit : ascii → bool := λ x,
  let n := Ascii.nat_of_ascii x in (48 <=? n)%nat && (n <=? 57)%nat.

End regexp.

(** ** What the runtime and the libraries outside the sources decide *)

(** The order in which the runtime lets things happen: the order in which a
    [range] loop visits the entries of a map, and the order in which
    goroutines that append to a shared slice under a mutex get the lock.
    Either way the outcome is some permutation of a list. *)
Record Shuffle : Type := {
  shuffle : ∀ A : Type, list A → list A;
  shuffle_perm : ∀ (A : Type) (l : list A), shuffle A l ≡ₚ l
}.
Arguments shuffle _ {A} _.

(** [for k, v := range m] visits [range rt m] *)
Definition range {V : Type} (rt : Shuffle) (m : gmap string V)
    : list (string * V) :=
  shuffle rt (map_to_list m).

(** Library functions whose code is not part of the sources. *)
Class Externals : Type := {
  (** [markdown.ToHTML] of [internal/markdown] *)
  markdown_ToHTML : string → string;
  (** [t.Format(time.RFC3339)] *)
  Format_RFC3339 : Z → string;
  (** [time.Parse(layout, value)], [None] when it returns an error *)
  time_Parse : string → string → option Z;
  (** [strings.TrimSpace], which knows Unicode white space *)
  TrimSpace : string → string;
  (** [extractFirefoxReleaseNotes] of package [mozilla], which scrapes the
      sections of a release-notes page and renders them with
      [markdown.ToHTML] *)
  extractFirefoxReleaseNotes : string → string
}.

(** ** Package [models] *)
Module models.

Record SourceRepo : Type := {
  Type_ : string;  (* "github", "gitlab", "other" *)
  URL : string;
  Owner : string;
  Repo : string
}.

Record Release : Type := {
  Version : string;
  Date : Z;
  Title : string;
  Description : string;
  ReleaseURL : string;
  ReleaseType : string  (* "github-release", "appstream", ... *)
}.

(** Modelled from the spec: the declaration of [models.OSInfo] is not in the
    sources; its fields are the ones [parseOSInfo] and [parseLTSInfo]
    assign. *)
Record OSInfo : Type := {
  Stream : string;
  FedoraVersion : string;
  CentOSVersion : string;
  BuildNumber : string;
  CommitHash : string;
  ImageName : string;
  KernelVersion : string;
  GnomeVersion : string;
  MesaVersion : string;
  MajorPackages : gmap string string
}.

(** Modelled from the spec: the declaration of [models.HomebrewInfo] is not
    in the sources; its fields are the ones [convertHomebrewFormulaToApp]
    assigns. *)
Record HomebrewInfo : Type := {
  Formula : string;
  FullName : string;
  Tap : string;
  Homepage : string;
  Versions : list string
}.

(** [models.App], with the fields of the declaration in the sources and the
    three later ones ([PackageType], [OSInfo], [HomebrewInfo]) that package
    [bluefin] assigns. *)
Record App : Type := {
  ID : string;
  Name : string;
  Summary : string;
  AppDescription : string;
  DeveloperName : string;
  Icon : string;
  ProjectLicense : string;
  Categories : list string;
  UpdatedAt : string;
  AppVersion : string;
  ReleaseDate : string;
  FlathubURL : string;
  AppSourceRepo : option SourceRepo;
  Releases : list Release;
  FetchedAt : Z;
  PackageType : string;
  AppOSInfo : option OSInfo;
  AppHomebrewInfo : option HomebrewInfo
}.

Record FlathubApp : Type := {
  FlathubApp_ID : string;
  FlathubApp_Name : string;
  FlathubApp_Summary : string;
  FlathubApp_DeveloperName : string;
  FlathubApp_Icon : string;
  FlathubApp_ProjectLicense : string;
  FlathubApp_Categories : list string;
  CurrentReleaseVersion : string;
  CurrentReleaseDate : string
}.

Record FlathubReleaseEntry : Type := {
  Entry_Version : string;
  Entry_Date : string;
  Entry_Description : string
}.

(** [URLs] is [None] for a [nil] map *)
Record FlathubAppDetails : Type := {
  Details_ID : string;
  Details_Name : string;
  Details_Summary : string;
  Details_Description : string;
  URLs : option (gmap string string);
  Details_Releases : list FlathubReleaseEntry
}.

Record FetchResults : Type := { Apps : list App }.

Record Stats : Type := {
  AppsTotal : Z;
  AppsWithGitHubRepo : Z;
  AppsWithChangelogs : Z;
  TotalReleases : Z
}.

Record Performance : Type := {
  FlathubFetchDuration : string;
  DetailsFetchDuration : string;
  GitHubFetchDuration : string;
  OutputDuration : string
}.

Record Metadata : Type := {
  SchemaVersion : string;
  GeneratedAt : string;
  GeneratedBy : string;
  BuildDuration : string;
  MetaStats : Stats;
  MetaPerformance : Performance
}.

Record OutputData : Type := {
  OutputMetadata : Metadata;
  OutputApps : list App
}.


(** *** The file system, as far as [WriteJSON] meets it

    [files] maps a path to the content of the file there. Whether
    [os.Create] succeeds on a path, and how many more bytes the device
    takes before a write fails, is up to the operating system. *)
Record Disk : Type := {
  files : gmap string string;
  create_error : string → option error;
  room : nat;
  write_error : error
}.

(** [os.Create(path)]: on success the file exists and is empty *)
Definition os_Create (path : string) (d : Disk) : Disk * result string :=
  match create_error d path with
  | Some e => (d, Err e)
  | None =>
      ({| files := <[path := EmptyString]> (files d);
          create_error := create_error d;
          room := room d;
          write_error := write_error d |}, Ok path)
  end.

(** [file.Write(buf)]: the bytes the device has room for are appended; a
    short write is an error *)
Definition file_Write (file : string) (buf : string) (d : Disk)
    : Disk * option error :=
  let n := Nat.min (String.length buf) (room d) in
  let old := default EmptyString (files d !! file) in
  ({| files := <[file := old +:+ strings.take n buf]> (files d);
      create_error := create_error d;
      room := (room d - n)%nat;
      write_error := write_error d |},
   if (n <? String.length buf)%nat then Some (write_error d) else None).

Section WriteJSON.
(** [json.MarshalIndent] as the encoder is configured here (indent of two
    spaces, no HTML escaping) *)
Variable json_Marshal : OutputData → result string.

(** [encoder.Encode(o)]: the document is marshalled in memory, a newline
    is added, and the buffer goes to the file in one [Write] *)
Definition Encode (file : string) (o : OutputData) (d : Disk)
    : Disk * option error :=
  match json_Marshal o with
  | Err e => (d, Some e)
  | Ok doc => file_Write file (doc +:+ String (ascii_of_nat 10) EmptyString) d
  end.

(** [func (o *OutputData) WriteJSON(path string) error] *)
Definition WriteJSON (o : OutputData) (path : string) (d : Disk)
    : Disk * option error :=
  match os_Create path d with
  | (d1, Err err) => (d1, Some (Errorf_w "create file" err))
  | (d1, Ok file) =>
      match Encode file o d1 with
      | (d2, Some err) => (d2, Some (Errorf_w "encode JSON" err))
      | (d2, None) => (d2, None)
      end
  end.
End WriteJSON.

End models.

(** [fmt.Errorf("unexpected status code: %d", resp.StatusCode)] *)
Definition unexpected_status (StatusCode : Z) : error :=
  errorString ("unexpected status code: " +:+ pretty StatusCode).

(** the double-quote byte, 0x22, and a string between two of them *)
Definition dquote : ascii := ascii_of_nat 34.
Definition quoted (s : string) : string :=
  String dquote s +:+ String dquote EmptyString.

(** the line feed *)
Definition newline : string := String (ascii_of_nat 10) EmptyString.

(** ** Package [flathub] *)
Module flathub.
Import models.

Definition FlathubAPIBase : string := "https://flathub.org/api/v2".

(** [FetchRecentlyUpdated], on the answer to
    [GET FlathubAPIBase/feed/recently-updated] *)
Definition FetchRecentlyUpdated (resp : HttpResult (result (list FlathubApp)))
    : result (list FlathubApp) :=
  match resp with
  | RequestError err | TransportError err =>
      Err (Errorf_w "fetch recently updated" err)
  | Response StatusCode body =>
      if negb (StatusCode =? StatusOK) then Err (unexpected_status StatusCode)
      else match body with
           | ReadFailed err => Err (Errorf_w "read response body" err)
           | Payload (Err err) => Err (Errorf_w "unmarshal response" err)
           | Payload (Ok apps) => Ok apps
           end
  end.

(** [FetchAppDetails(appID)], on the answer to
    [GET FlathubAPIBase/appstream/appID] *)
Definition FetchAppDetails (resp : HttpResult (result FlathubAppDetails))
    : result (option FlathubAppDetails) :=
  match resp with
  | RequestError err | TransportError err =>
      Err (Errorf_w "fetch app details" err)
  | Response StatusCode body =>
      if StatusCode =? StatusNotFound then Ok None
      else if negb (StatusCode =? StatusOK)
      then Err (unexpected_status StatusCode)
      else match body with
           | ReadFailed err => Err (Errorf_w "read response body" err)
           | Payload (Err err) => Err (Errorf_w "unmarshal response" err)
           | Payload (Ok details) => Ok (Some details)
           end
  end.

(** [github\.com/([^/]+)/([^/\s?#]+)] *)
Definition github_repo_re : regexp.re :=
  regexp.Str "github.com/"
    (regexp.Cat (regexp.Cap (regexp.Plus (regexp.not_chr "/")))
      (regexp.Cat (regexp.Lit "/")
        (regexp.Cap (regexp.Plus (λ c,
           negb (Ascii.eqb c "/") && negb (regexp.space c)
           && negb (Ascii.eqb c "?") && negb (Ascii.eqb c "#")))))).

Definition extractGitHubRepo (url : string) : SourceRepo :=
  let matches := regexp.FindStringSubmatch github_repo_re url in
  if (length matches <? 3)%nat then
    {| Type_ := "github"; URL := url; Owner := ""; Repo := "" |}
  else
    let owner := default "" (matches !! 1%nat) in
    let repo := strings.TrimSuffix (default "" (matches !! 2%nat)) ".git" in
    {| Type_ := "github"; URL := url; Owner := owner; Repo := repo |}.

(** [ExtractSourceRepo(details)]. The loop over [details.URLs] stops at the
    first entry the runtime visits. *)
Definition ExtractSourceRepo (rt : Shuffle) (details : option FlathubAppDetails)
    : option SourceRepo :=
  match details with
  | None => None
  | Some details =>
      match URLs details with
      | None => None
      | Some urls =>
          let repoURL :=
            match urls !! "homepage" with
            | Some homepage => homepage
            | None =>
                match urls !! "bugtracker" with
                | Some bugtracker => bugtracker
                | None =>
                    match range rt urls with
                    | (_, url) :: _ => url
                    | [] => ""
                    end
                end
            end in
          if String.eqb repoURL "" then None
          else if strings.Contains repoURL "github.com"
          then Some (extractGitHubRepo repoURL)
          else if strings.Contains repoURL "gitlab.com"
          then Some {| Type_ := "gitlab"; URL := repoURL;
                       Owner := ""; Repo := "" |}
          else Some {| Type_ := "other"; URL := repoURL;
                       Owner := ""; Repo := "" |}
      end
  end.

Section with_externals.
Context `{!Externals}.

(** the body of the loop of [ConvertFlathubReleases]; [now] is what
    [time.Now()] returns in this iteration *)
Definition convert_entry (now : Z) (release : FlathubReleaseEntry) : Release :=
  let date :=
    match time_Parse "2006-01-02" (Entry_Date release) with
    | Some date => date
    | None =>
        match time_Parse "2006-01-02T15:04:05Z07:00" (Entry_Date release) with
        | Some date => date
        | None => now
        end
    end in
  {| Version := Entry_Version release;
     Date := date;
     Title := "Version " +:+ Entry_Version release;
     Description := Entry_Description release;
     ReleaseURL := "";
     ReleaseType := "appstream" |}.

(** [for _, release := range releases { ...; result = append(result, ...) }].
    Every iteration reads the clock for itself: [now i] is the reading of
    the iteration that converts entry [i], which is the one that finds [i]
    releases in [result]. *)
Fixpoint convert_loop (now : nat → Z) (releases : list FlathubReleaseEntry)
    (result : list Release) : list Release :=
  match releases with
  | [] => result
  | release :: releases' =>
      convert_loop now releases'
        (result ++ [convert_entry (now (length result)) release])
  end.

Definition ConvertFlathubReleases (now : nat → Z)
    (releases : list FlathubReleaseEntry) : list Release :=
  convert_loop now releases [].

(** [enrichApp(flathubApp)], on the answer to its detail request. [now]
    holds the clock readings of the call: [now 0] is [fetchedAt], and
    [now (S i)] is the reading of [ConvertFlathubReleases] at entry [i]. *)
Definition enrichApp (now : nat → Z) (rt : Shuffle) (flathubApp : FlathubApp)
    (resp : HttpResult (result FlathubAppDetails)) : App :=
  let base (description : string) (sourceRepo : option SourceRepo)
           (releases : list Release) : App :=
    {| ID := FlathubApp_ID flathubApp;
       Name := FlathubApp_Name flathubApp;
       Summary := FlathubApp_Summary flathubApp;
       AppDescription := description;
       DeveloperName := FlathubApp_DeveloperName flathubApp;
       Icon := FlathubApp_Icon flathubApp;
       ProjectLicense := FlathubApp_ProjectLicense flathubApp;
       Categories := FlathubApp_Categories flathubApp;
       UpdatedAt := "";
       AppVersion := CurrentReleaseVersion flathubApp;
       ReleaseDate := CurrentReleaseDate flathubApp;
       FlathubURL := "https://flathub.org/apps/" +:+ FlathubApp_ID flathubApp;
       AppSourceRepo := sourceRepo;
       Releases := releases;
       FetchedAt := now 0%nat;
       PackageType := "";
       AppOSInfo := None;
       AppHomebrewInfo := None |} in
  match FetchAppDetails resp with
  | Err _ => base "" None []
  | Ok None => base "" None []
  | Ok (Some details) =>
      base (Details_Description details)
           (ExtractSourceRepo rt (Some details))
           (if (0 <? length (Details_Releases details))%nat
            then ConvertFlathubReleases (λ i, now (S i))
                   (Details_Releases details)
            else [])
  end.

(** What [FetchAllApps] gets from outside: the answer of the feed, the
    answer to the detail request of each app, the clock readings [clock i]
    of the [i]-th goroutine, the order [rt i] in which it visits a map and
    the order [sched] in which the goroutines append to [allApps]. *)
Record World : Type := {
  feed : HttpResult (result (list FlathubApp));
  appstream : string → HttpResult (result FlathubAppDetails);
  clock : nat → nat → Z;
  rt : nat → Shuffle;
  sched : Shuffle
}.

Definition FetchAllApps (w : World) : run FetchResults :=
  match FetchRecentlyUpdated (feed w) with
  | Err err => Fatal ("Failed to fetch apps: " +:+ Error err)
  | Ok flathubApps =>
      let appsToFetch :=
        if (50 <? length flathubApps)%nat then take 50 flathubApps
        else flathubApps in
      let processed :=
        imap (λ i fa,
                enrichApp (clock w i) (rt w i) fa (appstream w (FlathubApp_ID fa)))
             appsToFetch in
      Returns {| Apps := shuffle (sched w) processed |}
  end.

End with_externals.
End flathub.

(** ** Package [mozilla] *)
Module mozilla.
Import models.

Definition set_Releases (app : App) (releases : list Release) : App :=
  {| ID := ID app; Name := Name app; Summary := Summary app;
     AppDescription := AppDescription app;
     DeveloperName := DeveloperName app; Icon := Icon app;
     ProjectLicense := ProjectLicense app; Categories := Categories app;
     UpdatedAt := UpdatedAt app; AppVersion := AppVersion app;
     ReleaseDate := ReleaseDate app; FlathubURL := FlathubURL app;
     AppSourceRepo := AppSourceRepo app;
     Releases := releases;
     FetchedAt := FetchedAt app; PackageType := PackageType app;
     AppOSInfo := AppOSInfo app; AppHomebrewInfo := AppHomebrewInfo app |}.

(** the pattern [QKEYQ:\s*Q([^Q]+)Q], where Q is the double quote *)
Definition version_re (key : string) : regexp.re :=
  regexp.Cat (regexp.Lit dquote)
    (regexp.Str key
      (regexp.Cat (regexp.Lit dquote)
        (regexp.Cat (regexp.Lit ":")
          (regexp.Cat (regexp.Star regexp.space)
            (regexp.Cat (regexp.Lit dquote)
              (regexp.Cat (regexp.Cap (regexp.Plus (regexp.not_chr dquote)))
                (regexp.Lit dquote))))))).

(** the pattern [<time[^>]*datetime=Q([^Q]+)Q], where Q is the double quote *)
Definition date_re : regexp.re :=
  regexp.Str "<time"
    (regexp.Cat (regexp.Star (regexp.not_chr ">"))
      (regexp.Str "datetime="
        (regexp.Cat (regexp.Lit dquote)
          (regexp.Cat (regexp.Cap (regexp.Plus (regexp.not_chr dquote)))
            (regexp.Lit dquote))))).

Definition extractReleaseDate (html : string) : string :=
  let matches := regexp.FindStringSubmatch date_re html in
  if (1 <? length matches)%nat then default "" (matches !! 1%nat) else "".

Section with_externals.
Context `{!Externals}.

(** [fetchFirefoxReleases] and [fetchThunderbirdReleases] differ in the
    key, the two addresses and the title. Neither looks at a status
    code. [versions] answers the request for the version document,
    [notes url] the request for the release-notes page. *)
Definition fetchProductReleases (key product notesBase : string) (now : Z)
    (versions : HttpResult string) (notes : string → HttpResult string)
    : result (list Release) :=
  match versions with
  | RequestError err | TransportError err =>
      Err (Errorf_w "fetch version info" err)
  | Response _ (ReadFailed err) => Err (Errorf_w "read version info" err)
  | Response _ (Payload body) =>
      let matches := regexp.FindStringSubmatch (version_re key) body in
      if (length matches <? 2)%nat
      then Err (errorString "could not find latest version")
      else
        let version := default "" (matches !! 1%nat) in
        let releaseNotesURL := notesBase +:+ version +:+ "/releasenotes/" in
        match notes releaseNotesURL with
        | RequestError err | TransportError err =>
            Err (Errorf_w "fetch release notes" err)
        | Response _ (ReadFailed err) =>
            Err (Errorf_w "read release notes" err)
        | Response _ (Payload html) =>
            let description := extractFirefoxReleaseNotes html in
            let dateStr := extractReleaseDate html in
            let releaseDate :=
              if String.eqb dateStr "" then now
              else match time_Parse "January 2, 2006" dateStr with
                   | Some parsed => parsed
                   | None => now
                   end in
            Ok [ {| Version := version;
                    Date := releaseDate;
                    Title := product +:+ " " +:+ version;
                    Description := description;
                    ReleaseURL := releaseNotesURL;
                    ReleaseType := "mozilla-release" |} ]
        end
  end.

Definition fetchFirefoxReleases :=
  fetchProductReleases "LATEST_FIREFOX_VERSION" "Firefox"
    "https://www.mozilla.org/en-US/firefox/".

Definition fetchThunderbirdReleases :=
  fetchProductReleases "LATEST_THUNDERBIRD_VERSION" "Thunderbird"
    "https://www.thunderbird.net/en-US/thunderbird/".

(** the body of the loop of [EnrichWithMozillaReleases], which works on
    the copy [enrichedApps]; [firefox] and [thunderbird] are what
    [fetchFirefoxReleases()] and [fetchThunderbirdReleases()] return *)
Definition enrich_one (firefox thunderbird : result (list Release)) (app : App)
    : App :=
  if String.eqb (ID app) "org.mozilla.firefox" then
    match firefox with
    | Ok releases => set_Releases app releases
    | Err _ => app
    end
  else if String.eqb (ID app) "org.mozilla.Thunderbird" then
    match thunderbird with
    | Ok releases => set_Releases app releases
    | Err _ => app
    end
  else app.

Definition EnrichWithMozillaReleases
    (firefox thunderbird : result (list Release)) (apps : list App)
    : list App :=
  map (enrich_one firefox thunderbird) apps.

End with_externals.
End mozilla.

(** ** Package [bluefin] *)
Module bluefin.
Import models.

Definition BluefinCommonOwner : string := "projectbluefin".
Definition BluefinCommonRepo : string := "common".
Definition BluefinCommonBranch : string := "main".

Definition BluefinOSOwner : string := "ublue-os".
Definition BluefinOSRepo : string := "bluefin".
Definition BluefinImageURL : string := "ghcr.io/ublue-os/bluefin".

Definition rate_limit_error : error :=
  errorString "rate limit exceeded (403) - consider setting GITHUB_TOKEN environment variable".

(** *** flatpaks.go *)

Record AppSetInfo : Type := {
  AppID : string;
  AppSet : string  (* "core" or "dx" *)
}.

(** [fetchRawFile(owner, repo, branch, path)], on the answer to
    [GET https://raw.githubusercontent.com/owner/repo/branch/path] *)
Definition fetchRawFile (path : string) (resp : HttpResult string)
    : result string :=
  match resp with
  | RequestError err => Err (Errorf_w "create request" err)
  | TransportError err => Err (Errorf_w "fetch file" err)
  | Response StatusCode body =>
      if StatusCode =? StatusNotFound
      then Err (errorString ("file not found (404): " +:+ path))
      else if StatusCode =? StatusForbidden then Err rate_limit_error
      else if negb (StatusCode =? StatusOK)
      then Err (unexpected_status StatusCode)
      else match body with
           | ReadFailed err => Err (Errorf_w "read response body" err)
           | Payload body => Ok body
           end
  end.

(** the pattern [WORD\s+Q([^Q]+)Q], where Q is the double quote *)
Definition brewfile_re (word : string) : regexp.re :=
  regexp.Str word
    (regexp.Cat (regexp.Plus regexp.space)
      (regexp.Cat (regexp.Lit dquote)
        (regexp.Cat (regexp.Cap (regexp.Plus (regexp.not_chr dquote)))
          (regexp.Lit dquote)))).

(** the loop shared by [parseFlatpakBrewfile] and [parseHomebrewBrewfile]:
    [if len(match) >= 2 { ids = append(ids, string(match[1])) }] *)
Fixpoint submatch_loop (matches : list (list string)) (ids : list string)
    : list string :=
  match matches with
  | [] => ids
  | match_ :: matches' =>
      submatch_loop matches'
        (if (2 <=? length match_)%nat
         then ids ++ [default "" (match_ !! 1%nat)] else ids)
  end.

Definition parseFlatpakBrewfile (content : string) : list string :=
  submatch_loop (regexp.FindAllSubmatch (brewfile_re "flatpak") content) [].

Definition parseHomebrewBrewfile (content : string) : list string :=
  submatch_loop (regexp.FindAllSubmatch (brewfile_re "brew") content) [].

(** [deduplicate(items)]: [seen] is the set of keys of the Go map *)
Fixpoint deduplicate_loop (items : list string) (seen : gset string)
    (result : list string) : list string :=
  match items with
  | [] => result
  | item :: items' =>
      if decide (item ∈ seen) then deduplicate_loop items' seen result
      else deduplicate_loop items' ({[item]} ∪ seen) (result ++ [item])
  end.

Definition deduplicate (items : list string) : list string :=
  deduplicate_loop items ∅ [].

Definition raw_url (path : string) : string :=
  "https://raw.githubusercontent.com/" +:+ BluefinCommonOwner +:+ "/"
    +:+ BluefinCommonRepo +:+ "/" +:+ BluefinCommonBranch +:+ "/" +:+ path.

(** the map literal of [FetchFlatpakListWithAppSets] *)
Definition flatpak_brewfiles : gmap string string :=
  <["system_files/bluefin/usr/share/ublue-os/homebrew/system-flatpaks.Brewfile" := "core"]>
  (<["system_files/bluefin/usr/share/ublue-os/homebrew/system-dx-flatpaks.Brewfile" := "dx"]> ∅).

(** the loop of [FetchFlatpakListWithAppSets] over the Brewfiles, in the
    order the runtime visits the map. [raw url] is the answer to [GET url].
    A file that cannot be fetched is skipped. *)
Fixpoint flatpak_loop (raw : string → HttpResult string)
    (brewfiles : list (string * string)) (allAppSetInfos : list AppSetInfo)
    : list AppSetInfo :=
  match brewfiles with
  | [] => allAppSetInfos
  | (brewfile, appSet) :: brewfiles' =>
      match fetchRawFile brewfile (raw (raw_url brewfile)) with
      | Err _ => flatpak_loop raw brewfiles' allAppSetInfos
      | Ok content =>
          flatpak_loop raw brewfiles'
            (allAppSetInfos
               ++ map (λ appID, {| AppID := appID; AppSet := appSet |})
                      (parseFlatpakBrewfile content))
      end
  end.

Definition FetchFlatpakListWithAppSets (rt : Shuffle)
    (raw : string → HttpResult string) : result (list AppSetInfo) :=
  Ok (flatpak_loop raw (range rt flatpak_brewfiles) []).

Definition FetchFlatpakList (rt : Shuffle) (raw : string → HttpResult string)
    : result (list string) :=
  match FetchFlatpakListWithAppSets rt raw with
  | Err err => Err err
  | Ok appSetInfos => Ok (map AppID appSetInfos)
  end.

(** *** The Homebrew fetcher *)

Record HomebrewFormula : Type := {
  Formula_Name : string;
  Formula_FullName : string;
  Formula_Tap : string;
  Desc : string;
  License : string;
  Formula_Homepage : string;
  Versions_Stable : string;
  Versions_Head : string;
  URLs_Stable_URL : string;
  URLs_Head_URL : string;
  Deprecated : bool;
  Disabled : bool;
  (** [Bottle.Stable.Files], by file name; [None] for a [nil] bottle *)
  Bottle : option (gset string)
}.

Definition homebrew_brewfiles : list string :=
  [ "system_files/shared/usr/share/ublue-os/homebrew/cli.Brewfile";
    "system_files/shared/usr/share/ublue-os/homebrew/ai-tools.Brewfile";
    "system_files/shared/usr/share/ublue-os/homebrew/k8s-tools.Brewfile";
    "system_files/shared/usr/share/ublue-os/homebrew/ide.Brewfile" ].

Fixpoint homebrew_list_loop (raw : string → HttpResult string)
    (brewfiles : list string) (allPackages : list string) : list string :=
  match brewfiles with
  | [] => allPackages
  | brewfile :: brewfiles' =>
      match fetchRawFile brewfile (raw (raw_url brewfile)) with
      | Err _ => homebrew_list_loop raw brewfiles' allPackages
      | Ok content =>
          homebrew_list_loop raw brewfiles'
            (allPackages ++ parseHomebrewBrewfile content)
      end
  end.

Definition FetchHomebrewList (raw : string → HttpResult string)
    : result (list string) :=
  Ok (deduplicate (homebrew_list_loop raw homebrew_brewfiles [])).

(** [isLinuxCompatible]: some file name of the bottle contains [linux];
    the answer does not depend on the order of the visit *)
Definition isLinuxCompatible (formula : HomebrewFormula) : bool :=
  match Bottle formula with
  | None => true
  | Some files_ =>
      existsb (λ filename, strings.Contains filename "linux") (elements files_)
  end.

(** [github\.com[/:]([^/]+)/([^/\.]+)] *)
Definition github_url_re : regexp.re :=
  regexp.Str "github.com"
    (regexp.Cat (regexp.Cls (λ c, Ascii.eqb c "/" || Ascii.eqb c ":"))
      (regexp.Cat (regexp.Cap (regexp.Plus (regexp.not_chr "/")))
        (regexp.Cat (regexp.Lit "/")
          (regexp.Cap (regexp.Plus (λ c,
             negb (Ascii.eqb c "/") && negb (Ascii.eqb c "."))))))).

Definition extractGitHubRepoFromURL (urlStr : string) : option SourceRepo :=
  let matches := regexp.FindStringSubmatch github_url_re urlStr in
  if (3 <=? length matches)%nat then
    let owner := default "" (matches !! 1%nat) in
    let repo := default "" (matches !! 2%nat) in
    Some {| Type_ := "github";
            URL := "https://github.com/" +:+ owner +:+ "/" +:+ repo;
            Owner := owner; Repo := repo |}
  else None.

Definition homebrew_app (id name summary description version : string)
    (sourceRepo : option SourceRepo) (now : Z) (info : HomebrewInfo) : App :=
  {| ID := id; Name := name; Summary := summary;
     AppDescription := description;
     DeveloperName := ""; Icon := ""; ProjectLicense := ""; Categories := [];
     UpdatedAt := ""; AppVersion := version; ReleaseDate := "";
     FlathubURL := ""; AppSourceRepo := sourceRepo; Releases := [];
     FetchedAt := now; PackageType := "homebrew";
     AppOSInfo := None; AppHomebrewInfo := Some info |}.

Definition convertHomebrewFormulaToApp (now : Z) (formula : HomebrewFormula)
    : App :=
  let cleanName := strings.TrimPrefix (Formula_Name formula) "homebrew-" in
  let sourceRepo :=
    if negb (String.eqb (URLs_Stable_URL formula) "")
    then extractGitHubRepoFromURL (URLs_Stable_URL formula)
    else if negb (String.eqb (Formula_Homepage formula) "")
            && strings.Contains (Formula_Homepage formula) "github.com"
    then extractGitHubRepoFromURL (Formula_Homepage formula)
    else None in
  homebrew_app ("homebrew-" +:+ Formula_Name formula) cleanName
    (Desc formula) (Desc formula) (Versions_Stable formula) sourceRepo now
    {| Formula := Formula_Name formula;
       FullName := Formula_FullName formula;
       Tap := Formula_Tap formula;
       Homepage := Formula_Homepage formula;
       Versions := [Versions_Stable formula] |}.

Definition createMinimalHomebrewApp (now : Z) (packageName : string) : App :=
  let cleanName := strings.TrimPrefix packageName "homebrew-" in
  let cleanName :=
    if strings.Contains cleanName "/"
    then default "" (last (strings.Split cleanName "/"))
    else cleanName in
  homebrew_app ("homebrew-" +:+ strings.ReplaceAll1 packageName "/" "-")
    cleanName ("Homebrew package: " +:+ cleanName) "" "" None now
    {| Formula := packageName; FullName := ""; Tap := ""; Homepage := "";
       Versions := [] |}.

(** [fetchHomebrewPackageMetadata(packageName)], on the answer to
    [GET https://formulae.brew.sh/api/formula/packageName.json] (which is
    not asked for a name with a slash). The name comes from a Brewfile:
    for a name with which the address does not parse, the answer is
    [RequestError]. *)
Definition fetchHomebrewPackageMetadata (now : Z) (packageName : string)
    (resp : HttpResult (result HomebrewFormula)) : result (option App) :=
  if strings.Contains packageName "/"
  then Ok (Some (createMinimalHomebrewApp now packageName))
  else
    match resp with
    | RequestError err => Err (Errorf_w "create request" err)
    | TransportError err => Err (Errorf_w "fetch metadata" err)
    | Response StatusCode body =>
        if StatusCode =? StatusNotFound
        then Ok (Some (createMinimalHomebrewApp now packageName))
        else if negb (StatusCode =? StatusOK)
        then Err (unexpected_status StatusCode)
        else match body with
             | ReadFailed err => Err (Errorf_w "read response" err)
             | Payload (Err err) => Err (Errorf_w "unmarshal response" err)
             | Payload (Ok formula) =>
                 if Deprecated formula || Disabled formula then Ok None
                 else if negb (isLinuxCompatible formula) then Ok None
                 else Ok (Some (convertHomebrewFormulaToApp now formula))
             end
    end.

(** What [FetchHomebrewPackages] gets from outside. *)
Record HomebrewWorld : Type := {
  raw : string → HttpResult string;
  formulae : string → HttpResult (result HomebrewFormula);
  brew_clock : nat → Z;
  brew_sched : Shuffle
}.

(** what the goroutine for [name] appends to [apps], if anything *)
Definition homebrew_worker (w : HomebrewWorld) (i : nat) (name : string)
    : option App :=
  match fetchHomebrewPackageMetadata (brew_clock w i) name (formulae w name) with
  | Err _ => None
  | Ok app => app
  end.

Definition FetchHomebrewPackages (w : HomebrewWorld) : result (list App) :=
  match FetchHomebrewList (raw w) with
  | Err err => Err (Errorf_w "fetch homebrew list" err)
  | Ok packageNames =>
      Ok (shuffle (brew_sched w)
            (omap id (imap (homebrew_worker w) packageNames)))
  end.

(** *** The Bluefin OS release fetcher *)

Record GitHubRelease : Type := {
  TagName : string;
  GH_Name : string;
  GH_Body : string;
  HTMLURL : string;
  PublishedAt : Z;
  Draft : bool;
  Prerelease : bool
}.

(** the part of [FetchBluefinReleases] and [FetchBluefinOSApps] up to the
    decoded list, on the answer to
    [GET https://api.github.com/repos/ublue-os/bluefin/releases?per_page=10] *)
Definition fetch_github_releases (resp : HttpResult (result (list GitHubRelease)))
    : result (list GitHubRelease) :=
  match resp with
  | RequestError err => Err (Errorf_w "create request" err)
  | TransportError err => Err (Errorf_w "fetch releases" err)
  | Response StatusCode body =>
      if StatusCode =? StatusForbidden then Err rate_limit_error
      else if negb (StatusCode =? StatusOK)
      then Err (unexpected_status StatusCode)
      else match body with
           | ReadFailed err => Err (Errorf_w "read response body" err)
           | Payload (Err err) => Err (Errorf_w "unmarshal response" err)
           | Payload (Ok githubReleases) => Ok githubReleases
           end
  end.

(** [F(\d+)\.\d+] *)
Definition fedora_re : regexp.re :=
  regexp.Cat (regexp.Lit "F")
    (regexp.Cat (regexp.Cap (regexp.Plus regexp.digit))
      (regexp.Cat (regexp.Lit ".") (regexp.Plus regexp.digit))).

(** [#([a-f0-9]+)] *)
Definition commit_re : regexp.re :=
  regexp.Cat (regexp.Lit "#")
    (regexp.Cap (regexp.Plus (λ c,
       regexp.digit c
       || ((97 <=? nat_of_ascii c)%nat && (nat_of_ascii c <=? 102)%nat)))).

(** [\|\s*\*\*NAME\*\*\s*\|\s*([^\|]+)\s*\|], with NAME quoted by
    [regexp.QuoteMeta], that is, matched byte for byte *)
Definition package_re (packageName : string) : regexp.re :=
  regexp.Cat (regexp.Lit "|")
    (regexp.Cat (regexp.Star regexp.space)
      (regexp.Str "**"
        (regexp.Str packageName
          (regexp.Str "**"
            (regexp.Cat (regexp.Star regexp.space)
              (regexp.Cat (regexp.Lit "|")
                (regexp.Cat (regexp.Star regexp.space)
                  (regexp.Cat (regexp.Cap (regexp.Plus (regexp.not_chr "|")))
                    (regexp.Cat (regexp.Star regexp.space)
                      (regexp.Lit "|")))))))))).

(** the arrow of a version change, U+27A1 U+FE0F, in UTF-8 *)
Definition arrow : string :=
  String (ascii_of_nat 226) (String (ascii_of_nat 158) (String (ascii_of_nat 161)
    (String (ascii_of_nat 239) (String (ascii_of_nat 184)
      (String (ascii_of_nat 143) EmptyString))))).

Section with_externals.
Context `{!Externals}.

Definition parseReleaseNotes (body : string) : string :=
  markdown_ToHTML body.

(** the body of the loop of [FetchBluefinReleases] after the test *)
Definition to_release (ghRelease : GitHubRelease) : Release :=
  {| Version := TagName ghRelease;
     Date := PublishedAt ghRelease;
     Title := GH_Name ghRelease;
     Description := parseReleaseNotes (GH_Body ghRelease);
     ReleaseURL := HTMLURL ghRelease;
     ReleaseType := "bluefin-os-release" |}.

Fixpoint releases_loop (githubReleases : list GitHubRelease)
    (releases : list Release) : list Release :=
  match githubReleases with
  | [] => releases
  | ghRelease :: githubReleases' =>
      if Draft ghRelease || Prerelease ghRelease
      then releases_loop githubReleases' releases
      else releases_loop githubReleases' (releases ++ [to_release ghRelease])
  end.

Definition FetchBluefinReleases (resp : HttpResult (result (list GitHubRelease)))
    : result (list Release) :=
  match fetch_github_releases resp with
  | Err err => Err err
  | Ok githubReleases => Ok (releases_loop githubReleases [])
  end.

Definition extractPackageVersion (body packageName : string) : string :=
  let match_ := regexp.FindStringSubmatch (package_re packageName) body in
  if (1 <? length match_)%nat then
    let version := TrimSpace (default "" (match_ !! 1%nat)) in
    if strings.Contains version arrow then
      let parts := strings.Split version arrow in
      if (1 <? length parts)%nat
      then TrimSpace (default "" (parts !! 1%nat))
      else version
    else version
  else "".

Definition parseOSInfo (release : GitHubRelease) : OSInfo :=
  let parts := strings.Split (TagName release) "-" in
  let stream :=
    if (2 <=? length parts)%nat then default "" (parts !! 0%nat)
    else "stable" in
  let buildNumber :=
    if (2 <=? length parts)%nat then default "" (parts !! 1%nat)
    else TagName release in
  let nameMatch := regexp.FindStringSubmatch fedora_re (GH_Name release) in
  let fedoraVersion :=
    if (1 <? length nameMatch)%nat then default "" (nameMatch !! 1%nat)
    else "" in
  let commitMatch := regexp.FindStringSubmatch commit_re (GH_Name release) in
  let commitHash :=
    if (1 <? length commitMatch)%nat then default "" (commitMatch !! 1%nat)
    else "" in
  let add (name : string) (majorPackages : gmap string string) :=
    let ver := extractPackageVersion (GH_Body release) name in
    if negb (String.eqb ver "") then <[name := ver]> majorPackages
    else majorPackages in
  {| Stream := stream;
     FedoraVersion := fedoraVersion;
     CentOSVersion := "";
     BuildNumber := buildNumber;
     CommitHash := commitHash;
     ImageName := BluefinImageURL +:+ ":" +:+ stream;
     KernelVersion := extractPackageVersion (GH_Body release) "Kernel";
     GnomeVersion := extractPackageVersion (GH_Body release) "Gnome";
     MesaVersion := extractPackageVersion (GH_Body release) "Mesa";
     MajorPackages :=
       add "Incus" (add "Docker" (add "Nvidia" (add "Podman" ∅))) |}.

Definition formatOSName (osInfo : OSInfo) : string :=
  if String.eqb (Stream osInfo) "gts" then "Bluefin GTS"
  else if String.eqb (Stream osInfo) "lts" then "Bluefin LTS"
  else "Bluefin".

Definition extractSummary (release : GitHubRelease) (osInfo : OSInfo)
    : string :=
  let '(streamName, baseOS) :=
    if String.eqb (Stream osInfo) "gts"
    then ("GTS (General-Term Support)", "Fedora " +:+ FedoraVersion osInfo)
    else if String.eqb (Stream osInfo) "lts"
    then ("LTS (Long-Term Support)",
          "CentOS Stream " +:+ CentOSVersion osInfo)
    else ("Stable", "Fedora " +:+ FedoraVersion osInfo) in
  let summary := streamName +:+ " release based on " +:+ baseOS in
  if negb (String.eqb (KernelVersion osInfo) "")
  then summary +:+ " with Kernel " +:+ KernelVersion osInfo
  else summary.

(** the first loop of [FetchBluefinOSApps]: the latest release of each
    stream. The map holds pointers into [githubReleases], which is not
    written to, so it holds the releases themselves here. *)
Fixpoint latest_loop (githubReleases : list GitHubRelease)
    (latestByStream : gmap string GitHubRelease)
    : gmap string GitHubRelease :=
  match githubReleases with
  | [] => latestByStream
  | ghRelease :: githubReleases' =>
      if Draft ghRelease || Prerelease ghRelease
      then latest_loop githubReleases' latestByStream
      else
        let stream := Stream (parseOSInfo ghRelease) in
        match latestByStream !! stream with
        | Some existing =>
            if PublishedAt existing <? PublishedAt ghRelease
            then latest_loop githubReleases'
                   (<[stream := ghRelease]> latestByStream)
            else latest_loop githubReleases' latestByStream
        | None =>
            latest_loop githubReleases'
              (<[stream := ghRelease]> latestByStream)
        end
  end.

(** the body of the second loop of [FetchBluefinOSApps] *)
Definition os_app (now : Z) (ghRelease : GitHubRelease) : App :=
  let osInfo := parseOSInfo ghRelease in
  {| ID := "bluefin-os-" +:+ Stream osInfo;
     Name := formatOSName osInfo;
     Summary := extractSummary ghRelease osInfo;
     AppDescription := GH_Body ghRelease;
     DeveloperName := "";
     Icon := "https://avatars.githubusercontent.com/u/120078124?s=200&v=4";
     ProjectLicense := "";
     Categories := [];
     UpdatedAt := Format_RFC3339 (PublishedAt ghRelease);
     AppVersion := TagName ghRelease;
     ReleaseDate := Format_RFC3339 (PublishedAt ghRelease);
     FlathubURL := HTMLURL ghRelease;
     AppSourceRepo :=
       Some {| Type_ := "github";
               URL := "https://github.com/" +:+ BluefinOSOwner +:+ "/"
                        +:+ BluefinOSRepo;
               Owner := BluefinOSOwner;
               Repo := BluefinOSRepo |};
     Releases := [to_release ghRelease];
     FetchedAt := now;
     PackageType := "os";
     AppOSInfo := Some osInfo;
     AppHomebrewInfo := None |}.

(** the second loop of [FetchBluefinOSApps], over the entries of the map in
    the order of the visit. Every iteration reads the clock for itself:
    [now i] is the reading of the iteration that builds the record [i],
    which is the one that finds [i] records in [apps]. *)
Fixpoint apps_loop (now : nat → Z) (latest : list (string * GitHubRelease))
    (apps : list App) : list App :=
  match latest with
  | [] => apps
  | (_, ghRelease) :: latest' =>
      apps_loop now latest' (apps ++ [os_app (now (length apps)) ghRelease])
  end.

Definition FetchBluefinOSApps (rt : Shuffle) (now : nat → Z)
    (resp : HttpResult (result (list GitHubRelease))) : result (list App) :=
  match fetch_github_releases resp with
  | Err err => Err err
  | Ok githubReleases =>
      let latestByStream := latest_loop githubReleases ∅ in
      Ok (apps_loop now (range rt latestByStream) [])
  end.

End with_externals.
End bluefin.

(** ** The merge of fetched releases into a package's release list *)
Module enrichment.
Import models.

(** the pair a release list is unique by *)
Definition release_key (r : Release) : string * string :=
  (Version r, ReleaseType r).

(** keep the first entry of each key; [seen] holds the keys met so far *)
Fixpoint dedup_loop (releases : list Release) (seen : gset (string * string))
    (result : list Release) : list Release :=
  match releases with
  | [] => result
  | r :: releases' =>
      if decide (release_key r ∈ seen) then dedup_loop releases' seen result
      else dedup_loop releases' ({[release_key r]} ∪ seen) (result ++ [r])
  end.

(** Modelled from the spec: the function that merges the releases fetched
    from a source repository into a package (the GitHub and GitLab
    enrichment, of which the sources hold only a test) is missing. The rule
    of the spec: the fetched releases are put in front of the existing
    ones, the concatenation is deduplicated by (version, origin-type), and
    the result is cut at the cap. *)
Definition merge_releases (cap : nat) (fetched existing : list Release)
    : list Release :=
  take cap (dedup_loop (fetched ++ existing) ∅ []).

End enrichment.

(** ** Two runtimes and one set of library functions to run the model on *)

(** everything happens in program order *)
Definition in_order : Shuffle :=
  {| shuffle := λ A l, l;
     shuffle_perm := λ A l, reflexivity l |}.

(** everything happens in the opposite order *)
Definition reversed : Shuffle :=
  {| shuffle := λ A l, reverse l;
     shuffle_perm := λ A l, reverse_Permutation l |}.

(** stand-ins for the library functions: no markup conversion, no date
    understood, nothing trimmed *)
Definition plain_externals : Externals :=
  {| markdown_ToHTML := λ s, s;
     Format_RFC3339 := λ t, pretty t;
     time_Parse := λ _ _, None;
     TrimSpace := λ s, s;
     extractFirefoxReleaseNotes := λ s, s |}.

(** ** Package [rss] *)
Module rss.
Import models.

(** the fields of [gofeed.Item] that the package reads; a [nil] time is
    [None] *)
Record Item : Type := {
  Item_Title : string;
  Item_Description : string;
  Item_Link : string;
  GUID : string;
  PublishedParsed : option Z;
  UpdatedParsed : option Z
}.

Record Feed : Type := { Items : list Item }.

(** [p.FetchAndParse(ctx, url)], on what [ParseURLWithContext] returns *)
Definition FetchAndParse (parsed : result Feed) : result Feed :=
  match parsed with
  | Err err => Err (Errorf_w "parse RSS feed" err)
  | Ok feed => Ok feed
  end.

(** the first byte of a string is [v] or [V] *)
Definition starts_with_v (word : string) : bool :=
  match word with
  | String c _ => Ascii.eqb c "v" || Ascii.eqb c "V"
  | EmptyString => false
  end.

(** [extractVersion(item)]; the loop runs over the one-element slice
    [[]string{item.Title}] *)
Definition extractVersion (item : Item) : string :=
  if negb (String.eqb (Item_Title item) "") && starts_with_v (Item_Title item)
  then Item_Title item
  else if negb (String.eqb (GUID item) "") then GUID item
  else "unknown".

(** the body of the loop of [ConvertToReleases]; [now] is what [time.Now()]
    returns in this iteration *)
Definition convert_item (now : Z) (releaseType : string) (item : Item)
    : Release :=
  {| Version := extractVersion item;
     Date := match PublishedParsed item with
             | Some published => published
             | None =>
                 match UpdatedParsed item with
                 | Some updated => updated
                 | None => now
                 end
             end;
     Title := Item_Title item;
     Description := Item_Description item;
     ReleaseURL := Item_Link item;
     ReleaseType := releaseType |}.

(** the loop of [ConvertToReleases]. Every iteration reads the clock for
    itself: [now i] is the reading of the iteration that converts item [i],
    which is the one that finds [i] releases in [releases]. *)
Fixpoint convert_items_loop (now : nat → Z) (releaseType : string)
    (items : list Item) (releases : list Release) : list Release :=
  match items with
  | [] => releases
  | item :: items' =>
      convert_items_loop now releaseType items'
        (releases ++ [convert_item (now (length releases)) releaseType item])
  end.

Definition ConvertToReleases (now : nat → Z) (feed : Feed)
    (releaseType : string) : list Release :=
  convert_items_loop now releaseType (Items feed) [].

(** [p.FetchGitHubReleases(ctx, owner, repo)]; [parse url] is what the feed
    parser returns for the address *)
Definition FetchGitHubReleases (now : nat → Z) (parse : string → result Feed)
    (owner repo : string) : result (list Release) :=
  let url := "https://github.com/" +:+ owner +:+ "/" +:+ repo
               +:+ "/releases.atom" in
  match FetchAndParse (parse url) with
  | Err err => Err (Errorf_w "fetch GitHub releases" err)
  | Ok feed => Ok (ConvertToReleases now feed "github-release")
  end.

(** [p.FetchFlathubRSS(ctx)] *)
Definition FetchFlathubRSS (parse : string → result Feed) : result Feed :=
  match FetchAndParse (parse "https://flathub.org/feeds/recently-updated.xml") with
  | Err err => Err (Errorf_w "fetch Flathub RSS" err)
  | Ok feed => Ok feed
  end.

End rss.

(** ** Package [bluefin]: the LTS release fetcher *)
Module bluefin_lts.
Import models bluefin.

Definition BluefinLTSRepo : string := "bluefin-lts".

(** [c(\d+)s] *)
Definition centos_re : regexp.re :=
  regexp.Cat (regexp.Lit "c")
    (regexp.Cat (regexp.Cap (regexp.Plus regexp.digit)) (regexp.Lit "s")).

Section with_externals.
Context `{!Externals}.

Definition parseLTSInfo (release : GitHubRelease) : OSInfo :=
  let parts := strings.Split (TagName release) "-" in
  let buildNumber :=
    if (2 <=? length parts)%nat then default "" (parts !! 1%nat)
    else TagName release in
  let nameMatch := regexp.FindStringSubmatch centos_re (GH_Name release) in
  let centosVersion :=
    if (1 <? length nameMatch)%nat then default "" (nameMatch !! 1%nat)
    else "" in
  let commitMatch := regexp.FindStringSubmatch commit_re (GH_Name release) in
  let commitHash :=
    if (1 <? length commitMatch)%nat then default "" (commitMatch !! 1%nat)
    else "" in
  let add (name : string) (majorPackages : gmap string string) :=
    let ver := extractPackageVersion (GH_Body release) name in
    if negb (String.eqb ver "") then <[name := ver]> majorPackages
    else majorPackages in
  {| Stream := "lts";
     FedoraVersion := "";
     CentOSVersion := centosVersion;
     BuildNumber := buildNumber;
     CommitHash := commitHash;
     ImageName := BluefinImageURL +:+ ":lts";
     KernelVersion := extractPackageVersion (GH_Body release) "Kernel";
     GnomeVersion := extractPackageVersion (GH_Body release) "Gnome";
     MesaVersion := extractPackageVersion (GH_Body release) "Mesa";
     MajorPackages :=
       add "Incus" (add "Docker" (add "Nvidia" (add "Podman" ∅))) |}.

(** the loop of [FetchBluefinLTSApps]: [latestRelease] is a pointer into
    [githubReleases], [None] while it is [nil] *)
Fixpoint latest_lts_loop (githubReleases : list GitHubRelease)
    (latestRelease : option GitHubRelease) : option GitHubRelease :=
  match githubReleases with
  | [] => latestRelease
  | ghRelease :: githubReleases' =>
      if Draft ghRelease || Prerelease ghRelease
      then latest_lts_loop githubReleases' latestRelease
      else
        match latestRelease with
        | None => latest_lts_loop githubReleases' (Some ghRelease)
        | Some latest =>
            if PublishedAt latest <? PublishedAt ghRelease
            then latest_lts_loop githubReleases' (Some ghRelease)
            else latest_lts_loop githubReleases' latestRelease
        end
  end.

Definition lts_app (now : Z) (latestRelease : GitHubRelease) : App :=
  let osInfo := parseLTSInfo latestRelease in
  {| ID := "bluefin-os-lts";
     Name := formatOSName osInfo;
     Summary := extractSummary latestRelease osInfo;
     AppDescription := GH_Body latestRelease;
     DeveloperName := "";
     Icon := "https://avatars.githubusercontent.com/u/120078124?s=200&v=4";
     ProjectLicense := "";
     Categories := [];
     UpdatedAt := Format_RFC3339 (PublishedAt latestRelease);
     AppVersion := TagName latestRelease;
     ReleaseDate := Format_RFC3339 (PublishedAt latestRelease);
     FlathubURL := HTMLURL latestRelease;
     AppSourceRepo :=
       Some {| Type_ := "github";
               URL := "https://github.com/" +:+ BluefinOSOwner +:+ "/"
                        +:+ BluefinLTSRepo;
               Owner := BluefinOSOwner;
               Repo := BluefinLTSRepo |};
     Releases := [to_release latestRelease];
     FetchedAt := now;
     PackageType := "os";
     AppOSInfo := Some osInfo;
     AppHomebrewInfo := None |}.

(** [FetchBluefinLTSApps], on the answer to
    [GET https://api.github.com/repos/ublue-os/bluefin-lts/releases?per_page=10];
    the request and the handling of its answer are those of
    [FetchBluefinOSApps] *)
Definition FetchBluefinLTSApps (now : Z)
    (resp : HttpResult (result (list GitHubRelease))) : result (list App) :=
  match fetch_github_releases resp with
  | Err err => Err err
  | Ok githubReleases =>
      match latest_lts_loop githubReleases None with
      | Some latestRelease => Ok [lts_app now latestRelease]
      | None => Ok []
      end
  end.

End with_externals.
End bluefin_lts.

(** ** Package [bluefin]: homebrew_taps.go *)
Module homebrew_taps.
Import models.


Record GitHubContentItem : Type := {
  Content_Name : string;
  Content_Path : string;
  Content_Type : string;
  DownloadURL : string
}.


Section with_parser.
(** [parseTapPackage(owner, repo, directory, filename, pkgName, pkgType,
    experimental)], which fetches and reads one [.rb] file *)
Variable parseTapPackage :
  string → string → string → string → string → string → bool → result App.

(** the loop of [fetchTapDirectory] over the files of the directory *)
Fixpoint tap_files_loop (owner repo directory pkgType : string)
    (experimental : bool) (files_ : list GitHubContentItem) (apps : list App)
    : list App :=
  match files_ with
  | [] => apps
  | file :: files' =>
      if negb (strings.HasSuffix (Content_Name file) ".rb")
      then tap_files_loop owner repo directory pkgType experimental files' apps
      else
        let pkgName := strings.TrimSuffix (Content_Name file) ".rb" in
        match parseTapPackage owner repo directory (Content_Name file)
                pkgName pkgType experimental with
        | Err _ =>
            tap_files_loop owner repo directory pkgType experimental files' apps
        | Ok app =>
            tap_files_loop owner repo directory pkgType experimental files'
              (apps ++ [app])
        end
  end.

(** [fetchTapDirectory(owner, repo, directory, pkgType, experimental)], on
    the answer to [GET https://api.github.com/repos/owner/repo/contents/directory].
    The body is decoded as it is read, so a body that cannot be read and one
    that is malformed both give the decoding error. *)
Definition fetchTapDirectory (owner repo directory pkgType : string)
    (experimental : bool) (resp : HttpResult (result (list GitHubContentItem)))
    : result (list App) :=
  match resp with
  | RequestError err => Err (Errorf_w "create request" err)
  | TransportError err => Err (Errorf_w "fetch directory" err)
  | Response StatusCode body =>
      if StatusCode =? 404 then Ok []
      else if negb (StatusCode =? 200) then Err (unexpected_status StatusCode)
      else match body with
           | ReadFailed err => Err (Errorf_w "decode response" err)
           | Payload (Err err) => Err (Errorf_w "decode response" err)
           | Payload (Ok files_) =>
               Ok (tap_files_loop owner repo directory pkgType experimental
                     files_ [])
           end
  end.





End with_parser.
End homebrew_taps.

(** ** Vocabulary of the properties *)
Section vocabulary.
Import models flathub bluefin.
Context `{!Externals}.

(** the releases that are neither drafts nor pre-releases *)
Definition published (githubReleases : list GitHubRelease) : list GitHubRelease :=
  filter (λ g, Draft g = false ∧ Prerelease g = false) githubReleases.

(** the stream [parseOSInfo] reads off a release *)
Definition stream_of (g : GitHubRelease) : string := Stream (parseOSInfo g).

(** what the first loop of [FetchBluefinOSApps] keeps true of the map, for
    the published releases [seen] it has gone through *)
Definition latest_ok (seen : list GitHubRelease)
    (m : gmap string GitHubRelease) : Prop :=
  (∀ s g, m !! s = Some g →
     g ∈ seen ∧ stream_of g = s
     ∧ ∀ g', g' ∈ seen → stream_of g' = s → PublishedAt g' ≤ PublishedAt g)
  ∧ (∀ g, g ∈ seen → is_Some (m !! stream_of g)).

(** the error every adapter builds for a status it does not know *)
Definition generic_status_error (e : error) : Prop :=
  ∃ StatusCode, e = unexpected_status StatusCode.

(** an adapter returns the rate-limit answers 403 and 429 as errors that are
    not the generic one *)
Definition distinguishes_rate_limit {A B : Type}
    (adapter : HttpResult A → result B) : Prop :=
  ∀ StatusCode body,
    StatusCode = StatusForbidden ∨ StatusCode = StatusTooManyRequests →
    ∃ e, adapter (Response StatusCode body) = Err e ∧ ¬ generic_status_error e.

(** an adapter answers 404 with an empty result and no error *)
Definition not_found_is_empty {A B : Type}
    (adapter : HttpResult A → result B) (empty : B) : Prop :=
  ∀ body, adapter (Response StatusNotFound body) = Ok empty.

(** what one Brewfile adds to the Flatpak list: nothing if its fetch fails *)
Definition flatpak_contribution (raw : string → HttpResult string)
    (entry : string * string) : list AppSetInfo :=
  match fetchRawFile entry.1 (raw (raw_url entry.1)) with
  | Err _ => []
  | Ok content =>
      map (λ appID, {| AppID := appID; AppSet := entry.2 |})
          (parseFlatpakBrewfile content)
  end.

(** what one Brewfile adds to the Homebrew list: nothing if its fetch fails *)
Definition homebrew_contribution (raw : string → HttpResult string)
    (brewfile : string) : list string :=
  match fetchRawFile brewfile (raw (raw_url brewfile)) with
  | Err _ => []
  | Ok content => parseHomebrewBrewfile content
  end.

(** the URL [ExtractSourceRepo] picks does not hang on the order of the
    visit: a priority key is present, or there is at most one entry *)
Definition choice_forced (urls : gmap string string) : Prop :=
  is_Some (urls !! "homepage") ∨ is_Some (urls !! "bugtracker")
  ∨ (size urls ≤ 1)%nat.

(** two runs of a function that may end the process come out the same up to
    the order of the emitted records *)
Definition same_records (r1 r2 : run FetchResults) : Prop :=
  match r1, r2 with
  | Returns res1, Returns res2 => Apps res1 ≡ₚ Apps res2
  | Fatal msg1, Fatal msg2 => msg1 = msg2
  | _, _ => False
  end.

(** keep the first element of each key that is not in [seen] *)
Fixpoint dedup_by {A K : Type} `{Countable K} (key : A → K) (l : list A)
    (seen : gset K) : list A :=
  match l with
  | [] => []
  | x :: l' =>
      if decide (key x ∈ seen) then dedup_by key l' seen
      else x :: dedup_by key l' ({[key x]} ∪ seen)
  end.

(** what a release list is to satisfy: at most [cap] entries, unique by
    (version, origin-type), newest first *)
Definition release_invariant (cap : nat) (releases : list Release) : Prop :=
  (length releases ≤ cap)%nat
  ∧ NoDup (map enrichment.release_key releases)
  ∧ Sorted (λ r1 r2, Date r2 ≤ Date r1) releases.

(** a failed [WriteJSON] leaves the destination as it was *)
Definition write_is_atomic (json_Marshal : OutputData → result string) : Prop :=
  ∀ o path d d' err,
    WriteJSON json_Marshal o path d = (d', Some err) →
    files d' !! path = files d !! path.

(** [ExtractSourceRepo] selects the same repository whatever the runtime *)
Definition selection_is_stable : Prop :=
  ∀ rt1 rt2 details,
    ExtractSourceRepo rt1 details = ExtractSourceRepo rt2 details.

(** [FetchAllApps] emits the same list whatever the schedule *)
Definition order_is_stable : Prop :=
  ∀ feed appstream clock rt sched1 sched2,
    FetchAllApps {| flathub.feed := feed; flathub.appstream := appstream;
                    flathub.clock := clock; flathub.rt := rt;
                    flathub.sched := sched1 |}
    = FetchAllApps {| flathub.feed := feed; flathub.appstream := appstream;
                      flathub.clock := clock; flathub.rt := rt;
                      flathub.sched := sched2 |}.

(** no two records of [FetchHomebrewPackages] have the same identifier *)
Definition identifiers_unique : Prop :=
  ∀ w apps, FetchHomebrewPackages w = Ok apps → NoDup (map ID apps).

(** the release list of every record [FetchAllApps] and Mozilla enrichment
    produce satisfies the invariant for the cap *)
Definition releases_normalised (cap : nat) : Prop :=
  ∀ w res firefox thunderbird app,
    FetchAllApps w = Returns res →
    app ∈ mozilla.EnrichWithMozillaReleases firefox thunderbird (Apps res) →
    release_invariant cap (Releases app).

(** [FetchAllApps] returns whatever the upstreams answer *)
Definition never_aborts : Prop :=
  ∀ w, ∃ res, FetchAllApps w = Returns res.
End vocabulary.

(** ** Vocabulary of the further properties *)

(** every byte of [s] satisfies [p] *)
Fixpoint all_bytes (p : ascii → bool) (s : string) : bool :=
  match s with
  | EmptyString => true
  | String c s' => p c && all_bytes p s'
  end.

(** the byte [c] does not occur in [s] *)
Definition free_of (c : ascii) (s : string) : Prop :=
  all_bytes (regexp.not_chr c) s = true.

(** [occurs_in w s]: [s] reads [w] somewhere *)
Definition occurs_in (w s : string) : Prop :=
  ∃ before after, s = before +:+ w +:+ after.

(** what it is for a pattern to match a string, with the submatches of its
    groups in the order of the groups *)
Inductive matches : regexp.re → string → list string → Prop :=
  | matches_Lit c :
      matches (regexp.Lit c) (String c EmptyString) []
  | matches_Cls (p : ascii → bool) c :
      p c = true → matches (regexp.Cls p) (String c EmptyString) []
  | matches_Star (p : ascii → bool) w :
      all_bytes p w = true → matches (regexp.Star p) w []
  | matches_Plus (p : ascii → bool) w :
      w ≠ EmptyString → all_bytes p w = true → matches (regexp.Plus p) w []
  | matches_Cat r1 r2 w1 w2 caps1 caps2 :
      matches r1 w1 caps1 → matches r2 w2 caps2 →
      matches (regexp.Cat r1 r2) (w1 +:+ w2) (caps1 ++ caps2)
  | matches_Cap r w caps :
      matches r w caps → matches (regexp.Cap r) w (caps ++ [w]).

(** a list of submatches as [FindStringSubmatch] returns it comes from a
    match somewhere in [s] *)
Definition submatch_of (r : regexp.re) (s : string) (sub : list string) : Prop :=
  ∃ before w after caps,
    s = before +:+ w +:+ after ∧ matches r w caps ∧ sub = w :: caps.

(** [latest] is the first of the releases of [seen] that have the latest
    publication date, or nothing when [seen] is empty *)
Definition first_latest (seen : list bluefin.GitHubRelease)
    (latest : option bluefin.GitHubRelease) : Prop :=
  match latest with
  | None => seen = []
  | Some g =>
      ∃ before after,
        seen = before ++ g :: after
        ∧ (∀ g', g' ∈ before → bluefin.PublishedAt g' < bluefin.PublishedAt g)
        ∧ (∀ g', g' ∈ after → bluefin.PublishedAt g' ≤ bluefin.PublishedAt g)
  end.

(** the packages [parseOSInfo] and [parseLTSInfo] look up for the map of
    major packages *)
Definition major_package_names : list string :=
  ["Podman"; "Nvidia"; "Docker"; "Incus"].

Section vocabulary_of_the_amendments.
Import models bluefin.
Context `{!Externals}.

(** [g] is the release the first loop of [FetchBluefinOSApps] keeps for
    its stream: of the published releases of that stream, the first one
    with the latest publication date *)
Definition latest_of_its_stream (githubReleases : list GitHubRelease)
    (g : GitHubRelease) : Prop :=
  first_latest
    (filter (λ g', stream_of g' = stream_of g) (published githubReleases))
    (Some g).

(** every release that is neither a draft nor a pre-release is converted
    into a release of the output *)
Definition every_published_converted
    (fetch : HttpResult (result (list GitHubRelease)) → result (list App))
    : Prop :=
  ∀ githubReleases apps g,
    fetch (Response StatusOK (Payload (Ok githubReleases))) = Ok apps →
    g ∈ published githubReleases →
    to_release g ∈ concat (map Releases apps).

(** the releases a package had are still in its list after the enrichment *)
Definition existing_retained
    (enrich : list App → list App) : Prop :=
  ∀ apps i app app',
    apps !! i = Some app → enrich apps !! i = Some app' →
    ∀ r, r ∈ Releases app →
      enrichment.release_key r ∈ map enrichment.release_key (Releases app').
End vocabulary_of_the_amendments.

(** the example of the merge rule: a package with one release from the
    package metadata gains two releases from the source repository, one of
    which has the version of the release it had, and ends with two
    entries *)
Definition duplicate_collapses
    (merge : nat → list models.Release → list models.Release
             → list models.Release) (cap : nat) : Prop :=
  ∀ g1 g2 a,
    models.ReleaseType g1 = models.ReleaseType g2 →
    models.ReleaseType a ≠ models.ReleaseType g1 →
    models.Version g1 ≠ models.Version g2 →
    models.Version a = models.Version g1 ∨ models.Version a = models.Version g2 →
    length (merge cap [g1; g2] [a]) = 2%nat.

(** * Properties *)

(** ** The Bluefin OS release fetcher *)
Section bluefin_os.
Import models bluefin.
Context `{!Externals}.

Lemma published_cons_skip g l :
  Draft g || Prerelease g = true → published (g :: l) = published l.
Proof.
  intros Hd. unfold published. rewrite filter_cons_False; [done|].
  intros [Hd1 Hd2]. rewrite Hd1, Hd2 in Hd. done.
Qed.

Lemma published_cons_keep g l :
  Draft g || Prerelease g = false → published (g :: l) = g :: published l.
Proof.
  intros Hd. unfold published. rewrite filter_cons_True; [done|].
  by apply orb_false_elim in Hd.
Qed.

Lemma releases_loop_spec l acc :
  releases_loop l acc = acc ++ map to_release (published l).
Proof.
  revert acc. induction l as [|g l IH]; intros acc; simpl.
  - by rewrite app_nil_r.
  - destruct (Draft g || Prerelease g) eqn:Hd.
    + by rewrite IH, published_cons_skip.
    + rewrite IH, published_cons_keep by done. by rewrite <- app_assoc.
Qed.

Lemma apps_loop_spec now l acc :
  apps_loop now l acc
  = acc ++ imap (λ i e, os_app (now (length acc + i)%nat) e.2) l.
Proof.
  revert acc. induction l as [|[s g] l IH]; intros acc; simpl.
  - by rewrite app_nil_r.
  - rewrite IH, <- app_assoc, length_app. simpl.
    rewrite Nat.add_0_r. do 2 f_equal.
    apply imap_ext. intros i e _. simpl. do 2 f_equal. lia.
Qed.

(** the records of [FetchBluefinOSApps]: one for each release the first
    loop kept, in the order of the visit, the record [i] with the clock
    reading [i] *)
Lemma FetchBluefinOSApps_kept rt now resp :
  FetchBluefinOSApps rt now resp
  = match fetch_github_releases resp with
    | Err err => Err err
    | Ok githubReleases =>
        Ok (imap (λ i g, os_app (now i) g)
              (range rt (latest_loop githubReleases ∅)).*2)
    end.
Proof.
  unfold FetchBluefinOSApps.
  destruct (fetch_github_releases resp) as [githubReleases|err]; [|done].
  rewrite apps_loop_spec, app_nil_l. f_equal.
  by rewrite imap_fmap.
Qed.

Lemma latest_ok_empty : latest_ok [] ∅.
Proof.
  split.
  - intros s g Hs. by rewrite lookup_empty in Hs.
  - intros g Hg. by apply elem_of_nil in Hg.
Qed.

Lemma latest_ok_insert seen m g :
  latest_ok seen m →
  (∀ existing, m !! stream_of g = Some existing →
     PublishedAt existing < PublishedAt g) →
  latest_ok (seen ++ [g]) (<[stream_of g := g]> m).
Proof.
  intros [Hm Hdom] Hnew. split.
  - intros s g0 Hs. destruct (decide (stream_of g = s)) as [<-|Hne].
    + rewrite lookup_insert_eq in Hs. injection Hs as <-.
      split; [apply elem_of_app; right; by apply list_elem_of_singleton|].
      split; [done|].
      intros g' [Hg'|Hg']%elem_of_app Hst.
      * destruct (Hdom g' Hg') as [existing Hex]. rewrite Hst in Hex.
        destruct (Hm _ _ Hex) as (_ & _ & Hmax).
        specialize (Hmax g' Hg' Hst). specialize (Hnew _ Hex). lia.
      * apply list_elem_of_singleton in Hg'. subst g'. lia.
    + rewrite lookup_insert_ne in Hs by done.
      destruct (Hm _ _ Hs) as (Hin & Hst & Hmax).
      split; [apply elem_of_app; by left|]. split; [done|].
      intros g' [Hg'|Hg']%elem_of_app Hst'; [by apply Hmax|].
      apply list_elem_of_singleton in Hg'. subst g'. done.
  - intros g0 [Hg0|Hg0]%elem_of_app.
    + destruct (decide (stream_of g = stream_of g0)) as [->|Hne].
      * rewrite lookup_insert_eq. by eexists.
      * rewrite lookup_insert_ne by done. by apply Hdom.
    + apply list_elem_of_singleton in Hg0. subst g0.
      rewrite lookup_insert_eq. by eexists.
Qed.

Lemma latest_ok_keep seen m g existing :
  latest_ok seen m →
  m !! stream_of g = Some existing →
  PublishedAt g ≤ PublishedAt existing →
  latest_ok (seen ++ [g]) m.
Proof.
  intros [Hm Hdom] Hex Hle. split.
  - intros s g0 Hs. destruct (Hm _ _ Hs) as (Hin & Hst & Hmax).
    split; [apply elem_of_app; by left|]. split; [done|].
    intros g' [Hg'|Hg']%elem_of_app Hst'; [by apply Hmax|].
    apply list_elem_of_singleton in Hg'. subst g'.
    rewrite Hst' in Hex. rewrite Hs in Hex. by injection Hex as ->.
  - intros g0 [Hg0|Hg0]%elem_of_app; [by apply Hdom|].
    apply list_elem_of_singleton in Hg0. subst g0. by eexists.
Qed.

Lemma latest_loop_cons g l m :
  latest_loop (g :: l) m =
    if Draft g || Prerelease g then latest_loop l m
    else match m !! stream_of g with
         | Some existing =>
             if PublishedAt existing <? PublishedAt g
             then latest_loop l (<[stream_of g := g]> m)
             else latest_loop l m
         | None => latest_loop l (<[stream_of g := g]> m)
         end.
Proof. reflexivity. Qed.

Lemma latest_loop_ok l : ∀ seen m,
  latest_ok seen m → latest_ok (seen ++ published l) (latest_loop l m).
Proof.
  induction l as [|g l IH]; intros seen m Hok.
  - simpl. by rewrite app_nil_r.
  - rewrite latest_loop_cons.
    destruct (Draft g || Prerelease g) eqn:Hd.
    + rewrite published_cons_skip by done. by apply IH.
    + rewrite published_cons_keep by done.
      replace (seen ++ g :: published l) with ((seen ++ [g]) ++ published l)
        by (by rewrite <- app_assoc).
      destruct (m !! stream_of g) as [existing|] eqn:Hex.
      * destruct (PublishedAt existing <? PublishedAt g) eqn:Hlt.
        -- apply IH, latest_ok_insert; [done|].
           intros e He. rewrite Hex in He. injection He as <-. lia.
        -- apply IH. eapply latest_ok_keep; [done..|lia].
      * apply IH, latest_ok_insert; [done|].
        intros e He. by rewrite Hex in He.
Qed.

Lemma os_app_ID now g : ID (os_app now g) = "bluefin-os-" +:+ stream_of g.
Proof. reflexivity. Qed.

Lemma append_inj_r (p s1 s2 : string) : p +:+ s1 = p +:+ s2 → s1 = s2.
Proof. induction p as [|c p IH]; simpl; [done|]. intros [= Heq]. by apply IH. Qed.

(** the entries the second loop visits: each stream once, each with the
    release the first loop kept for it *)
Lemma range_latest (rt : Shuffle) l :
  let entries := range rt (latest_loop l ∅) in
  NoDup entries.*1
  ∧ (∀ s, s ∈ entries.*1 ↔ s ∈ map stream_of (published l))
  ∧ Forall (λ e, stream_of e.2 = e.1 ∧ e.2 ∈ published l
                 ∧ ∀ g', g' ∈ published l → stream_of g' = stream_of e.2 →
                     PublishedAt g' ≤ PublishedAt e.2) entries.
Proof.
  intros entries.
  pose proof (latest_loop_ok l [] ∅ latest_ok_empty) as [Hm Hdom].
  rewrite app_nil_l in Hm, Hdom.
  assert (Hperm : entries ≡ₚ map_to_list (latest_loop l ∅))
    by apply shuffle_perm.
  split; [|split].
  - rewrite Hperm. apply NoDup_fst_map_to_list.
  - intros s. rewrite Hperm. split.
    + intros ([s' g] & -> & Hin)%list_elem_of_fmap.
      apply elem_of_map_to_list in Hin.
      destruct (Hm _ _ Hin) as (Hg & Hst & _).
      apply list_elem_of_fmap. by exists g.
    + intros (g & -> & Hg)%list_elem_of_fmap.
      destruct (Hdom g Hg) as [g0 Hg0].
      apply list_elem_of_fmap. exists (stream_of g, g0).
      split; [done|]. by apply elem_of_map_to_list.
  - rewrite Hperm. apply Forall_forall. intros [s g] Hin.
    apply elem_of_map_to_list in Hin.
    destruct (Hm _ _ Hin) as (Hg & Hst & Hmax). simpl.
    split; [done|]. split; [done|].
    intros g' Hg' Hst'. apply Hmax; [done|]. by rewrite Hst'.
Qed.

Lemma first_latest_step seen latest g :
  first_latest seen latest →
  first_latest (seen ++ [g])
    (match latest with
     | None => Some g
     | Some l => if PublishedAt l <? PublishedAt g then Some g else Some l
     end).
Proof.
  destruct latest as [l|]; simpl.
  - intros (before & after & -> & Hbefore & Hafter).
    destruct (PublishedAt l <? PublishedAt g) eqn:Hlt.
    + apply Z.ltb_lt in Hlt. exists (before ++ l :: after), [].
      split; [done|]. split; [|by intros ? ?%elem_of_nil].
      intros g' [Hg' | [-> | Hg']%elem_of_cons]%elem_of_app; [|done|].
      * specialize (Hbefore g' Hg'). lia.
      * specialize (Hafter g' Hg'). lia.
    + apply Z.ltb_ge in Hlt. exists before, (after ++ [g]).
      split; [by rewrite <- app_assoc|]. split; [done|].
      intros g' [Hg' | ->%list_elem_of_singleton]%elem_of_app;
        [by apply Hafter|done].
  - intros ->. exists [], []. split; [done|].
    split; by intros ? ?%elem_of_nil.
Qed.

(** a list has one first latest release *)
Lemma first_latest_unique seen g g' :
  first_latest seen (Some g) → first_latest seen (Some g') → g = g'.
Proof.
  intros (before & after & -> & Hbefore & Hafter)
         (before' & after' & Heq & Hbefore' & Hafter').
  revert before' Heq Hbefore Hbefore'.
  induction before as [|x before IH]; intros [|x' before'] Heq Hbefore Hbefore';
    simpl in Heq.
  - by injection Heq.
  - injection Heq as -> ->.
    assert (PublishedAt x' < PublishedAt g') by (apply Hbefore'; by left).
    assert (PublishedAt g' ≤ PublishedAt x').
    { apply Hafter, elem_of_app. right. by left. }
    lia.
  - injection Heq as -> <-.
    assert (PublishedAt g' < PublishedAt g) by (apply Hbefore; by left).
    assert (PublishedAt g ≤ PublishedAt g').
    { apply Hafter', elem_of_app. right. by left. }
    lia.
  - injection Heq as -> Heq. apply (IH before' Heq).
    + intros y Hy. apply Hbefore. by right.
    + intros y Hy. apply Hbefore'. by right.
Qed.

(** what the first loop of [FetchBluefinOSApps] keeps true of the map, for
    the published releases [seen] it has gone through: a stream is mapped
    to the first of its releases with the latest date *)
Lemma latest_loop_first l : ∀ seen m,
  (∀ s, first_latest (filter (λ g', stream_of g' = s) seen) (m !! s)) →
  ∀ s, first_latest (filter (λ g', stream_of g' = s) (seen ++ published l))
         (latest_loop l m !! s).
Proof.
  induction l as [|g l IH]; intros seen m Hinv.
  { simpl. by rewrite app_nil_r. }
  rewrite latest_loop_cons.
  destruct (Draft g || Prerelease g) eqn:Hd.
  { rewrite published_cons_skip by done. by apply IH. }
  rewrite published_cons_keep by done.
  replace (seen ++ g :: published l) with ((seen ++ [g]) ++ published l)
    by (by rewrite <- app_assoc).
  assert (Hstep : ∀ m' : gmap string GitHubRelease,
            m' !! stream_of g
            = match m !! stream_of g with
              | None => Some g
              | Some existing =>
                  if PublishedAt existing <? PublishedAt g
                  then Some g else Some existing
              end →
            (∀ s, s ≠ stream_of g → m' !! s = m !! s) →
            ∀ s, first_latest (filter (λ g', stream_of g' = s) (seen ++ [g]))
                   (m' !! s)).
  { intros m' Hat Helse s. rewrite filter_app.
    destruct (decide (s = stream_of g)) as [->|Hne].
    - rewrite filter_cons_True, filter_nil by done. rewrite Hat.
      apply first_latest_step, Hinv.
    - rewrite filter_cons_False, filter_nil, app_nil_r by done.
      rewrite Helse by done. apply Hinv. }
  destruct (m !! stream_of g) as [existing|] eqn:Hex.
  - destruct (PublishedAt existing <? PublishedAt g) eqn:Hlt.
    + apply IH, Hstep; [by rewrite lookup_insert_eq|].
      intros s Hs. by rewrite lookup_insert_ne.
    + apply IH, Hstep; [by rewrite Hex|done].
  - apply IH, Hstep; [by rewrite lookup_insert_eq|].
    intros s Hs. by rewrite lookup_insert_ne.
Qed.

Lemma elem_of_range {V : Type} (rt : Shuffle) (m : gmap string V) k v :
  (k, v) ∈ range rt m ↔ m !! k = Some v.
Proof. unfold range. by rewrite shuffle_perm, elem_of_map_to_list. Qed.

(** the releases the first loop keeps are the latest of their streams *)
Lemma latest_loop_kept (rt : Shuffle) l g :
  g ∈ (range rt (latest_loop l ∅)).*2 ↔ latest_of_its_stream l g.
Proof.
  pose proof (latest_loop_first l [] ∅) as Hinv.
  rewrite app_nil_l in Hinv.
  assert (Hinv' : ∀ s, first_latest (filter (λ g', stream_of g' = s) (published l))
                         (latest_loop l ∅ !! s)).
  { apply Hinv. intros s. by rewrite lookup_empty. }
  clear Hinv. unfold latest_of_its_stream. split.
  - intros ([s g'] & -> & Hin%elem_of_range)%list_elem_of_fmap. simpl.
    specialize (Hinv' s). rewrite Hin in Hinv'.
    assert (Hs : stream_of g' = s).
    { destruct Hinv' as (before & after & Heq & _).
      assert (Hg' : g' ∈ filter (λ g0, stream_of g0 = s) (published l)).
      { rewrite Heq. apply elem_of_app. right. by left. }
      by apply list_elem_of_filter in Hg' as [? _]. }
    by rewrite Hs.
  - intros Hg. specialize (Hinv' (stream_of g)).
    destruct (latest_loop l ∅ !! stream_of g) as [g'|] eqn:Hlookup.
    + rewrite (first_latest_unique _ _ _ Hg Hinv').
      apply list_elem_of_fmap. exists (stream_of g, g'). split; [done|].
      by apply elem_of_range.
    + simpl in Hinv'. destruct Hg as (before & after & Heq & _).
      rewrite Hinv' in Heq. by destruct before.
Qed.

(** the releases of the records: one for each release kept *)
Lemma os_apps_releases now kept :
  concat (map Releases (imap (λ i g, os_app (now i) g) kept))
  = map to_release kept.
Proof.
  assert (Heach : map Releases (imap (λ i g, os_app (now i) g) kept)
                  = map (λ g, [to_release g]) kept).
  { change (map ?f ?l) with (f <$> l). rewrite fmap_imap.
    rewrite <- (imap_const (λ g, [to_release g]) kept). by apply imap_ext. }
  rewrite Heach. clear Heach.
  induction kept as [|g kept IH]; [done|]. simpl. by rewrite IH.
Qed.

Lemma latest_of_its_stream_published l g :
  latest_of_its_stream l g → g ∈ published l.
Proof.
  intros (before & after & Heq & _).
  assert (Hg : g ∈ filter (λ g', stream_of g' = stream_of g) (published l)).
  { rewrite Heq. apply elem_of_app. right. by left. }
  by apply list_elem_of_filter in Hg as [_ ?].
Qed.

(** C9 (as amended). The fetchers of the GitHub release API drop every
    draft and every pre-release. On a successful answer,
    [FetchBluefinReleases] returns exactly the conversions of the releases
    whose draft and prerelease flags are both unset, in the order of the
    answer, each with its body rendered by [markdown.ToHTML].
    [FetchBluefinOSApps] does not convert every one of them: its records
    are built, in the order of the visit of the map, from the releases that
    are the latest of their stream (of the published releases of a stream,
    the first one with the latest publication date), one record for each,
    and the one release of a record is the conversion of that release. *)
Theorem C9_release_filter_amended
    (githubReleases : list GitHubRelease) (rt : Shuffle) (now : nat → Z) :
  let resp := Response StatusOK (Payload (Ok githubReleases)) in
  FetchBluefinReleases resp = Ok (map to_release (published githubReleases))
  ∧ Forall (λ r, ∃ g, g ∈ githubReleases
                      ∧ Draft g = false ∧ Prerelease g = false
                      ∧ r = to_release g
                      ∧ Description r = markdown_ToHTML (GH_Body g))
           (map to_release (published githubReleases))
  ∧ Forall (λ g, Draft g = true ∨ Prerelease g = true ∨
                 to_release g ∈ map to_release (published githubReleases))
           githubReleases
  ∧ ∃ kept apps,
      FetchBluefinOSApps rt now resp = Ok apps
      ∧ (∀ g, g ∈ kept
              ↔ g ∈ published githubReleases
                ∧ latest_of_its_stream githubReleases g)
      ∧ NoDup (map stream_of kept)
      ∧ apps = imap (λ i g, os_app (now i) g) kept
      ∧ map Releases apps = map (λ g, [to_release g]) kept
      ∧ Forall (λ g, Draft g = false ∧ Prerelease g = false
                     ∧ Description (to_release g) = markdown_ToHTML (GH_Body g))
               kept.
Proof.
  intros resp. split; [|split; [|split]].
  - unfold FetchBluefinReleases, resp. simpl.
    by rewrite releases_loop_spec.
  - apply Forall_forall. intros r (g & -> & Hg)%list_elem_of_fmap.
    apply list_elem_of_filter in Hg as [[Hd Hp] Hg]. by exists g.
  - apply Forall_forall. intros g Hg.
    destruct (Draft g) eqn:Hd; [by left|].
    destruct (Prerelease g) eqn:Hp; [by right; left|].
    right; right. apply list_elem_of_fmap. exists g. split; [done|].
    by apply list_elem_of_filter.
  - exists (range rt (latest_loop githubReleases ∅)).*2. eexists.
    split; [by rewrite FetchBluefinOSApps_kept|].
    destruct (range_latest rt githubReleases) as (Hnd & _ & Hall).
    split; [|split; [|split; [done|split]]].
    + intros g. rewrite latest_loop_kept. split; [|by intros [_ ?]].
      intros Hg. split; [|done]. by apply latest_of_its_stream_published.
    + replace (map stream_of (range rt (latest_loop githubReleases ∅)).*2)
        with (range rt (latest_loop githubReleases ∅)).*1; [done|].
      change (map stream_of ?l) with (stream_of <$> l).
      rewrite <- list_fmap_compose. apply Forall_fmap_ext_1.
      eapply Forall_impl; [exact Hall|]. by intros [s g] (Hst & _).
    + change (map ?f ?l) with (f <$> l). rewrite fmap_imap.
      rewrite <- (imap_const (λ g, [to_release g])). by apply imap_ext.
    + apply Forall_fmap. eapply Forall_impl; [exact Hall|].
      intros [s g] (_ & Hg & _). cbn [fst snd] in *.
      by apply list_elem_of_filter in Hg as [[Hd Hp] Hg].
Qed.

(** C10. On a successful answer, [FetchBluefinOSApps] emits exactly one
    App for each stream that occurs among the releases that are neither
    drafts nor pre-releases (the Apps have distinct identifiers, and
    [bluefin-os-s] is among them exactly when [s] is such a stream), and
    each App is built from a release whose [PublishedAt] is maximal within
    its stream. *)
Theorem C10_one_app_per_stream
    (githubReleases : list GitHubRelease) (rt : Shuffle) (now : nat → Z) :
  ∃ apps,
    FetchBluefinOSApps rt now (Response StatusOK (Payload (Ok githubReleases)))
      = Ok apps
    ∧ NoDup (map ID apps)
    ∧ (∀ s, s ∈ map stream_of (published githubReleases)
            ↔ "bluefin-os-" +:+ s ∈ map ID apps)
    ∧ Forall (λ app, ∃ g, g ∈ published githubReleases
                ∧ (∃ i, apps !! i = Some app ∧ app = os_app (now i) g)
                ∧ Forall (λ g', stream_of g' = stream_of g →
                                PublishedAt g' ≤ PublishedAt g)
                         (published githubReleases))
             apps.
Proof.
  eexists. split; [reflexivity|].
  rewrite apps_loop_spec, app_nil_l.
  destruct (range_latest rt githubReleases) as (Hnd & Hstreams & Hall).
  set (entries := range rt (latest_loop githubReleases ∅)) in *.
  set (apps := imap _ entries).
  assert (Hids : map ID apps = map (λ s, "bluefin-os-" +:+ s) entries.*1).
  { unfold apps. change (map ?f ?l) with (f <$> l).
    rewrite fmap_imap, <- list_fmap_compose.
    rewrite <- (imap_const (_ ∘ fst) entries). apply imap_ext.
    intros i [s g] Hi. apply list_elem_of_lookup_2 in Hi.
    rewrite Forall_forall in Hall. destruct (Hall _ Hi) as (Hst & _).
    unfold compose. cbn [fst snd] in *. by rewrite os_app_ID, Hst. }
  split; [|split].
  - rewrite Hids. apply NoDup_fmap_2; [|done].
    intros s1 s2. apply append_inj_r.
  - intros s. rewrite Hids, <- Hstreams. split.
    + intros Hs. apply list_elem_of_fmap. by exists s.
    + intros (s' & Heq & Hs')%list_elem_of_fmap.
      apply append_inj_r in Heq. by subst.
  - apply Forall_forall. intros app Happ.
    apply elem_of_lookup_imap in Happ as (i & [s g] & -> & Hi).
    rewrite Forall_forall in Hall.
    destruct (Hall _ (list_elem_of_lookup_2 _ _ _ Hi)) as (Hst & Hg & Hmax).
    cbn [fst snd] in *.
    exists g. split; [done|]. split.
    + exists i. split; [|done]. unfold apps.
      by rewrite list_lookup_imap, Hi.
    + apply Forall_forall. intros g' Hg' Hst'. by apply Hmax.
Qed.
End bluefin_os.

(** C9 is not true of [FetchBluefinOSApps]: of two published releases of
    one stream it converts the later one and leaves the other out. *)
Lemma C9_only_the_latest_of_a_stream_is_converted :
  let release tag published :=
    {| bluefin.TagName := tag; bluefin.GH_Name := tag; bluefin.GH_Body := "";
       bluefin.HTMLURL := ""; bluefin.PublishedAt := published;
       bluefin.Draft := false; bluefin.Prerelease := false |} in
  let newer := release "stable-20260203" 2 in
  let older := release "stable-20260127" 1 in
  let resp := Response StatusOK (Payload (Ok [newer; older])) in
  ∃ app,
    @bluefin.FetchBluefinOSApps plain_externals in_order (λ _, 0) resp = Ok [app]
    ∧ models.Releases app = [@bluefin.to_release plain_externals newer]
    ∧ published [newer; older] = [newer; older]
    ∧ ¬ ∃ (E : Externals) rt now,
          @every_published_converted E (@bluefin.FetchBluefinOSApps E rt now).
Proof.
  intros release newer older resp.
  eexists. split; [vm_compute; reflexivity|].
  split; [reflexivity|]. split; [reflexivity|].
  intros (E & rt & now & Hall).
  assert (Happs : bluefin.FetchBluefinOSApps rt now resp
                  = Ok (imap (λ i g, bluefin.os_app (now i) g)
                          (range rt (bluefin.latest_loop [newer; older] ∅)).*2))
    by (by rewrite FetchBluefinOSApps_kept).
  assert (Holder : older ∈ published [newer; older]).
  { change (older ∈ [newer; older]). right. by left. }
  specialize (Hall [newer; older] _ older Happs Holder).
  rewrite os_apps_releases in Hall.
  apply list_elem_of_fmap in Hall as (g & Heq & Hg%latest_loop_kept).
  pose proof (latest_of_its_stream_published _ _ Hg) as Hin.
  change (g ∈ [newer; older]) in Hin.
  apply elem_of_cons in Hin as [->|Hin%list_elem_of_singleton].
  { apply (f_equal models.Version) in Heq. discriminate Heq. }
  subst g. destruct Hg as (before & after & Hlist & Hbefore & _).
  change ([newer; older] = before ++ older :: after) in Hlist.
  destruct before as [|x [|y before]]; simpl in Hlist.
  - by injection Hlist.
  - injection Hlist as <- _.
    specialize (Hbefore newer ltac:(by left)). simpl in Hbefore. lia.
  - injection Hlist as _ Hlist. by destruct before.
Qed.

(** ** Errors of the source adapters *)
Section adapter_errors.
Import models flathub bluefin.
Context `{!Externals}.

Lemma unexpected_status_not_rate_limit StatusCode :
  unexpected_status StatusCode ≠ rate_limit_error.
Proof. unfold unexpected_status, rate_limit_error. simpl. by intros [=]. Qed.

Lemma rate_limit_not_generic : ¬ generic_status_error rate_limit_error.
Proof.
  intros [StatusCode Heq]. symmetry in Heq.
  by apply unexpected_status_not_rate_limit in Heq.
Qed.

(** [fetchRawFile] returns the rate-limit error for a 403 and for nothing
    else *)
Lemma fetchRawFile_rate_limit path resp :
  fetchRawFile path resp = Err rate_limit_error
  ↔ ∃ body, resp = Response StatusForbidden body.
Proof.
  split.
  - destruct resp as [err|err|StatusCode body]; simpl; [by intros [=]..|].
    destruct (StatusCode =? StatusNotFound) eqn:H404; [by intros [=]|].
    destruct (StatusCode =? StatusForbidden) eqn:H403.
    + intros _. apply Z.eqb_eq in H403 as ->. by exists body.
    + destruct (negb (StatusCode =? StatusOK)).
      * by intros [=].
      * by destruct body; intros [=].
  - by intros [body ->].
Qed.

(** so do the fetchers of the GitHub release API *)
Lemma fetch_github_releases_rate_limit resp :
  fetch_github_releases resp = Err rate_limit_error
  ↔ ∃ body, resp = Response StatusForbidden body.
Proof.
  split.
  - destruct resp as [err|err|StatusCode body]; simpl; [by intros [=]..|].
    destruct (StatusCode =? StatusForbidden) eqn:H403.
    + intros _. apply Z.eqb_eq in H403 as ->. by exists body.
    + destruct (negb (StatusCode =? StatusOK)).
      * by intros [=].
      * by destruct body as [|[]]; intros [=].
  - by intros [body ->].
Qed.

Lemma flatpak_loop_spec raw brewfiles acc :
  flatpak_loop raw brewfiles acc
  = acc ++ concat (map (flatpak_contribution raw) brewfiles).
Proof.
  revert acc. induction brewfiles as [|[brewfile appSet] l IH]; intros acc.
  - simpl. by rewrite app_nil_r.
  - simpl. unfold flatpak_contribution at 1. simpl.
    destruct (fetchRawFile brewfile (raw (raw_url brewfile))); rewrite IH.
    + by rewrite <- app_assoc.
    + done.
Qed.

Lemma homebrew_list_loop_spec raw brewfiles acc :
  homebrew_list_loop raw brewfiles acc
  = acc ++ concat (map (homebrew_contribution raw) brewfiles).
Proof.
  revert acc. induction brewfiles as [|brewfile l IH]; intros acc.
  - simpl. by rewrite app_nil_r.
  - simpl. unfold homebrew_contribution at 1.
    destruct (fetchRawFile brewfile (raw (raw_url brewfile))); rewrite IH.
    + by rewrite <- app_assoc.
    + done.
Qed.

Lemma appsToFetch_take (flathubApps : list FlathubApp) :
  (if (50 <? length flathubApps)%nat then take 50 flathubApps else flathubApps)
  = take 50 flathubApps.
Proof.
  destruct (50 <? length flathubApps)%nat eqn:Hlen; [done|].
  apply Nat.ltb_ge in Hlen. by rewrite take_ge.
Qed.

Lemma enrichApp_ID now rt fa resp :
  ID (enrichApp now rt fa resp) = FlathubApp_ID fa.
Proof. unfold enrichApp. by destruct (FetchAppDetails resp) as [[d|]|]. Qed.

(** with a feed in hand [FetchAllApps] returns one record per entry of the
    feed (of its first 50), whatever the detail requests answer *)
Lemma FetchAllApps_returns w flathubApps :
  FetchRecentlyUpdated (feed w) = Ok flathubApps →
  ∃ res, FetchAllApps w = Returns res
    ∧ Apps res ≡ₚ imap (λ i fa, enrichApp (clock w i) (rt w i) fa
                                  (appstream w (FlathubApp_ID fa)))
                       (take 50 flathubApps)
    ∧ map ID (Apps res) ≡ₚ map FlathubApp_ID (take 50 flathubApps).
Proof.
  intros Hfeed. unfold FetchAllApps. rewrite Hfeed, appsToFetch_take.
  eexists. split; [reflexivity|]. simpl.
  split; [apply shuffle_perm|].
  rewrite shuffle_perm.
  change (map ID ?l) with (ID <$> l). rewrite fmap_imap.
  erewrite imap_ext; [by rewrite imap_const|].
  intros i fa _. simpl. apply enrichApp_ID.
Qed.

(** C7 (as amended). A 404 is answered without an error by
    [FetchAppDetails], which returns (nil, nil), and by
    [fetchHomebrewPackageMetadata], which returns a minimal record;
    [fetchRawFile] answers it with the error [file not found (404)]. In each
    case the caller goes on: the Brewfile loops skip the file and read the
    other ones, and [FetchAllApps] still emits one record for every entry
    of the feed, the one whose details are not found being the bare entry. *)
Theorem C7_not_found_amended :
  not_found_is_empty FetchAppDetails None
  ∧ (∀ now name body,
       fetchHomebrewPackageMetadata now name (Response StatusNotFound body)
       = Ok (Some (createMinimalHomebrewApp now name)))
  ∧ (∀ path body,
       fetchRawFile path (Response StatusNotFound body)
       = Err (errorString ("file not found (404): " +:+ path)))
  ∧ (∀ raw brewfiles,
       flatpak_loop raw brewfiles []
       = concat (map (flatpak_contribution raw) brewfiles))
  ∧ (∀ raw brewfiles,
       homebrew_list_loop raw brewfiles []
       = concat (map (homebrew_contribution raw) brewfiles))
  ∧ (∀ raw entry body,
       raw (raw_url entry.1) = Response StatusNotFound body →
       flatpak_contribution raw entry = []
       ∧ homebrew_contribution raw entry.1 = [])
  ∧ (∀ flathubApps appstream clock rt sched,
       ∃ res,
         FetchAllApps {| feed := Response StatusOK (Payload (Ok flathubApps));
                         flathub.appstream := appstream;
                         flathub.clock := clock;
                         flathub.rt := rt;
                         flathub.sched := sched |} = Returns res
         ∧ map ID (Apps res) ≡ₚ map FlathubApp_ID (take 50 flathubApps))
  ∧ (∀ now rt fa body,
       let app := enrichApp now rt fa (Response StatusNotFound body) in
       ID app = FlathubApp_ID fa ∧ Releases app = []
       ∧ AppSourceRepo app = None ∧ AppDescription app = "").
Proof.
  split; [done|]. split.
  { intros now name body. unfold fetchHomebrewPackageMetadata.
    by destruct (strings.Contains name "/"). }
  split; [done|]. split.
  { intros raw brewfiles. by rewrite flatpak_loop_spec. }
  split.
  { intros raw brewfiles. by rewrite homebrew_list_loop_spec. }
  split.
  { intros raw entry body Hraw.
    unfold flatpak_contribution, homebrew_contribution. by rewrite Hraw. }
  split.
  { intros flathubApps appstream clock rt sched.
    edestruct FetchAllApps_returns as (res & Hres & _ & Hids); [|by exists res].
    done. }
  done.
Qed.

(** C7 is not true of [fetchRawFile]: a 404 comes back as an error. *)
Lemma C7_fetchRawFile_404_is_an_error :
  fetchRawFile "cli.Brewfile" (Response StatusNotFound (Payload ""))
  = Err (errorString "file not found (404): cli.Brewfile")
  ∧ ¬ ∃ empty, not_found_is_empty (fetchRawFile "cli.Brewfile") empty.
Proof.
  split; [reflexivity|].
  intros [empty Hempty]. specialize (Hempty (Payload "")). done.
Qed.

(** C8 (as amended). [fetchRawFile] and the fetchers of the GitHub release
    API return the dedicated error [rate limit exceeded (403)] for a 403 and
    for no other answer, and that error is not the generic one. A 429 from
    these adapters, and a 403 or a 429 from [FetchAppDetails], come back as
    the generic error [unexpected status code: N]. *)
Theorem C8_rate_limit_amended :
  (∀ path resp,
     fetchRawFile path resp = Err rate_limit_error
     ↔ ∃ body, resp = Response StatusForbidden body)
  ∧ (∀ resp,
       fetch_github_releases resp = Err rate_limit_error
       ↔ ∃ body, resp = Response StatusForbidden body)
  ∧ (∀ resp,
       FetchBluefinReleases resp = Err rate_limit_error
       ↔ ∃ body, resp = Response StatusForbidden body)
  ∧ (∀ rt now resp,
       FetchBluefinOSApps rt now resp = Err rate_limit_error
       ↔ ∃ body, resp = Response StatusForbidden body)
  ∧ ¬ generic_status_error rate_limit_error
  ∧ (∀ path body,
       fetchRawFile path (Response StatusTooManyRequests body)
       = Err (unexpected_status StatusTooManyRequests))
  ∧ (∀ body,
       fetch_github_releases (Response StatusTooManyRequests body)
       = Err (unexpected_status StatusTooManyRequests))
  ∧ (∀ body,
       FetchAppDetails (Response StatusForbidden body)
       = Err (unexpected_status StatusForbidden))
  ∧ (∀ body,
       FetchAppDetails (Response StatusTooManyRequests body)
       = Err (unexpected_status StatusTooManyRequests)).
Proof.
  split; [apply fetchRawFile_rate_limit|].
  split; [apply fetch_github_releases_rate_limit|].
  split.
  { intros resp. rewrite <- fetch_github_releases_rate_limit.
    unfold FetchBluefinReleases.
    destruct (fetch_github_releases resp); split; congruence. }
  split.
  { intros rt now resp. rewrite <- fetch_github_releases_rate_limit.
    unfold FetchBluefinOSApps.
    destruct (fetch_github_releases resp); split; congruence. }
  split; [apply rate_limit_not_generic|].
  done.
Qed.

(** C8 is not true of [FetchAppDetails] (403 and 429 are generic errors)
    nor of [fetchRawFile] (429 is). *)
Lemma C8_rate_limit_not_distinguished :
  FetchAppDetails (Response StatusForbidden (Payload (Err (errorString ""))))
  = Err (errorString "unexpected status code: 403")
  ∧ ¬ distinguishes_rate_limit FetchAppDetails
  ∧ ¬ distinguishes_rate_limit (fetchRawFile "cli.Brewfile").
Proof.
  split; [reflexivity|]. split.
  - intros Hd.
    destruct (Hd StatusForbidden (Payload (Err (errorString ""))))
      as (e & He & Hgen); [by left|].
    apply Hgen. exists StatusForbidden. by injection He as <-.
  - intros Hd.
    destruct (Hd StatusTooManyRequests (Payload "")) as (e & He & Hgen);
      [by right|].
    apply Hgen. exists StatusTooManyRequests. by injection He as <-.
Qed.

(** C6 (as amended). In [FetchFlatpakListWithAppSets] and
    [FetchHomebrewList] a Brewfile whose fetch returns an error adds no
    identifier, the other Brewfiles are still fetched and parsed, and the
    function returns without an error whatever the answers. In
    [FetchAllApps] the feed is the one source of identifiers, and an error
    of its fetch ends the run through [log.Fatalf]. *)
Theorem C6_discovery_failure_amended :
  (∀ rt raw,
     FetchFlatpakListWithAppSets rt raw
     = Ok (concat (map (flatpak_contribution raw) (range rt flatpak_brewfiles))))
  ∧ (∀ raw,
       FetchHomebrewList raw
       = Ok (deduplicate
               (concat (map (homebrew_contribution raw) homebrew_brewfiles))))
  ∧ (∀ raw entry e,
       fetchRawFile entry.1 (raw (raw_url entry.1)) = Err e →
       flatpak_contribution raw entry = []
       ∧ homebrew_contribution raw entry.1 = [])
  ∧ (∀ raw entry content,
       fetchRawFile entry.1 (raw (raw_url entry.1)) = Ok content →
       flatpak_contribution raw entry
       = map (λ appID, {| AppID := appID; AppSet := entry.2 |})
             (parseFlatpakBrewfile content)
       ∧ homebrew_contribution raw entry.1 = parseHomebrewBrewfile content)
  ∧ (∀ w,
       match FetchRecentlyUpdated (feed w) with
       | Err err => FetchAllApps w = Fatal ("Failed to fetch apps: " +:+ Error err)
       | Ok _ => ∃ res, FetchAllApps w = Returns res
       end).
Proof.
  split.
  { intros rt raw. unfold FetchFlatpakListWithAppSets.
    by rewrite flatpak_loop_spec. }
  split.
  { intros raw. unfold FetchHomebrewList. by rewrite homebrew_list_loop_spec. }
  split.
  { intros raw entry e He. unfold flatpak_contribution, homebrew_contribution.
    by rewrite He. }
  split.
  { intros raw entry content He.
    unfold flatpak_contribution, homebrew_contribution. by rewrite He. }
  intros w. destruct (FetchRecentlyUpdated (feed w)) as [apps|err] eqn:Hfeed.
  - destruct (FetchAllApps_returns w apps Hfeed) as (res & Hres & _).
    by exists res.
  - unfold FetchAllApps. by rewrite Hfeed.
Qed.
End adapter_errors.

(** C6 is not true of [FetchAllApps]: when the feed cannot be fetched the
    run ends there. *)
Lemma C6_feed_failure_is_fatal :
  let w := {| flathub.feed := TransportError (errorString "dial tcp: i/o timeout");
              flathub.appstream := λ _, TransportError (errorString "");
              flathub.clock := λ _ _, 0;
              flathub.rt := λ _, in_order;
              flathub.sched := in_order |} in
  @flathub.FetchAllApps plain_externals w
  = Fatal "Failed to fetch apps: fetch recently updated: dial tcp: i/o timeout"
  ∧ ¬ ∃ E : Externals, @never_aborts E.
Proof.
  intros w. split; [reflexivity|].
  intros [E Hnever]. by destruct (Hnever w) as [res Hres].
Qed.

(** ** The dataset writer *)
Section writer.
Import models.
Variable json_Marshal : OutputData → result string.

Lemma take_all (s : string) : strings.take (String.length s) s = s.
Proof. induction s as [|c s IH]; simpl; [done|]. by rewrite IH. Qed.

(** a write the device has no room for: the first [room d] bytes arrive *)
Lemma file_Write_short file buf d :
  (room d < String.length buf)%nat →
  file_Write file buf d
  = ({| files := <[file := default "" (files d !! file)
                            +:+ strings.take (room d) buf]> (files d);
        create_error := create_error d;
        room := 0;
        write_error := write_error d |}, Some (write_error d)).
Proof.
  intros Hroom. unfold file_Write.
  rewrite (Nat.min_r (String.length buf) (room d)) by lia.
  rewrite Nat.sub_diag.
  by rewrite (proj2 (Nat.ltb_lt _ _) Hroom).
Qed.

(** a write the device has room for *)
Lemma file_Write_whole file buf d :
  (String.length buf ≤ room d)%nat →
  file_Write file buf d
  = ({| files := <[file := default "" (files d !! file) +:+ buf]> (files d);
        create_error := create_error d;
        room := room d - String.length buf;
        write_error := write_error d |}, None).
Proof.
  intros Hroom. unfold file_Write.
  rewrite (Nat.min_l (String.length buf) (room d)) by lia.
  by rewrite Nat.ltb_irrefl, take_all.
Qed.

(** C1 (as amended). When [WriteJSON] fails at [os.Create], the disk is as
    it was. Past that point the destination has been emptied: when the
    document cannot be marshalled the file stays empty, when the device
    takes only part of the document the file holds that part, and in both
    cases [WriteJSON] returns an error; otherwise the file holds the whole
    document and no error is returned. No other file is touched. *)
Theorem C1_write_amended (o : OutputData) (path : string) (d : Disk) :
  match create_error d path with
  | Some e => WriteJSON json_Marshal o path d = (d, Some (Errorf_w "create file" e))
  | None =>
      ∃ d' err, WriteJSON json_Marshal o path d = (d', err)
        ∧ (∀ p, p ≠ path → files d' !! p = files d !! p)
        ∧ match json_Marshal o with
          | Err e =>
              files d' !! path = Some "" ∧ err = Some (Errorf_w "encode JSON" e)
          | Ok doc =>
              let buf := doc +:+ String (ascii_of_nat 10) "" in
              if (room d <? String.length buf)%nat
              then files d' !! path = Some (strings.take (room d) buf)
                   ∧ err = Some (Errorf_w "encode JSON" (write_error d))
              else files d' !! path = Some buf ∧ err = None
          end
  end.
Proof.
  unfold WriteJSON, os_Create, Encode.
  destruct (create_error d path) as [e|] eqn:Hcreate; [done|].
  destruct (json_Marshal o) as [doc|e] eqn:Hdoc.
  - set (buf := doc +:+ String (ascii_of_nat 10) "").
    destruct (room d <? String.length buf)%nat eqn:Hroom.
    + apply Nat.ltb_lt in Hroom.
      rewrite file_Write_short by (cbn [room]; lia).
      eexists _, _. split; [reflexivity|]. cbn [files room write_error].
      split; [intros p Hp; by rewrite !lookup_insert_ne|].
      by rewrite !lookup_insert_eq.
    + apply Nat.ltb_ge in Hroom.
      rewrite file_Write_whole by (cbn [room]; lia).
      eexists _, _. split; [reflexivity|]. cbn [files room write_error].
      split; [intros p Hp; by rewrite !lookup_insert_ne|].
      by rewrite !lookup_insert_eq.
  - eexists _, _. split; [reflexivity|]. cbn [files].
    split; [intros p Hp; by rewrite lookup_insert_ne|].
    by rewrite lookup_insert_eq.
Qed.
End writer.

(** C1 is not true of [WriteJSON]: a write that fails for want of room
    leaves the first bytes of the new document where the previous dataset
    was. *)
Lemma C1_failed_write_truncates :
  let o := {| models.OutputMetadata :=
                {| models.SchemaVersion := "1.0.0"; models.GeneratedAt := "";
                   models.GeneratedBy := ""; models.BuildDuration := "";
                   models.MetaStats := models.Build_Stats 0 0 0 0;
                   models.MetaPerformance := models.Build_Performance "" "" "" "" |};
              models.OutputApps := [] |} in
  let d := {| models.files := {[ "src/data/apps.json" := "previous dataset" ]};
              models.create_error := λ _, None;
              models.room := 1;
              models.write_error := errorString "no space left on device" |} in
  let marshal := λ _ : models.OutputData, Ok "{}" in
  (∃ d' err,
     models.WriteJSON marshal o "src/data/apps.json" d = (d', Some err)
     ∧ models.files d !! "src/data/apps.json" = Some "previous dataset"
     ∧ models.files d' !! "src/data/apps.json" = Some "{")
  ∧ ¬ write_is_atomic marshal.
Proof.
  intros o d marshal. split.
  - eexists _, _. split; [reflexivity|]. done.
  - intros Hatomic.
    specialize (Hatomic o "src/data/apps.json" d _ _ eq_refl). done.
Qed.

(** ** What two runs on the same answers have in common *)
Section determinism.
Import models flathub.
Context `{!Externals}.

Lemma Permutation_short {A : Type} (l1 l2 : list A) :
  l1 ≡ₚ l2 → (length l2 ≤ 1)%nat → l1 = l2.
Proof.
  intros Hperm Hlen. destruct l2 as [|x [|y l2]]; simpl in Hlen.
  - by apply Permutation_nil_r.
  - by apply Permutation_singleton_r.
  - lia.
Qed.

Lemma range_short {V : Type} (rt1 rt2 : Shuffle) (m : gmap string V) :
  (size m ≤ 1)%nat → range rt1 m = range rt2 m.
Proof.
  intros Hsize. unfold range.
  assert (Hlen : (length (map_to_list m) ≤ 1)%nat)
    by by rewrite length_map_to_list.
  rewrite (Permutation_short _ _ (shuffle_perm rt1 _ _) Hlen).
  by rewrite (Permutation_short _ _ (shuffle_perm rt2 _ _) Hlen).
Qed.

Lemma ExtractSourceRepo_forced rt1 rt2 details urls :
  URLs details = Some urls → choice_forced urls →
  ExtractSourceRepo rt1 (Some details) = ExtractSourceRepo rt2 (Some details).
Proof.
  intros Hurls Hforced. unfold ExtractSourceRepo. rewrite Hurls.
  destruct (urls !! "homepage") as [homepage|] eqn:Hhome; [done|].
  destruct (urls !! "bugtracker") as [bugtracker|] eqn:Hbug; [done|].
  destruct Hforced as [[x Hx]|[[x Hx]|Hsize]]; [congruence|congruence|].
  by rewrite (range_short rt1 rt2 urls Hsize).
Qed.

(** C2 (as amended). [ExtractSourceRepo] selects the same repository in
    every run when the URL map has a homepage or a bugtracker entry, or at
    most one entry, or is nil. For fixed answers of the upstreams, fixed
    clock readings and a fixed order of map visits, two runs of
    [FetchAllApps] emit the same records, in an order that is the one in
    which the goroutines finished. *)
Theorem C2_determinism_amended :
  (∀ rt1 rt2 details,
     match URLs details with
     | Some urls => choice_forced urls
     | None => True
     end →
     ExtractSourceRepo rt1 (Some details) = ExtractSourceRepo rt2 (Some details))
  ∧ (∀ rt1 rt2, ExtractSourceRepo rt1 None = ExtractSourceRepo rt2 None)
  ∧ (∀ feed appstream clock rt sched1 sched2,
       same_records
         (FetchAllApps {| flathub.feed := feed; flathub.appstream := appstream;
                          flathub.clock := clock; flathub.rt := rt;
                          flathub.sched := sched1 |})
         (FetchAllApps {| flathub.feed := feed; flathub.appstream := appstream;
                          flathub.clock := clock; flathub.rt := rt;
                          flathub.sched := sched2 |})).
Proof.
  split; [|split; [done|]].
  - intros rt1 rt2 details Hforced.
    destruct (URLs details) as [urls|] eqn:Hurls.
    + by eapply ExtractSourceRepo_forced.
    + unfold ExtractSourceRepo. by rewrite Hurls.
  - intros feed appstream clock rt sched1 sched2.
    unfold same_records, FetchAllApps. cbn [flathub.feed].
    destruct (FetchRecentlyUpdated feed) as [flathubApps|err]; [|done].
    cbn [Apps flathub.sched]. by rewrite !shuffle_perm.
Qed.
End determinism.

(** C2 is not true of the pipeline. With a URL map that has neither a
    homepage nor a bugtracker entry, the repository [ExtractSourceRepo]
    selects is the one the runtime visits first; and the order of the
    records [FetchAllApps] emits is the order in which the goroutines
    finished. *)
Lemma C2_runs_differ :
  let details :=
    Some {| models.Details_ID := "org.example.App";
            models.Details_Name := "App";
            models.Details_Summary := "";
            models.Details_Description := "";
            models.URLs :=
              Some (<["donation" := "https://gitlab.com/example/app"]>
                      (<["help" := "https://example.org/help"]> ∅));
            models.Details_Releases := [] |} in
  let entry id :=
    {| models.FlathubApp_ID := id; models.FlathubApp_Name := id;
       models.FlathubApp_Summary := ""; models.FlathubApp_DeveloperName := "";
       models.FlathubApp_Icon := ""; models.FlathubApp_ProjectLicense := "";
       models.FlathubApp_Categories := []; models.CurrentReleaseVersion := "";
       models.CurrentReleaseDate := "" |} in
  let world sched :=
    {| flathub.feed :=
         Response StatusOK
           (Payload (Ok [entry "org.example.A"; entry "org.example.B"]));
       flathub.appstream :=
         λ _, Response StatusNotFound (Payload (Err (errorString "")));
       flathub.clock := λ _ _, 0;
       flathub.rt := λ _, in_order;
       flathub.sched := sched |} in
  let ids r :=
    match r with
    | Returns res => map models.ID (models.Apps res)
    | Fatal _ => []
    end in
  flathub.ExtractSourceRepo in_order details
    = Some {| models.Type_ := "gitlab";
              models.URL := "https://gitlab.com/example/app";
              models.Owner := ""; models.Repo := "" |}
  ∧ flathub.ExtractSourceRepo reversed details
    = Some {| models.Type_ := "other";
              models.URL := "https://example.org/help";
              models.Owner := ""; models.Repo := "" |}
  ∧ ids (@flathub.FetchAllApps plain_externals (world in_order))
    = ["org.example.A"; "org.example.B"]
  ∧ ids (@flathub.FetchAllApps plain_externals (world reversed))
    = ["org.example.B"; "org.example.A"]
  ∧ ¬ selection_is_stable
  ∧ ¬ ∃ E : Externals, @order_is_stable E.
Proof.
  intros details entry world ids.
  split; [vm_compute; reflexivity|]. split; [vm_compute; reflexivity|].
  split; [vm_compute; reflexivity|]. split; [vm_compute; reflexivity|].
  split.
  - intros Hstable. specialize (Hstable in_order reversed details).
    vm_compute in Hstable. discriminate Hstable.
  - intros [E Hstable].
    specialize (Hstable (flathub.feed (world in_order))
                  (flathub.appstream (world in_order)) (λ _ _, 0)
                  (λ _, in_order) in_order reversed).
    apply (f_equal ids) in Hstable. vm_compute in Hstable.
    discriminate Hstable.
Qed.

(** ** Deduplication *)
Section dedup.
Context {A K : Type} `{Countable K} (key : A → K).

Lemma dedup_by_sublist l seen : sublist (dedup_by key l seen) l.
Proof.
  revert seen. induction l as [|x l IH]; intros seen; simpl.
  - constructor.
  - destruct (decide (key x ∈ seen)).
    + apply sublist_cons, IH.
    + apply sublist_skip, IH.
Qed.

Lemma dedup_by_fresh l seen x :
  x ∈ dedup_by key l seen → key x ∉ seen.
Proof.
  revert seen. induction l as [|y l IH]; intros seen; simpl.
  - by intros ?%elem_of_nil.
  - destruct (decide (key y ∈ seen)); [by apply IH|].
    intros [->|Hx]%elem_of_cons; [done|].
    apply IH in Hx. intros Hs. apply Hx. apply elem_of_union. by right.
Qed.

Lemma dedup_by_NoDup l seen : NoDup (map key (dedup_by key l seen)).
Proof.
  revert seen. induction l as [|x l IH]; intros seen; simpl.
  - constructor.
  - destruct (decide (key x ∈ seen)); [by apply IH|].
    simpl. constructor; [|by apply IH].
    intros (y & Hkey & Hy)%list_elem_of_fmap.
    apply dedup_by_fresh in Hy. apply Hy. rewrite <- Hkey.
    apply elem_of_union. left. by apply elem_of_singleton.
Qed.

Lemma dedup_by_complete l seen x :
  x ∈ l → key x ∉ seen → key x ∈ map key (dedup_by key l seen).
Proof.
  revert seen. induction l as [|y l IH]; intros seen; simpl.
  - by intros ?%elem_of_nil.
  - intros [->|Hx]%elem_of_cons Hfresh.
    + destruct (decide (key y ∈ seen)); [done|]. simpl. by left.
    + destruct (decide (key y ∈ seen)); [by apply IH|].
      simpl. destruct (decide (key x = key y)) as [->|Hne]; [by left|].
      right. apply IH; [done|].
      intros [Hs%elem_of_singleton|Hs]%elem_of_union; done.
Qed.

Lemma dedup_by_elem_of l seen x : x ∈ dedup_by key l seen → x ∈ l.
Proof. intros Hx. eapply elem_of_sublist; [done|]. apply dedup_by_sublist. Qed.
End dedup.

Section dedup_loops.
Import models bluefin enrichment.

Lemma deduplicate_loop_spec items seen result :
  deduplicate_loop items seen result = result ++ dedup_by id items seen.
Proof.
  revert seen result. induction items as [|item items IH]; intros seen result.
  - simpl. by rewrite app_nil_r.
  - simpl. change (id item) with item. destruct (decide (item ∈ seen)); rewrite IH.
    + done.
    + by rewrite <- app_assoc.
Qed.

Lemma dedup_loop_spec releases seen result :
  dedup_loop releases seen result
  = result ++ dedup_by release_key releases seen.
Proof.
  revert seen result. induction releases as [|r l IH]; intros seen result.
  - simpl. by rewrite app_nil_r.
  - simpl. destruct (decide (release_key r ∈ seen)); rewrite IH.
    + done.
    + by rewrite <- app_assoc.
Qed.

(** [deduplicate] keeps each string once, in the order of first occurrence *)
Lemma deduplicate_spec items :
  NoDup (deduplicate items)
  ∧ (∀ x, x ∈ deduplicate items ↔ x ∈ items)
  ∧ sublist (deduplicate items) items.
Proof.
  unfold deduplicate. rewrite deduplicate_loop_spec, app_nil_l.
  split; [|split].
  - pose proof (dedup_by_NoDup (A:=string) id items ∅) as Hnd.
    by rewrite map_id in Hnd.
  - intros x. split; [apply dedup_by_elem_of|].
    intros Hx.
    pose proof (dedup_by_complete (A:=string) id items ∅ x Hx) as Hin.
    rewrite map_id in Hin. apply Hin. apply not_elem_of_empty.
  - apply dedup_by_sublist.
Qed.
End dedup_loops.

(** ** Identifiers in the emitted collection *)
Section identifiers.
Import models flathub bluefin.
Context `{!Externals}.

Lemma elem_of_concat_map {X Y : Type} (f : X → list Y) (l : list X) (y : Y) :
  y ∈ concat (map f l) ↔ ∃ x, x ∈ l ∧ y ∈ f x.
Proof.
  induction l as [|x l IH]; simpl.
  - split; [by intros ?%elem_of_nil|]. by intros (x & ?%elem_of_nil & _).
  - rewrite elem_of_app, IH. split.
    + intros [Hy|(x' & Hx' & Hy)].
      * exists x. split; [by left|done].
      * exists x'. split; [by right|done].
    + intros (x' & [->|Hx']%elem_of_cons & Hy); [by left|].
      right. by exists x'.
Qed.

Lemma length_omap_le {X Y : Type} (f : X → option Y) (l : list X) :
  (length (omap f l) ≤ length l)%nat.
Proof.
  induction l as [|x l IH]; [done|].
  change (omap f (x :: l))
    with (match f x with Some y => y :: omap f l | None => omap f l end).
  destruct (f x); simpl; lia.
Qed.

(** C3 (as amended). Discovery makes package names unique, not record
    identifiers. A name listed in one or more Brewfiles is returned once by
    [FetchHomebrewList], and [FetchHomebrewPackages] emits, in the order in
    which the goroutines finish, at most one record for each name of that
    list. The records of [FetchAllApps] are, up to order, one for each of
    the first 50 entries of the feed, with the identifier of its entry, so
    that the identifiers are distinct exactly when those of the entries are.
    No step merges two records that have the same identifier. *)
Theorem C3_identifiers_amended :
  (∀ raw, ∃ names,
     FetchHomebrewList raw = Ok names
     ∧ NoDup names
     ∧ ∀ name, name ∈ names
               ↔ ∃ brewfile, brewfile ∈ homebrew_brewfiles
                             ∧ name ∈ homebrew_contribution raw brewfile)
  ∧ (∀ w, ∃ names apps,
       FetchHomebrewList (raw w) = Ok names
       ∧ FetchHomebrewPackages w = Ok apps
       ∧ apps ≡ₚ omap id (imap (homebrew_worker w) names)
       ∧ (length apps ≤ length names)%nat)
  ∧ (∀ flathubApps appstream clock rt sched, ∃ res,
       FetchAllApps {| feed := Response StatusOK (Payload (Ok flathubApps));
                       flathub.appstream := appstream;
                       flathub.clock := clock;
                       flathub.rt := rt;
                       flathub.sched := sched |} = Returns res
       ∧ map ID (Apps res) ≡ₚ map FlathubApp_ID (take 50 flathubApps)
       ∧ (NoDup (map ID (Apps res))
          ↔ NoDup (map FlathubApp_ID (take 50 flathubApps)))).
Proof.
  split; [|split].
  - intros raw. unfold FetchHomebrewList.
    rewrite homebrew_list_loop_spec, app_nil_l.
    set (listed := concat (map (homebrew_contribution raw) homebrew_brewfiles)).
    destruct (deduplicate_spec listed) as (Hnd & Hin & _).
    eexists. split; [reflexivity|]. split; [done|].
    intros name. rewrite Hin. apply elem_of_concat_map.
  - intros w. unfold FetchHomebrewPackages, FetchHomebrewList.
    set (names := deduplicate _).
    exists names. eexists. split; [done|]. split; [reflexivity|].
    split; [apply shuffle_perm|].
    rewrite shuffle_perm.
    etrans; [apply length_omap_le|]. by rewrite length_imap.
  - intros flathubApps appstream clock rt sched.
    match goal with |- ∃ res, FetchAllApps ?w0 = _ ∧ _ => set (w := w0) end.
    destruct (FetchAllApps_returns w flathubApps) as (res & Hres & _ & Hids);
      [done|].
    exists res. split; [done|]. split; [done|]. by rewrite Hids.
Qed.
End identifiers.

(** C3 is not true of [FetchHomebrewPackages]: two names of two Brewfiles
    that are given the same identifier yield two records with it. *)
Lemma C3_two_records_one_identifier :
  let cli := "system_files/shared/usr/share/ublue-os/homebrew/cli.Brewfile" in
  let ai := "system_files/shared/usr/share/ublue-os/homebrew/ai-tools.Brewfile" in
  let w :=
    {| bluefin.raw := λ url,
         if String.eqb url (bluefin.raw_url cli)
         then Response StatusOK (Payload ("brew " +:+ quoted "tap/tool"))
         else if String.eqb url (bluefin.raw_url ai)
         then Response StatusOK (Payload ("brew " +:+ quoted "tap-tool"))
         else Response StatusNotFound (Payload "");
       bluefin.formulae :=
         λ _, Response StatusNotFound (Payload (Err (errorString "")));
       bluefin.brew_clock := λ _, 0;
       bluefin.brew_sched := in_order |} in
  (∃ apps,
     bluefin.FetchHomebrewPackages w = Ok apps
     ∧ map models.ID apps = ["homebrew-tap-tool"; "homebrew-tap-tool"])
  ∧ ¬ identifiers_unique.
Proof.
  intros cli ai w.
  assert (Hrun : ∃ apps,
            bluefin.FetchHomebrewPackages w = Ok apps
            ∧ map models.ID apps = ["homebrew-tap-tool"; "homebrew-tap-tool"]).
  { eexists. split; [vm_compute; reflexivity|]. vm_compute. reflexivity. }
  split; [exact Hrun|].
  intros Hunique. destruct Hrun as (apps & Hrun & Hids).
  specialize (Hunique w apps Hrun). rewrite Hids in Hunique.
  apply NoDup_cons in Hunique as [Hnotin _]. apply Hnotin. by left.
Qed.

(** ** Release lists *)
Section release_lists.
Import models flathub mozilla enrichment.
Context `{!Externals}.

Lemma convert_loop_spec now releases result :
  convert_loop now releases result
  = result ++ imap (λ i, convert_entry (now (length result + i)%nat)) releases.
Proof.
  revert result. induction releases as [|e l IH]; intros result; simpl.
  - by rewrite app_nil_r.
  - rewrite IH, <- app_assoc, length_app. simpl.
    rewrite Nat.add_0_r. do 2 f_equal.
    apply imap_ext. intros i e' _. simpl. do 2 f_equal. lia.
Qed.

Lemma ConvertFlathubReleases_imap now entries :
  ConvertFlathubReleases now entries
  = imap (λ i, convert_entry (now i)) entries.
Proof. unfold ConvertFlathubReleases. by rewrite convert_loop_spec. Qed.

Lemma ConvertFlathubReleases_keys now entries :
  map release_key (ConvertFlathubReleases now entries)
  = map (λ e, (Entry_Version e, "appstream")) entries.
Proof.
  rewrite ConvertFlathubReleases_imap.
  change (map ?f ?l) with (f <$> l). rewrite fmap_imap.
  rewrite <- (imap_const (λ e, (Entry_Version e, "appstream")) entries).
  by apply imap_ext.
Qed.

Lemma set_Releases_ID app releases : ID (set_Releases app releases) = ID app.
Proof. done. Qed.

Lemma enrich_one_ID firefox thunderbird app :
  ID (enrich_one firefox thunderbird app) = ID app.
Proof.
  unfold enrich_one.
  destruct (String.eqb (ID app) "org.mozilla.firefox");
    [by destruct firefox|].
  destruct (String.eqb (ID app) "org.mozilla.Thunderbird");
    [by destruct thunderbird|done].
Qed.

Lemma fetchProductReleases_one key product notesBase now versions notes releases :
  fetchProductReleases key product notesBase now versions notes = Ok releases →
  ∃ r, releases = [r] ∧ ReleaseType r = "mozilla-release".
Proof.
  unfold fetchProductReleases.
  destruct versions as [err|err|code [err|body]]; [done..|].
  destruct (length _ <? 2)%nat; [done|].
  destruct (notes _) as [err|err|code' [err|html]]; [done..|].
  intros [= <-]. by eexists.
Qed.

(** C4 (as amended). After the detail stage the release list of a package
    holds one appstream entry for each entry of the upstream metadata, in
    the upstream order: it is unique by (version, origin-type) exactly when
    the upstream versions are distinct, and it is neither cut at a cap nor
    sorted by date. Mozilla enrichment keeps the packages and their order,
    leaves every package other than Firefox and Thunderbird as it was, and
    gives these two the fetched list, which has exactly one entry. *)
Theorem C4_release_list_amended :
  (∀ now entries,
     ConvertFlathubReleases now entries
     = imap (λ i, convert_entry (now i)) entries)
  ∧ (∀ now entries,
       NoDup (map release_key (ConvertFlathubReleases now entries))
       ↔ NoDup (map Entry_Version entries))
  ∧ (∀ firefox thunderbird apps,
       map ID (EnrichWithMozillaReleases firefox thunderbird apps) = map ID apps)
  ∧ (∀ firefox thunderbird apps app,
       app ∈ apps →
       ID app ≠ "org.mozilla.firefox" → ID app ≠ "org.mozilla.Thunderbird" →
       app ∈ EnrichWithMozillaReleases firefox thunderbird apps)
  ∧ (∀ releases thunderbird apps app,
       app ∈ EnrichWithMozillaReleases (Ok releases) thunderbird apps →
       ID app = "org.mozilla.firefox" → Releases app = releases)
  ∧ (∀ firefox releases apps app,
       app ∈ EnrichWithMozillaReleases firefox (Ok releases) apps →
       ID app = "org.mozilla.Thunderbird" → Releases app = releases)
  ∧ (∀ key product notesBase now versions notes releases,
       fetchProductReleases key product notesBase now versions notes
         = Ok releases →
       ∃ r, releases = [r] ∧ ReleaseType r = "mozilla-release"
            ∧ release_invariant 1 releases).
Proof.
  split.
  { intros now entries. apply ConvertFlathubReleases_imap. }
  split.
  { intros now entries. rewrite ConvertFlathubReleases_keys.
    assert (Hkeys : map (λ e, (Entry_Version e, "appstream")) entries
                    = map (λ v : string, (v, "appstream"))
                          (map Entry_Version entries))
      by (by rewrite map_map).
    rewrite Hkeys. split.
    - apply NoDup_fmap_1.
    - apply NoDup_fmap_2. by intros v1 v2 [=]. }
  split.
  { intros firefox thunderbird apps. unfold EnrichWithMozillaReleases.
    rewrite map_map. apply map_ext. intros app. apply enrich_one_ID. }
  split.
  { intros firefox thunderbird apps app Hin Hff Htb.
    unfold EnrichWithMozillaReleases. apply list_elem_of_fmap.
    exists app. split; [|done]. unfold enrich_one.
    apply String.eqb_neq in Hff, Htb. by rewrite Hff, Htb. }
  split.
  { intros releases thunderbird apps app Hin Hid.
    unfold EnrichWithMozillaReleases in Hin.
    apply list_elem_of_fmap in Hin as (app0 & -> & _).
    rewrite enrich_one_ID in Hid. unfold enrich_one. by rewrite Hid. }
  split.
  { intros firefox releases apps app Hin Hid.
    unfold EnrichWithMozillaReleases in Hin.
    apply list_elem_of_fmap in Hin as (app0 & -> & _).
    rewrite enrich_one_ID in Hid. unfold enrich_one. by rewrite Hid. }
  intros key product notesBase now versions notes releases Hfetch.
  apply fetchProductReleases_one in Hfetch as (r & -> & Htype).
  exists r. split; [done|]. split; [done|].
  split; [simpl; lia|]. split.
  - simpl. apply NoDup_singleton.
  - repeat constructor.
Qed.
End release_lists.

(** C4 is not true of a package that went through the pipeline: two entries
    of the upstream metadata with one version give two appstream releases
    with that version, whatever the cap. *)
Lemma C4_duplicate_releases_survive :
  let entry version date :=
    {| models.Entry_Version := version; models.Entry_Date := date;
       models.Entry_Description := "" |} in
  let details :=
    {| models.Details_ID := "org.example.App"; models.Details_Name := "App";
       models.Details_Summary := ""; models.Details_Description := "";
       models.URLs := None;
       models.Details_Releases :=
         [entry "1.0" "2024-06-01"; entry "1.0" "2024-01-01"] |} in
  let listed :=
    {| models.FlathubApp_ID := "org.example.App";
       models.FlathubApp_Name := "App";
       models.FlathubApp_Summary := ""; models.FlathubApp_DeveloperName := "";
       models.FlathubApp_Icon := ""; models.FlathubApp_ProjectLicense := "";
       models.FlathubApp_Categories := []; models.CurrentReleaseVersion := "1.0";
       models.CurrentReleaseDate := "" |} in
  let w :=
    {| flathub.feed := Response StatusOK (Payload (Ok [listed]));
       flathub.appstream := λ _, Response StatusOK (Payload (Ok details));
       flathub.clock := λ _ _, 0;
       flathub.rt := λ _, in_order;
       flathub.sched := in_order |} in
  let unavailable := Err (errorString "could not find latest version") in
  ∃ res app,
    @flathub.FetchAllApps plain_externals w = Returns res
    ∧ mozilla.EnrichWithMozillaReleases unavailable unavailable (models.Apps res)
      = [app]
    ∧ map enrichment.release_key (models.Releases app)
      = [("1.0", "appstream"); ("1.0", "appstream")]
    ∧ (¬ ∃ cap, release_invariant cap (models.Releases app))
    ∧ ¬ ∃ (E : Externals) cap, @releases_normalised E cap.
Proof.
  intros entry details listed w unavailable.
  eexists _, _. split; [vm_compute; reflexivity|].
  split; [vm_compute; reflexivity|].
  split; [vm_compute; reflexivity|].
  match goal with
  | |- (¬ ∃ cap, release_invariant cap (models.Releases ?a)) ∧ _ =>
      assert (Hbad : ¬ ∃ cap, release_invariant cap (models.Releases a))
  end.
  { intros (cap & _ & Hnd & _). vm_compute in Hnd.
    apply NoDup_cons in Hnd as [Hnotin _]. apply Hnotin. by left. }
  split; [exact Hbad|].
  intros (E & cap & Hnorm).
  destruct (Hnorm w _ unavailable unavailable _ eq_refl
              ltac:(vm_compute; left)) as (_ & Hnd & _).
  vm_compute in Hnd.
  apply NoDup_cons in Hnd as [Hnotin _]. apply Hnotin. by left.
Qed.

(** ** The merge rule *)
Section merge.
Import models mozilla enrichment.

Lemma merge_releases_spec cap fetched existing :
  merge_releases cap fetched existing
  = take cap (dedup_by release_key (fetched ++ existing) ∅).
Proof. unfold merge_releases. by rewrite dedup_loop_spec, app_nil_l. Qed.

Lemma sublist_take_of {X : Type} (n : nat) (l k : list X) :
  sublist l k → sublist (take n l) k.
Proof. intros Hsub. trans l; [apply sublist_take|exact Hsub]. Qed.

(** two releases with one version but different origins are two entries:
    the pair (version, origin-type) tells them apart *)
Lemma merge_keeps_other_origin cap g1 g2 a :
  Version g1 ≠ Version g2 → ReleaseType a ≠ ReleaseType g1 →
  ReleaseType a ≠ ReleaseType g2 → (3 ≤ cap)%nat →
  merge_releases cap [g1; g2] [a] = [g1; g2; a].
Proof.
  intros Hv Ht1 Ht2 Hcap. rewrite merge_releases_spec. simpl.
  rewrite decide_False by apply not_elem_of_empty.
  rewrite decide_False.
  2:{ intros [Hk%elem_of_singleton|Hk%elem_of_empty]%elem_of_union; [|done].
      unfold release_key in Hk. congruence. }
  rewrite decide_False.
  2:{ intros [Hk%elem_of_singleton|[Hk%elem_of_singleton|Hk%elem_of_empty]%elem_of_union]%elem_of_union;
      [| |done]; unfold release_key in Hk; congruence. }
  by rewrite take_ge by (simpl; lia).
Qed.

(** one release from the package metadata and two from the source
    repository: the three are kept, as far as the cap lets them *)
Lemma merge_scenario cap g1 g2 a :
  ReleaseType g1 = ReleaseType g2 → ReleaseType a ≠ ReleaseType g1 →
  Version g1 ≠ Version g2 →
  merge_releases cap [g1; g2] [a] = take cap [g1; g2; a].
Proof.
  intros Ht Hta Hv. rewrite merge_releases_spec. simpl.
  rewrite decide_False by apply not_elem_of_empty.
  rewrite decide_False.
  2:{ intros [Hk%elem_of_singleton|Hk%elem_of_empty]%elem_of_union; [|done].
      unfold release_key in Hk. congruence. }
  rewrite decide_False; [done|].
  intros [Hk%elem_of_singleton
         |[Hk%elem_of_singleton|Hk%elem_of_empty]%elem_of_union]%elem_of_union;
    [| |done]; unfold release_key in Hk; congruence.
Qed.

(** C5 (as amended). With the merge rule of the spec, the releases fetched
    from the source repository come first and the existing ones after them,
    each group in its own order; the result has no two entries with the
    same (version, origin-type) and at most [cap] entries; it is the first
    [cap] entries of the deduplicated concatenation, in which every key of
    a fetched or existing release is still present. A release is a
    duplicate only of a release with its version and its origin: a package
    with one release from the package metadata that gains two
    source-repository releases with two versions keeps the three, the
    source-repository ones first, whatever the version of the release it
    had, and loses an entry only to the cap; it ends with two entries when
    the two fetched releases have one version and one origin. The
    enrichment that is in the sources, [EnrichWithMozillaReleases], does
    not merge: the release list of Firefox and of Thunderbird becomes the
    fetched list, whatever it was. *)
Theorem C5_merge_amended :
  (∀ cap fetched existing,
     ∃ from_fetched from_existing,
       merge_releases cap fetched existing = from_fetched ++ from_existing
       ∧ sublist from_fetched fetched ∧ sublist from_existing existing)
  ∧ (∀ cap fetched existing,
       NoDup (map release_key (merge_releases cap fetched existing)))
  ∧ (∀ cap fetched existing,
       (length (merge_releases cap fetched existing) ≤ cap)%nat)
  ∧ (∀ cap fetched existing,
       merge_releases cap fetched existing
       = take cap (dedup_by release_key (fetched ++ existing) ∅))
  ∧ (∀ fetched existing r,
       r ∈ fetched ++ existing →
       release_key r
         ∈ map release_key (dedup_by release_key (fetched ++ existing) ∅))
  ∧ (∀ fetched existing r rest,
       fetched ++ existing = r :: rest →
       dedup_by release_key (fetched ++ existing) ∅
       = r :: dedup_by release_key rest {[release_key r]})
  ∧ (∀ cap g1 g2 a,
       ReleaseType g1 = ReleaseType g2 → ReleaseType a ≠ ReleaseType g1 →
       Version g1 ≠ Version g2 →
       merge_releases cap [g1; g2] [a] = take cap [g1; g2; a]
       ∧ ((3 ≤ cap)%nat → merge_releases cap [g1; g2] [a] = [g1; g2; a]))
  ∧ (∀ cap g1 g2 a,
       Version g1 = Version g2 → ReleaseType g1 = ReleaseType g2 →
       ReleaseType a ≠ ReleaseType g1 → (2 ≤ cap)%nat →
       merge_releases cap [g1; g2] [a] = [g1; a])
  ∧ (∀ firefox thunderbird apps i app,
       apps !! i = Some app →
       ∃ app',
         EnrichWithMozillaReleases firefox thunderbird apps !! i = Some app'
         ∧ (ID app = "org.mozilla.firefox" →
            ∀ releases, firefox = Ok releases → Releases app' = releases)
         ∧ (ID app = "org.mozilla.Thunderbird" →
            ∀ releases, thunderbird = Ok releases → Releases app' = releases)).
Proof.
  split.
  { intros cap fetched existing.
    apply sublist_app_r. rewrite merge_releases_spec.
    apply sublist_take_of, dedup_by_sublist. }
  split.
  { intros cap fetched existing. rewrite merge_releases_spec.
    eapply sublist_NoDup; [apply (dedup_by_NoDup release_key)|].
    change (map release_key ?l) with (release_key <$> l).
    rewrite fmap_take. apply sublist_take. }
  split.
  { intros cap fetched existing. rewrite merge_releases_spec.
    rewrite length_take. lia. }
  split; [apply merge_releases_spec|].
  split.
  { intros fetched existing r Hr.
    apply dedup_by_complete; [done|apply not_elem_of_empty]. }
  split.
  { intros fetched existing r rest ->. simpl.
    rewrite decide_False by apply not_elem_of_empty.
    by rewrite (right_id_L ∅ (∪)). }
  split.
  { intros cap g1 g2 a Ht Hta Hv. split; [by apply merge_scenario|].
    intros Hcap. rewrite merge_scenario by done.
    by rewrite take_ge by (simpl; lia). }
  split.
  { intros cap g1 g2 a Hv Ht Hta Hcap. rewrite merge_releases_spec. simpl.
    rewrite decide_False by apply not_elem_of_empty.
    rewrite decide_True.
    2:{ apply elem_of_union. left. apply elem_of_singleton.
        unfold release_key. congruence. }
    rewrite decide_False.
    2:{ intros [Hk%elem_of_singleton|Hk%elem_of_empty]%elem_of_union; [|done].
        unfold release_key in Hk. congruence. }
    by rewrite take_ge by (simpl; lia). }
  intros firefox thunderbird apps i app Hi.
  exists (enrich_one firefox thunderbird app). split.
  { unfold EnrichWithMozillaReleases. change (map ?f ?l) with (f <$> l).
    by rewrite list_lookup_fmap, Hi. }
  unfold enrich_one. split.
  - intros Hid releases ->. by rewrite Hid.
  - intros Hid releases ->. by rewrite Hid.
Qed.
End merge.

(** C5 is not true of the merge rule, nor of the enrichment in the
    sources. By the rule a release from the package metadata is not a
    duplicate of a source-repository release with its version, so the
    package of the example ends with three entries; and
    [EnrichWithMozillaReleases] drops the release the package had. *)
Lemma C5_release_of_another_origin_is_kept :
  let release version origin :=
    {| models.Version := version; models.Date := 0; models.Title := "";
       models.Description := ""; models.ReleaseURL := "";
       models.ReleaseType := origin |} in
  let g1 := release "2.0" "github-release" in
  let g2 := release "1.0" "github-release" in
  let a := release "1.0" "appstream" in
  let firefox :=
    {| models.ID := "org.mozilla.firefox"; models.Name := "Firefox";
       models.Summary := ""; models.AppDescription := "";
       models.DeveloperName := ""; models.Icon := "";
       models.ProjectLicense := ""; models.Categories := [];
       models.UpdatedAt := ""; models.AppVersion := "146.0";
       models.ReleaseDate := "";
       models.FlathubURL := "https://flathub.org/apps/org.mozilla.firefox";
       models.AppSourceRepo := None;
       models.Releases := [release "146.0" "appstream"];
       models.FetchedAt := 0; models.PackageType := "";
       models.AppOSInfo := None; models.AppHomebrewInfo := None |} in
  let fetched := Ok [release "147.0" "mozilla-release"] in
  let unavailable := Err (errorString "could not find latest version") in
  enrichment.merge_releases 5 [g1; g2] [a] = [g1; g2; a]
  ∧ (¬ ∃ cap, (3 ≤ cap)%nat
              ∧ duplicate_collapses enrichment.merge_releases cap)
  ∧ map models.Releases
      (mozilla.EnrichWithMozillaReleases fetched unavailable [firefox])
    = [[release "147.0" "mozilla-release"]]
  ∧ ¬ existing_retained
        (mozilla.EnrichWithMozillaReleases fetched unavailable).
Proof.
  intros release g1 g2 a firefox fetched unavailable.
  split; [vm_compute; reflexivity|]. split.
  - intros (cap & Hcap & Hcollapses).
    assert (Hlen : length (enrichment.merge_releases cap [g1; g2] [a]) = 2%nat).
    { apply Hcollapses; [done|done|done|by right]. }
    rewrite (merge_keeps_other_origin cap g1 g2 a) in Hlen by done.
    discriminate Hlen.
  - split; [reflexivity|].
    intros Hretained.
    specialize (Hretained [firefox] 0%nat firefox _ eq_refl eq_refl
                  (release "146.0" "appstream")).
    vm_compute in Hretained.
    specialize (Hretained ltac:(left)).
    apply list_elem_of_singleton in Hretained. discriminate Hretained.
Qed.

(** * The embedding on the inputs the sources give as examples *)

Example parseFlatpakBrewfile_example :
  bluefin.parseFlatpakBrewfile
    ("flatpak " +:+ quoted "org.gnome.Calculator" +:+ newline
     +:+ "# browsers" +:+ newline
     +:+ "flatpak   " +:+ quoted "org.mozilla.firefox" +:+ newline)
  = ["org.gnome.Calculator"; "org.mozilla.firefox"].
Proof. reflexivity. Qed.

Example parseHomebrewBrewfile_example :
  bluefin.parseHomebrewBrewfile
    ("tap " +:+ quoted "ublue-os/tap" +:+ newline
     +:+ "brew " +:+ quoted "bat" +:+ newline
     +:+ "brew " +:+ quoted "gh" +:+ newline)
  = ["bat"; "gh"].
Proof. reflexivity. Qed.

Example deduplicate_example :
  bluefin.deduplicate ["bat"; "gh"; "bat"; "jq"; "gh"] = ["bat"; "gh"; "jq"].
Proof. reflexivity. Qed.

Example extractGitHubRepo_example :
  flathub.extractGitHubRepo "https://github.com/owner/repo.git"
  = {| models.Type_ := "github";
       models.URL := "https://github.com/owner/repo.git";
       models.Owner := "owner"; models.Repo := "repo" |}.
Proof. reflexivity. Qed.

Example extractGitHubRepoFromURL_example :
  bluefin.extractGitHubRepoFromURL
    "https://github.com/sharkdp/bat/archive/refs/tags/v0.24.0.tar.gz"
  = Some {| models.Type_ := "github";
            models.URL := "https://github.com/sharkdp/bat";
            models.Owner := "sharkdp"; models.Repo := "bat" |}.
Proof. reflexivity. Qed.

Example parseOSInfo_example :
  let release :=
    {| bluefin.TagName := "stable-20260203";
       bluefin.GH_Name := "stable-20260203: Stable (F43.20260203, #4132884)";
       bluefin.GH_Body := "| **Kernel** | 6.17.12-300 |";
       bluefin.HTMLURL := ""; bluefin.PublishedAt := 0;
       bluefin.Draft := false; bluefin.Prerelease := false |} in
  let osInfo := @bluefin.parseOSInfo plain_externals release in
  (models.Stream osInfo, models.BuildNumber osInfo,
   models.FedoraVersion osInfo, models.CommitHash osInfo,
   models.ImageName osInfo)
  = ("stable", "20260203", "43", "4132884", "ghcr.io/ublue-os/bluefin:stable").
Proof. reflexivity. Qed.

Example parseOSInfo_no_dash :
  let release :=
    {| bluefin.TagName := "v1"; bluefin.GH_Name := ""; bluefin.GH_Body := "";
       bluefin.HTMLURL := ""; bluefin.PublishedAt := 0;
       bluefin.Draft := false; bluefin.Prerelease := false |} in
  models.Stream (@bluefin.parseOSInfo plain_externals release) = "stable".
Proof. reflexivity. Qed.

Example unexpected_status_example :
  Error (unexpected_status 503) = "unexpected status code: 503".
Proof. reflexivity. Qed.

Example createMinimalHomebrewApp_example :
  let app := bluefin.createMinimalHomebrewApp 0 "ublue-os/tap/foo" in
  (models.ID app, models.Name app) = ("homebrew-ublue-os-tap-foo", "foo").
Proof. reflexivity. Qed.

(** ** The matcher finds only matches *)
Section regexp_sound.

Lemma append_cons (x : ascii) (a b : string) :
  String x a +:+ b = String x (a +:+ b).
Proof. reflexivity. Qed.

Lemma append_nil_l (a : string) : "" +:+ a = a.
Proof. reflexivity. Qed.

Lemma append_assoc (a b c : string) : (a +:+ b) +:+ c = a +:+ b +:+ c.
Proof.
  induction a as [|x a IH]; [done|]. by rewrite !append_cons, IH.
Qed.

Lemma append_nil_r (a : string) : a +:+ "" = a.
Proof. induction a as [|x a IH]; [done|]. by rewrite append_cons, IH. Qed.

Lemma length_append (a b : string) :
  String.length (a +:+ b) = (String.length a + String.length b)%nat.
Proof.
  induction a as [|x a IH]; [done|]. rewrite append_cons. simpl. by rewrite IH.
Qed.

Lemma take_append (a b : string) :
  strings.take (String.length (a +:+ b) - String.length b) (a +:+ b) = a.
Proof.
  rewrite length_append.
  replace (String.length a + String.length b - String.length b)%nat
    with (String.length a) by lia.
  induction a as [|x a IH]; [done|]. rewrite append_cons. simpl. by rewrite IH.
Qed.

Lemma all_bytes_append p (a b : string) :
  all_bytes p (a +:+ b) = all_bytes p a && all_bytes p b.
Proof.
  induction a as [|x a IH]; [done|]. rewrite append_cons. simpl.
  by rewrite IH, andb_assoc.
Qed.

Lemma star_sound {X : Type} p s (k : string → option X) x :
  regexp.star p s k = Some x →
  ∃ w s1, s = w +:+ s1 ∧ all_bytes p w = true ∧ k s1 = Some x.
Proof.
  revert k x. induction s as [|c s IH]; intros k x; simpl.
  - intros Hk. by exists "", "".
  - destruct (p c) eqn:Hp.
    + destruct (regexp.star p s k) as [y|] eqn:Hstar.
      * intros [= <-]. destruct (IH _ _ Hstar) as (w & s1 & -> & Hw & Hk).
        exists (String c w), s1. simpl. by rewrite Hp, Hw.
      * intros Hk. by exists "", (String c s).
    + intros Hk. by exists "", (String c s).
Qed.

(** what the matcher hands to its continuation is the rest of the input
    after a match of the pattern, and the submatches of that match *)
Lemma m_sound {X : Type} r : ∀ s caps (k : string → list string → option X) x,
  regexp.m r s caps k = Some x →
  ∃ w s1 caps1,
    s = w +:+ s1 ∧ matches r w caps1 ∧ k s1 (caps ++ caps1) = Some x.
Proof.
  induction r as [c|p|p|p|r1 IH1 r2 IH2|r IH]; intros s caps k x; simpl.
  - destruct s as [|c' s]; [done|].
    destruct (Ascii.eqb c' c) eqn:Hc; [|done].
    apply Ascii.eqb_eq in Hc as ->. intros Hk.
    exists (String c ""), s, []. rewrite app_nil_r.
    split; [done|]. split; [constructor|done].
  - destruct s as [|c' s]; [done|].
    destruct (p c') eqn:Hp; [|done]. intros Hk.
    exists (String c' ""), s, []. rewrite app_nil_r.
    split; [done|]. split; [by constructor|done].
  - intros (w & s1 & -> & Hw & Hk)%star_sound.
    exists w, s1, []. rewrite app_nil_r.
    split; [done|]. split; [by constructor|done].
  - destruct s as [|c' s]; [done|].
    destruct (p c') eqn:Hp; [|done].
    intros (w & s1 & -> & Hw & Hk)%star_sound.
    exists (String c' w), s1, []. rewrite app_nil_r.
    split; [done|]. split; [|done].
    constructor; [done|]. simpl. by rewrite Hp, Hw.
  - intros Hm. apply IH1 in Hm as (w1 & s1 & caps1 & -> & Hm1 & Hm).
    apply IH2 in Hm as (w2 & s2 & caps2 & -> & Hm2 & Hk).
    exists (w1 +:+ w2), s2, (caps1 ++ caps2).
    split; [by rewrite append_assoc|].
    split; [by constructor|]. by rewrite app_assoc.
  - intros Hm. apply IH in Hm as (w & s1 & caps1 & -> & Hm & Hk).
    rewrite take_append in Hk.
    exists w, s1, (caps1 ++ [w]).
    split; [done|]. split; [by constructor|]. by rewrite app_assoc.
Qed.

Lemma match_here_sound r s rest sub :
  regexp.match_here r s = Some (rest, sub) →
  ∃ w caps, s = w +:+ rest ∧ matches r w caps ∧ sub = w :: caps.
Proof.
  unfold regexp.match_here.
  intros (w & s1 & caps & -> & Hm & [= <- <-])%m_sound.
  rewrite take_append. by exists w, caps.
Qed.

Lemma FindStringSubmatch_sound r s :
  regexp.FindStringSubmatch r s = []
  ∨ submatch_of r s (regexp.FindStringSubmatch r s).
Proof.
  induction s as [|c s IH]; simpl.
  - destruct (regexp.match_here r "") as [[rest sub]|] eqn:Hm; [|by left].
    right. apply match_here_sound in Hm as (w & caps & Hs & Hm & ->).
    by exists "", w, rest, caps.
  - destruct (regexp.match_here r (String c s)) as [[rest sub]|] eqn:Hm.
    + right. apply match_here_sound in Hm as (w & caps & Hs & Hm & ->).
      by exists "", w, rest, caps.
    + destruct IH as [IH|(before & w & after & caps & -> & Hm' & Hsub)];
        [by left|].
      right. by exists (String c before), w, after, caps.
Qed.

Lemma find_all_sound r s : ∀ skip sub,
  sub ∈ regexp.find_all r s skip → submatch_of r s sub.
Proof.
  assert (Hshift : ∀ c s sub,
            submatch_of r s sub → submatch_of r (String c s) sub).
  { intros c s0 sub (before & w & after & caps & -> & Hm & ->).
    by exists (String c before), w, after, caps. }
  induction s as [|c s IH]; intros skip sub; simpl.
  - destruct skip; [|by intros ?%elem_of_nil].
    destruct (regexp.match_here r "") as [[rest sub']|] eqn:Hm;
      [|by intros ?%elem_of_nil].
    intros [->|?%elem_of_nil]%elem_of_cons; [|done].
    apply match_here_sound in Hm as (w & caps & Hs & Hm & ->).
    by exists "", w, rest, caps.
  - destruct skip as [|skip]; [|by intros ?%IH; apply Hshift].
    destruct (regexp.match_here r (String c s)) as [[rest sub']|] eqn:Hm;
      [|by intros ?%IH; apply Hshift].
    intros [->|?%IH]%elem_of_cons; [|by apply Hshift].
    apply match_here_sound in Hm as (w & caps & Hs & Hm & ->).
    by exists "", w, rest, caps.
Qed.

(** *** Reading a match of a given pattern *)

Lemma matches_Lit_inv c w caps :
  matches (regexp.Lit c) w caps → w = String c "" ∧ caps = [].
Proof. by inversion 1. Qed.

Lemma matches_Cls_inv p w caps :
  matches (regexp.Cls p) w caps → ∃ c, w = String c "" ∧ p c = true ∧ caps = [].
Proof. inversion 1; subst. by eexists. Qed.

Lemma matches_Star_inv p w caps :
  matches (regexp.Star p) w caps → all_bytes p w = true ∧ caps = [].
Proof. by inversion 1. Qed.

Lemma matches_Plus_inv p w caps :
  matches (regexp.Plus p) w caps → w ≠ "" ∧ all_bytes p w = true ∧ caps = [].
Proof. by inversion 1. Qed.

Lemma matches_Cat_inv r1 r2 w caps :
  matches (regexp.Cat r1 r2) w caps →
  ∃ w1 w2 caps1 caps2,
    w = w1 +:+ w2 ∧ caps = caps1 ++ caps2
    ∧ matches r1 w1 caps1 ∧ matches r2 w2 caps2.
Proof. inversion 1; subst. by eexists _, _, _, _. Qed.

Lemma matches_Cap_inv r w caps :
  matches (regexp.Cap r) w caps →
  ∃ caps1, caps = caps1 ++ [w] ∧ matches r w caps1.
Proof. inversion 1; subst. by eexists. Qed.

Lemma matches_Str_inv word r w caps :
  matches (regexp.Str word r) w caps →
  ∃ w', w = word +:+ w' ∧ matches r w' caps.
Proof.
  revert w caps. induction word as [|c word IH]; intros w caps; simpl.
  - intros Hm. by exists w.
  - intros (w1 & w2 & caps1 & caps2 & -> & -> & Hl & Hm)%matches_Cat_inv.
    apply matches_Lit_inv in Hl as [-> ->].
    apply IH in Hm as (w' & -> & Hm). by exists w'.
Qed.

(** a group that is a run of one class: the submatch is the run *)
Lemma matches_Cap_Plus_inv p w caps :
  matches (regexp.Cap (regexp.Plus p)) w caps →
  caps = [w] ∧ w ≠ "" ∧ all_bytes p w = true.
Proof.
  intros (caps1 & -> & Hm)%matches_Cap_inv.
  by apply matches_Plus_inv in Hm as (Hne & Hall & ->).
Qed.
End regexp_sound.

(** ** What the parsers built on patterns return *)

(** take a hypothesis that a pattern matches apart, down to its runs *)
Ltac invert_matches :=
  repeat match goal with
    | H : matches (regexp.Str _ _) _ _ |- _ =>
        apply matches_Str_inv in H as (? & -> & H)
    | H : matches (regexp.Cap (regexp.Plus _)) _ _ |- _ =>
        apply matches_Cap_Plus_inv in H as (-> & ? & ?)
    | H : matches (regexp.Cat _ _) _ _ |- _ =>
        apply matches_Cat_inv in H as (? & ? & ? & ? & -> & -> & ? & ?)
    | H : matches (regexp.Lit _) _ _ |- _ =>
        apply matches_Lit_inv in H as [-> ->]
    | H : matches (regexp.Plus _) _ _ |- _ =>
        apply matches_Plus_inv in H as (? & ? & ->)
    | H : matches (regexp.Star _) _ _ |- _ =>
        apply matches_Star_inv in H as (? & ->)
    | H : matches (regexp.Cls _) _ _ |- _ =>
        apply matches_Cls_inv in H as (? & -> & ? & ->)
    end.

Section patterns.
Import models.

Lemma all_bytes_impl (p q : ascii → bool) s :
  (∀ c, p c = true → q c = true) → all_bytes p s = true → all_bytes q s = true.
Proof.
  intros Hpq. induction s as [|c s IH]; simpl; [done|].
  intros [Hc Hs]%andb_true_iff. by rewrite (Hpq c Hc), IH.
Qed.

Lemma occurs_in_intro (before w after s : string) :
  s = before +:+ w +:+ after → occurs_in w s.
Proof. intros ->. by exists before, after. Qed.

(** a match of the Brewfile pattern reads: the word, white space, and a
    name between double quotes; the name is the one submatch *)
Lemma brewfile_re_match word w caps :
  matches (bluefin.brewfile_re word) w caps →
  ∃ ws name,
    w = word +:+ ws +:+ quoted name ∧ caps = [name]
    ∧ ws ≠ "" ∧ all_bytes regexp.space ws = true
    ∧ name ≠ "" ∧ free_of dquote name.
Proof.
  unfold bluefin.brewfile_re. intros Hm. invert_matches.
  eexists _, _. split; [reflexivity|]. by rewrite !app_nil_l.
Qed.

Lemma submatch_loop_elem matches_ : ∀ ids id,
  id ∈ bluefin.submatch_loop matches_ ids →
  id ∈ ids ∨ ∃ w caps, (w :: id :: caps) ∈ matches_.
Proof.
  induction matches_ as [|match_ l IH]; intros ids id; simpl; [by left|].
  intros [Hin|(w & caps & Hin)]%IH.
  - destruct match_ as [|w [|x caps]]; simpl in Hin; [by left..|].
    apply elem_of_app in Hin as [Hin|Hin%list_elem_of_singleton]; [by left|].
    subst. right. exists w, caps. by left.
  - right. exists w, caps. by right.
Qed.

Lemma parse_brewfile_sound word content :
  Forall (λ id,
            id ≠ "" ∧ free_of dquote id
            ∧ ∃ ws, ws ≠ "" ∧ all_bytes regexp.space ws = true
                    ∧ occurs_in (word +:+ ws +:+ quoted id) content)
         (bluefin.submatch_loop
            (regexp.FindAllSubmatch (bluefin.brewfile_re word) content) []).
Proof.
  apply Forall_forall. intros id Hid.
  apply submatch_loop_elem in Hid as [?%elem_of_nil|(w & caps & Hin)]; [done|].
  apply find_all_sound in Hin
    as (before & w' & after & caps' & -> & Hm & [= <- Hcaps]).
  apply brewfile_re_match in Hm as (ws & name & -> & -> & Hws & Hsp & Hne & Hq).
  injection Hcaps as -> ->.
  split; [done|]. split; [done|]. exists ws. split; [done|]. split; [done|].
  by exists before, after.
Qed.
End patterns.

(** ** Brewfiles, repository addresses and Mozilla pages *)
Section parser_properties.
Import models.

(** X1. The Brewfile parsers never make up an identifier: every identifier
    [parseFlatpakBrewfile] returns is not empty, holds no double quote, and
    stands in the content between double quotes after the word [flatpak] and
    white space; the same holds of [parseHomebrewBrewfile] and the word
    [brew]. *)
Theorem X1_brewfile_parsers_sound (content : string) :
  Forall (λ id,
            id ≠ "" ∧ free_of dquote id
            ∧ ∃ ws, ws ≠ "" ∧ all_bytes regexp.space ws = true
                    ∧ occurs_in ("flatpak" +:+ ws +:+ quoted id) content)
         (bluefin.parseFlatpakBrewfile content)
  ∧ Forall (λ name,
              name ≠ "" ∧ free_of dquote name
              ∧ ∃ ws, ws ≠ "" ∧ all_bytes regexp.space ws = true
                      ∧ occurs_in ("brew" +:+ ws +:+ quoted name) content)
           (bluefin.parseHomebrewBrewfile content).
Proof. split; apply parse_brewfile_sound. Qed.

Lemma github_repo_re_match w caps :
  matches flathub.github_repo_re w caps →
  ∃ owner seg,
    w = "github.com/" +:+ owner +:+ "/" +:+ seg ∧ caps = [owner; seg]
    ∧ owner ≠ "" ∧ free_of "/" owner
    ∧ seg ≠ "" ∧ free_of "/" seg ∧ free_of "?" seg ∧ free_of "#" seg
    ∧ all_bytes (λ c, negb (regexp.space c)) seg = true.
Proof.
  unfold flathub.github_repo_re. intros Hm. invert_matches.
  eexists _, _. split; [reflexivity|]. split; [done|].
  split; [done|]. split; [done|]. split; [done|].
  repeat split;
    (eapply all_bytes_impl; [|eassumption]; intros c Hc; simpl in Hc;
     unfold regexp.not_chr; repeat (apply andb_true_iff in Hc as [Hc ?]);
     done).
Qed.

(** X2. [extractGitHubRepo] always returns a repository of type [github]
    with the address it was given. Either owner and repository name are
    both empty, or the address reads [github.com/OWNER/SEGMENT], the owner
    is not empty and has no slash, the segment is not empty and has no
    slash, question mark, hash or white space, and the repository name is
    the segment without one trailing [.git]. *)
Theorem X2_extractGitHubRepo_shape (url : string) :
  let repo := flathub.extractGitHubRepo url in
  Type_ repo = "github" ∧ URL repo = url
  ∧ ((Owner repo = "" ∧ Repo repo = "")
     ∨ ∃ seg,
         occurs_in ("github.com/" +:+ Owner repo +:+ "/" +:+ seg) url
         ∧ Owner repo ≠ "" ∧ free_of "/" (Owner repo)
         ∧ seg ≠ "" ∧ free_of "/" seg ∧ free_of "?" seg ∧ free_of "#" seg
         ∧ all_bytes (λ c, negb (regexp.space c)) seg = true
         ∧ Repo repo = strings.TrimSuffix seg ".git").
Proof.
  unfold flathub.extractGitHubRepo.
  destruct (FindStringSubmatch_sound flathub.github_repo_re url)
    as [->|(before & w & after & caps & Hurl & Hm & ->)].
  - simpl. split; [done|]. split; [done|]. by left.
  - apply github_repo_re_match in Hm
      as (owner & seg & -> & -> & Ho & Hos & Hs & Hs1 & Hs2 & Hs3 & Hs4).
    simpl. split; [done|]. split; [done|]. right. exists seg.
    split; [by exists before, after|]. done.
Qed.

Lemma github_url_re_match w caps :
  matches bluefin.github_url_re w caps →
  ∃ sep owner repo,
    w = "github.com" +:+ String sep (owner +:+ "/" +:+ repo)
    ∧ caps = [owner; repo]
    ∧ (sep = "/"%char ∨ sep = ":"%char)
    ∧ owner ≠ "" ∧ free_of "/" owner
    ∧ repo ≠ "" ∧ free_of "/" repo ∧ free_of "." repo.
Proof.
  unfold bluefin.github_url_re. intros Hm. invert_matches.
  eexists _, _, _. split; [reflexivity|]. split; [done|].
  split.
  { match goal with
    | H : (_ || _) = true |- _ =>
        apply orb_true_iff in H as [H%Ascii.eqb_eq|H%Ascii.eqb_eq]; auto
    end. }
  split; [done|]. split; [done|]. split; [done|].
  split;
    (eapply all_bytes_impl; [|eassumption]; intros c Hc; simpl in Hc;
     unfold regexp.not_chr; repeat (apply andb_true_iff in Hc as [Hc ?]);
     done).
Qed.

(** X3. When [extractGitHubRepoFromURL] returns a repository, the address
    it was given reads [github.com], a slash or a colon, an owner, a slash
    and a name; owner and name are not empty, the owner has no slash, the
    name has neither slash nor dot, and the repository returned is of type
    [github] with the address [https://github.com/OWNER/NAME]. *)
Theorem X3_extractGitHubRepoFromURL_shape (urlStr : string) :
  match bluefin.extractGitHubRepoFromURL urlStr with
  | None => True
  | Some repo =>
      Type_ repo = "github"
      ∧ URL repo = "https://github.com/" +:+ Owner repo +:+ "/" +:+ Repo repo
      ∧ Owner repo ≠ "" ∧ free_of "/" (Owner repo)
      ∧ Repo repo ≠ "" ∧ free_of "/" (Repo repo) ∧ free_of "." (Repo repo)
      ∧ ∃ sep, (sep = "/"%char ∨ sep = ":"%char)
               ∧ occurs_in ("github.com"
                            +:+ String sep (Owner repo +:+ "/" +:+ Repo repo))
                           urlStr
  end.
Proof.
  unfold bluefin.extractGitHubRepoFromURL.
  destruct (FindStringSubmatch_sound bluefin.github_url_re urlStr)
    as [->|(before & w & after & caps & Hurl & Hm & ->)]; [done|].
  apply github_url_re_match in Hm
    as (sep & owner & repo & -> & -> & Hsep & Ho & Hos & Hr & Hr1 & Hr2).
  simpl. repeat (split; [done|]).
  exists sep. split; [done|]. by exists before, after.
Qed.

Lemma version_re_match key w caps :
  matches (mozilla.version_re key) w caps →
  ∃ ws version,
    w = quoted key +:+ ":" +:+ ws +:+ quoted version ∧ caps = [version]
    ∧ all_bytes regexp.space ws = true
    ∧ version ≠ "" ∧ free_of dquote version.
Proof.
  unfold mozilla.version_re. intros Hm. invert_matches.
  eexists _, _. split; [|done].
  unfold quoted. by rewrite !append_cons, !append_assoc.
Qed.

(** X4. Whatever the status codes of the two answers, when
    [fetchFirefoxReleases] or [fetchThunderbirdReleases] succeeds it returns
    exactly one release, of type [mozilla-release]; its version is not
    empty, has no double quote and stands in the version document as the
    value of the product's key; its address is the release-notes address of
    that version and its title is the product and the version. *)
Theorem X4_mozilla_release_shape `{!Externals}
    (key product notesBase : string) (now : Z)
    (StatusCode : Z) (body : string) (notes : string → HttpResult string) :
  match mozilla.fetchProductReleases key product notesBase now
          (Response StatusCode (Payload body)) notes with
  | Err _ => True
  | Ok releases =>
      ∃ r ws,
        releases = [r]
        ∧ ReleaseType r = "mozilla-release"
        ∧ Version r ≠ "" ∧ free_of dquote (Version r)
        ∧ all_bytes regexp.space ws = true
        ∧ occurs_in (quoted key +:+ ":" +:+ ws +:+ quoted (Version r)) body
        ∧ ReleaseURL r = notesBase +:+ Version r +:+ "/releasenotes/"
        ∧ Title r = product +:+ " " +:+ Version r
  end.
Proof.
  unfold mozilla.fetchProductReleases.
  destruct (FindStringSubmatch_sound (mozilla.version_re key) body)
    as [->|(before & w & after & caps & Hbody & Hm & ->)]; [done|].
  apply version_re_match in Hm as (ws & version & -> & -> & Hws & Hv & Hq).
  simpl.
  destruct (notes _) as [err|err|code' [err|html]]; [done..|].
  eexists _, ws. split; [reflexivity|]. simpl.
  repeat (split; [done|]). split; [by exists before, after|]. done.
Qed.

Lemma date_re_match w caps :
  matches mozilla.date_re w caps →
  ∃ attrs date,
    w = "<time" +:+ attrs +:+ "datetime=" +:+ quoted date ∧ caps = [date]
    ∧ free_of ">" attrs ∧ date ≠ "" ∧ free_of dquote date.
Proof.
  unfold mozilla.date_re. intros Hm. invert_matches.
  eexists _, _. split; [reflexivity|]. done.
Qed.

(** X5. [extractReleaseDate] returns either the empty string or the value,
    not empty and without a double quote, of a [datetime] attribute that
    the page gives inside a [time] tag. *)
Theorem X5_extractReleaseDate_shape (html : string) :
  let date := mozilla.extractReleaseDate html in
  date = ""
  ∨ (date ≠ "" ∧ free_of dquote date
     ∧ ∃ attrs, free_of ">" attrs
                ∧ occurs_in ("<time" +:+ attrs +:+ "datetime=" +:+ quoted date)
                            html).
Proof.
  unfold mozilla.extractReleaseDate.
  destruct (FindStringSubmatch_sound mozilla.date_re html)
    as [->|(before & w & after & caps & Hhtml & Hm & ->)]; [by left|].
  apply date_re_match in Hm as (attrs & date & -> & -> & Ha & Hd & Hq).
  simpl. right. split; [done|]. split; [done|].
  exists attrs. split; [done|]. by exists before, after.
Qed.
End parser_properties.

(** ** Splitting at a byte *)
Section split.
Import models.

Lemma free_of_cons c x s :
  free_of c (String x s) ↔ x ≠ c ∧ free_of c s.
Proof.
  unfold free_of, regexp.not_chr. simpl. rewrite andb_true_iff, negb_true_iff.
  by rewrite Ascii.eqb_neq.
Qed.

Lemma free_of_append c a b :
  free_of c (a +:+ b) ↔ free_of c a ∧ free_of c b.
Proof. unfold free_of. by rewrite all_bytes_append, andb_true_iff. Qed.

Lemma rev_app_append (s acc : string) :
  String.rev_app s acc = String.rev_app s "" +:+ acc.
Proof.
  revert acc. induction s as [|x s IH]; intros acc; [done|].
  change (String.rev_app (String x s) acc)
    with (String.rev_app s (String x acc)).
  change (String.rev_app (String x s) "")
    with (String.rev_app s (String x "")).
  rewrite (IH (String x acc)), (IH (String x "")).
  by rewrite append_assoc.
Qed.

Lemma rev_cons (x : ascii) (s : string) :
  String.rev (String x s) = String.rev s +:+ String x "".
Proof. unfold String.rev. apply (rev_app_append s (String x "")). Qed.

Lemma free_of_rev_cons c x cur :
  x ≠ c → free_of c (String.rev cur) → free_of c (String.rev (String x cur)).
Proof.
  intros Hx Hcur. rewrite rev_cons. apply free_of_append. split; [done|].
  by apply free_of_cons.
Qed.

Lemma HasPrefix_nil s : strings.HasPrefix s "" = true.
Proof. by destruct s. Qed.

Lemma HasPrefix_append p s : strings.HasPrefix (p +:+ s) p = true.
Proof.
  induction p as [|x p IH]; [apply HasPrefix_nil|].
  rewrite append_cons. simpl. by rewrite Ascii.eqb_refl.
Qed.

Lemma HasPrefix_byte x s c :
  strings.HasPrefix (String x s) (String c "") = Ascii.eqb x c.
Proof. simpl. destruct (Ascii.eqb x c); [|done]. by destruct s. Qed.

Lemma split_go_cons c x s cur :
  strings.split_go (String c "") (String x s) O cur
  = if Ascii.eqb x c
    then String.rev cur :: strings.split_go (String c "") s O ""
    else strings.split_go (String c "") s O (String x cur).
Proof.
  change (strings.split_go (String c "") (String x s) O cur)
    with (if strings.HasPrefix (String x s) (String c "")
          then String.rev cur :: strings.split_go (String c "") s O ""
          else strings.split_go (String c "") s O (String x cur)).
  by rewrite HasPrefix_byte.
Qed.

(** no piece holds the separator *)
Lemma split_go_free c s : ∀ cur,
  free_of c (String.rev cur) →
  Forall (free_of c) (strings.split_go (String c "") s O cur).
Proof.
  induction s as [|x s IH]; intros cur Hcur.
  - simpl. by constructor.
  - rewrite split_go_cons. destruct (Ascii.eqb x c) eqn:Hx.
    + constructor; [done|]. by apply IH.
    + apply IH, free_of_rev_cons; [|done]. by apply Ascii.eqb_neq.
Qed.

(** a string without the separator is one piece *)
Lemma split_go_none c s : ∀ cur,
  free_of c s →
  strings.split_go (String c "") s O cur = [String.rev cur +:+ s].
Proof.
  induction s as [|x s IH]; intros cur Hs.
  - simpl. by rewrite append_nil_r.
  - apply free_of_cons in Hs as [Hx Hs]. rewrite split_go_cons.
    apply Ascii.eqb_neq in Hx. rewrite Hx, IH by done.
    by rewrite rev_cons, append_assoc.
Qed.

(** the first piece ends at the first separator *)
Lemma split_go_first c a b : ∀ cur,
  free_of c a →
  strings.split_go (String c "") (a +:+ String c b) O cur
  = (String.rev cur +:+ a) :: strings.split_go (String c "") b O "".
Proof.
  induction a as [|x a IH]; intros cur Ha.
  - rewrite append_nil_l, split_go_cons, Ascii.eqb_refl.
    by rewrite append_nil_r.
  - apply free_of_cons in Ha as [Hx Ha]. rewrite append_cons, split_go_cons.
    apply Ascii.eqb_neq in Hx. rewrite Hx, IH by done.
    by rewrite rev_cons, append_assoc.
Qed.

Lemma Split_none c s : free_of c s → strings.Split s (String c "") = [s].
Proof. intros Hs. unfold strings.Split. by rewrite split_go_none. Qed.

Lemma Split_first c a b :
  free_of c a →
  strings.Split (a +:+ String c b) (String c "")
  = a :: strings.Split b (String c "").
Proof. intros Ha. unfold strings.Split. by rewrite split_go_first. Qed.

Lemma Split_free c s : Forall (free_of c) (strings.Split s (String c "")).
Proof. by apply split_go_free. Qed.

Lemma split_go_not_nil sep s : ∀ skip cur,
  strings.split_go sep s skip cur ≠ [].
Proof.
  induction s as [|x s IH]; intros skip cur; [done|].
  change (strings.split_go sep (String x s) skip cur)
    with (match skip with
          | S skip' => strings.split_go sep s skip' cur
          | O =>
              if strings.HasPrefix (String x s) sep
              then String.rev cur
                     :: strings.split_go sep s (String.length sep - 1) ""
              else strings.split_go sep s O (String x cur)
          end).
  destruct skip; [|by apply IH].
  destruct (strings.HasPrefix (String x s) sep); [done|by apply IH].
Qed.

Lemma Split_not_nil s sep : strings.Split s sep ≠ [].
Proof. apply split_go_not_nil. Qed.

Lemma Contains_false_free c s :
  strings.Contains s (String c "") = false → free_of c s.
Proof.
  induction s as [|x s IH]; [done|].
  change (strings.Contains (String x s) (String c ""))
    with (if strings.HasPrefix (String x s) (String c "") then true
          else strings.Contains s (String c "")).
  rewrite HasPrefix_byte. destruct (Ascii.eqb x c) eqn:Hx; [done|].
  intros Hs. apply free_of_cons. split; [by apply Ascii.eqb_neq|by apply IH].
Qed.

Lemma ReplaceAll1_free s old new :
  old ≠ new → free_of old (strings.ReplaceAll1 s old new).
Proof.
  intros Hne. induction s as [|x s IH]; [done|]. simpl.
  apply free_of_cons. split; [|done].
  destruct (Ascii.eqb x old) eqn:Hx; [done|]. by apply Ascii.eqb_neq.
Qed.

Lemma ReplaceAll1_length s old new :
  String.length (strings.ReplaceAll1 s old new) = String.length s.
Proof. induction s as [|x s IH]; simpl; [done|]. by rewrite IH. Qed.

(** the last piece starts after the last separator *)
Lemma split_go_last c a b : ∀ cur,
  free_of c b →
  last (strings.split_go (String c "") (a +:+ String c b) O cur) = Some b.
Proof.
  induction a as [|x a IH]; intros cur Hb.
  - rewrite append_nil_l, split_go_cons, Ascii.eqb_refl.
    by rewrite split_go_none.
  - rewrite append_cons, split_go_cons.
    destruct (Ascii.eqb x c).
    + rewrite last_cons. by rewrite (IH "" Hb).
    + by apply IH.
Qed.

Lemma Contains_byte_cons c x s :
  strings.Contains (String x s) (String c "")
  = Ascii.eqb x c || strings.Contains s (String c "").
Proof.
  change (strings.Contains (String x s) (String c ""))
    with (if strings.HasPrefix (String x s) (String c "") then true
          else strings.Contains s (String c "")).
  rewrite HasPrefix_byte. by destruct (Ascii.eqb x c).
Qed.

Lemma parseOSInfo_Stream `{!Externals} release :
  Stream (bluefin.parseOSInfo release)
  = let parts := strings.Split (bluefin.TagName release) "-" in
    if (2 <=? length parts)%nat then default "" (parts !! 0%nat) else "stable".
Proof. reflexivity. Qed.

Lemma parseOSInfo_BuildNumber `{!Externals} release :
  BuildNumber (bluefin.parseOSInfo release)
  = let parts := strings.Split (bluefin.TagName release) "-" in
    if (2 <=? length parts)%nat then default "" (parts !! 1%nat)
    else bluefin.TagName release.
Proof. reflexivity. Qed.

(** X6. The stream [parseOSInfo] reads off a release never holds a dash,
    and the image name is the image address, a colon and the stream. For a
    tag without a dash the stream is [stable] and the build number is the
    whole tag. For a tag that reads STREAM-REST the stream is the part
    before the first dash, and the build number is the part of REST before
    its first dash, or REST itself when it has none. *)
Theorem X6_parseOSInfo_stream `{!Externals} (release : bluefin.GitHubRelease) :
  let osInfo := bluefin.parseOSInfo release in
  let tag := bluefin.TagName release in
  free_of "-" (Stream osInfo)
  ∧ ImageName osInfo = bluefin.BluefinImageURL +:+ ":" +:+ Stream osInfo
  ∧ (free_of "-" tag → Stream osInfo = "stable" ∧ BuildNumber osInfo = tag)
  ∧ (∀ stream rest,
       tag = stream +:+ "-" +:+ rest → free_of "-" stream →
       Stream osInfo = stream
       ∧ (free_of "-" rest → BuildNumber osInfo = rest)
       ∧ (∀ build more,
            rest = build +:+ "-" +:+ more → free_of "-" build →
            BuildNumber osInfo = build)).
Proof.
  intros osInfo tag. unfold osInfo.
  rewrite parseOSInfo_Stream, parseOSInfo_BuildNumber. fold tag. cbv zeta.
  split; [|split; [done|split]].
  - pose proof (Split_free "-" tag) as Hfree.
    destruct (2 <=? length (strings.Split tag "-"))%nat; [|done].
    destruct (strings.Split tag "-") as [|part parts]; [done|].
    by apply Forall_cons in Hfree as [Hpart _].
  - intros Htag. by rewrite (Split_none "-" tag Htag).
  - intros stream rest Htag Hstream. rewrite Htag.
    change ("-" +:+ rest) with (String "-" rest).
    rewrite (Split_first "-" stream rest Hstream).
    pose proof (Split_not_nil rest "-") as Hne.
    split; [|split].
    + by destruct (strings.Split rest "-").
    + intros Hrest. by rewrite (Split_none "-" rest Hrest).
    + intros build more -> Hbuild.
      change ("-" +:+ more) with (String "-" more).
      by rewrite (Split_first "-" build more Hbuild).
Qed.

(** X7. The record [createMinimalHomebrewApp] builds has an identifier that
    starts with [homebrew-], holds no slash and is as long as that prefix
    and the package name together; its name holds no slash either: it is
    the package name without a leading [homebrew-] when that has no slash,
    and what follows its last slash otherwise. The record has no source
    repository and no release. *)
Theorem X7_createMinimalHomebrewApp_shape (now : Z) (packageName : string) :
  let app := bluefin.createMinimalHomebrewApp now packageName in
  let cleanName := strings.TrimPrefix packageName "homebrew-" in
  strings.HasPrefix (ID app) "homebrew-" = true
  ∧ free_of "/" (ID app)
  ∧ String.length (ID app) = (9 + String.length packageName)%nat
  ∧ free_of "/" (Name app)
  ∧ (free_of "/" cleanName → Name app = cleanName)
  ∧ (∀ tap base,
       cleanName = tap +:+ "/" +:+ base → free_of "/" base → Name app = base)
  ∧ PackageType app = "homebrew"
  ∧ AppSourceRepo app = None ∧ Releases app = [].
Proof.
  intros app cleanName.
  assert (Hname : Name app
                  = if strings.Contains cleanName "/"
                    then default "" (last (strings.Split cleanName "/"))
                    else cleanName) by reflexivity.
  assert (Hid : ID app = "homebrew-" +:+ strings.ReplaceAll1 packageName "/" "-")
    by reflexivity.
  split; [rewrite Hid; apply HasPrefix_append|]. split.
  { rewrite Hid. apply free_of_append. split; [reflexivity|].
    by apply ReplaceAll1_free. }
  split.
  { rewrite Hid, length_append, ReplaceAll1_length. reflexivity. }
  split.
  { rewrite Hname. destruct (strings.Contains cleanName "/") eqn:Hc.
    - pose proof (Split_free "/" cleanName) as Hfree.
      destruct (last (strings.Split cleanName "/")) as [piece|] eqn:Hlast;
        [|done].
      apply last_Some in Hlast as [l' Hl]. rewrite Hl in Hfree.
      apply Forall_app in Hfree as [_ Hfree].
      apply Forall_inv in Hfree. exact Hfree.
    - by apply Contains_false_free. }
  split.
  { intros Hfree. rewrite Hname.
    destruct (strings.Contains cleanName "/") eqn:Hc; [|done].
    by rewrite (Split_none "/" cleanName Hfree). }
  split; [|done].
  intros tap base Hclean Hbase. rewrite Hname, Hclean.
  assert (Hc : strings.Contains (tap +:+ "/" +:+ base) "/" = true).
  { clear. induction tap as [|x tap IH].
    - rewrite append_nil_l, append_cons, Contains_byte_cons. done.
    - rewrite append_cons, Contains_byte_cons, IH. by destruct (Ascii.eqb x "/"). }
  rewrite Hc. unfold strings.Split.
  change ("/" +:+ base) with (String "/" base).
  by rewrite (split_go_last "/" tap base "" Hbase).
Qed.
End split.

(** ** Lists of identifiers *)
Section identifier_lists.
Import models bluefin.

Lemma dedup_by_filter {A K : Type} `{Countable K} (key : A → K) (k : K) l :
  ∀ seen,
    dedup_by key l ({[k]} ∪ seen)
    = dedup_by key (filter (λ y, key y ≠ k) l) seen.
Proof.
  induction l as [|y l IH]; intros seen; [done|].
  destruct (decide (key y = k)) as [Heq|Hne].
  - rewrite filter_cons_False by (by intros ?). simpl.
    rewrite decide_True; [apply IH|].
    apply elem_of_union. left. by apply elem_of_singleton.
  - rewrite filter_cons_True by done. simpl.
    destruct (decide (key y ∈ seen)) as [Hin|Hnotin].
    + rewrite decide_True; [apply IH|]. apply elem_of_union. by right.
    + rewrite decide_False.
      2:{ intros [?%elem_of_singleton|?]%elem_of_union; done. }
      f_equal. rewrite <- IH. f_equal.
      rewrite !(assoc_L (∪)). by rewrite (comm_L (∪) {[key y]}).
Qed.

Lemma dedup_by_NoDup_id (l : list string) : ∀ seen,
  NoDup l → (∀ x, x ∈ l → x ∉ seen) → dedup_by id l seen = l.
Proof.
  induction l as [|x l IH]; intros seen Hnd Hseen; [done|].
  apply NoDup_cons in Hnd as [Hx Hnd]. simpl. change (id x) with x.
  rewrite decide_False by (apply Hseen; by left).
  f_equal. apply IH; [done|].
  intros y Hy [->%elem_of_singleton|Hin]%elem_of_union; [done|].
  by apply (Hseen y); [right|].
Qed.

(** X8. [deduplicate] returns every string of its argument exactly once, in
    the order of the first occurrences: the head stays in front and its
    later copies are dropped, the rest being deduplicated in the same way.
    It changes nothing in a list without repetition, so that applying it
    twice is applying it once. *)
Theorem X8_deduplicate_first_occurrences (items : list string) :
  NoDup (deduplicate items)
  ∧ (∀ x, x ∈ deduplicate items ↔ x ∈ items)
  ∧ sublist (deduplicate items) items
  ∧ match items with
    | [] => deduplicate items = []
    | x :: rest =>
        deduplicate items = x :: deduplicate (filter (λ y, y ≠ x) rest)
    end
  ∧ (NoDup items → deduplicate items = items)
  ∧ deduplicate (deduplicate items) = deduplicate items.
Proof.
  destruct (deduplicate_spec items) as (Hnd & Hin & Hsub).
  assert (Hid : ∀ l, NoDup l → deduplicate l = l).
  { intros l Hl. unfold deduplicate. rewrite deduplicate_loop_spec, app_nil_l.
    apply dedup_by_NoDup_id; [done|]. intros x _. apply not_elem_of_empty. }
  split; [done|]. split; [done|]. split; [done|]. split.
  { destruct items as [|x rest]; [done|].
    unfold deduplicate. rewrite !deduplicate_loop_spec, !app_nil_l. simpl.
    change (id x) with x. rewrite decide_False by apply not_elem_of_empty.
    f_equal. apply (dedup_by_filter id x rest ∅). }
  split; [apply Hid|]. by apply Hid.
Qed.

(** X9. [FetchFlatpakListWithAppSets] never returns an error. An entry is
    in its list exactly when its identifier was parsed from a Brewfile that
    could be fetched and its app set is the one of that Brewfile, [core] or
    [dx]; no identifier is empty or holds a double quote. [FetchFlatpakList]
    returns the identifiers of these entries, in the same order. When no
    Brewfile can be fetched the list is empty, and still no error is
    returned. *)
Theorem X9_flatpak_list (rt : Shuffle) (raw : string → HttpResult string) :
  ∃ infos,
    FetchFlatpakListWithAppSets rt raw = Ok infos
    ∧ FetchFlatpakList rt raw = Ok (map AppID infos)
    ∧ (∀ info,
         info ∈ infos
         ↔ ∃ brewfile content,
             flatpak_brewfiles !! brewfile = Some (AppSet info)
             ∧ fetchRawFile brewfile (raw (raw_url brewfile)) = Ok content
             ∧ AppID info ∈ parseFlatpakBrewfile content)
    ∧ Forall (λ info,
                (AppSet info = "core" ∨ AppSet info = "dx")
                ∧ AppID info ≠ "" ∧ free_of dquote (AppID info)) infos
    ∧ ((∀ brewfile, ∃ e, fetchRawFile brewfile (raw (raw_url brewfile)) = Err e)
       → infos = []).
Proof.
  assert (Hmem : ∀ info,
            info ∈ concat (map (flatpak_contribution raw)
                             (range rt flatpak_brewfiles))
            ↔ ∃ brewfile content,
                flatpak_brewfiles !! brewfile = Some (AppSet info)
                ∧ fetchRawFile brewfile (raw (raw_url brewfile)) = Ok content
                ∧ AppID info ∈ parseFlatpakBrewfile content).
  { intros info. rewrite elem_of_concat_map. split.
    - intros ([brewfile appSet] & Hentry%elem_of_range & Hinfo).
      unfold flatpak_contribution in Hinfo. cbn [fst snd] in Hinfo.
      destruct (fetchRawFile brewfile (raw (raw_url brewfile)))
        as [content|e] eqn:Hfetch; [|by apply elem_of_nil in Hinfo].
      apply list_elem_of_fmap in Hinfo as (appID & -> & HappID).
      by exists brewfile, content.
    - intros (brewfile & content & Hentry & Hfetch & HappID).
      exists (brewfile, AppSet info). split; [by apply elem_of_range|].
      unfold flatpak_contribution. cbn [fst snd]. rewrite Hfetch.
      apply list_elem_of_fmap. exists (AppID info). split; [|done].
      by destruct info. }
  exists (concat (map (flatpak_contribution raw) (range rt flatpak_brewfiles))).
  assert (Hrun : FetchFlatpakListWithAppSets rt raw
                 = Ok (concat (map (flatpak_contribution raw)
                                 (range rt flatpak_brewfiles)))).
  { unfold FetchFlatpakListWithAppSets. by rewrite flatpak_loop_spec. }
  split; [done|]. split; [unfold FetchFlatpakList; by rewrite Hrun|].
  split; [done|]. split.
  - apply Forall_forall. intros info (brewfile & content & Hset & _ & Hid)%Hmem.
    split.
    + unfold flatpak_brewfiles in Hset.
      apply lookup_insert_Some in Hset as [[_ <-]|[_ Hset]]; [by left|].
      apply lookup_insert_Some in Hset as [[_ <-]|[_ Hset]]; [by right|].
      by rewrite lookup_empty in Hset.
    + pose proof (parse_brewfile_sound "flatpak" content) as Hsound.
      rewrite Forall_forall in Hsound.
      by destruct (Hsound _ Hid) as (Hne & Hq & _).
  - intros Hfail.
    destruct (concat _) as [|info infos] eqn:Hinfos; [done|].
    assert (Hin : info ∈ info :: infos) by by left.
    apply Hmem in Hin as (brewfile & content & _ & Hfetch & _).
    destruct (Hfail brewfile) as [e He]. congruence.
Qed.

(** X10. [fetchHomebrewPackageMetadata] asks the Homebrew API nothing about
    a package name with a slash: whatever the upstream would answer, the
    result is the minimal record. In general, a record it returns is of type
    [homebrew], has an identifier that starts with [homebrew-], carries its
    Homebrew information and has no release. It returns neither record nor
    error only for a formula that the API gave with status 200 and that is
    deprecated, disabled, or has bottles none of which is for Linux. It
    returns an error only for a name without a slash. *)
Theorem X10_homebrew_metadata_outcomes (now : Z) (packageName : string)
    (resp : HttpResult (result HomebrewFormula)) :
  (strings.Contains packageName "/" = true →
   fetchHomebrewPackageMetadata now packageName resp
   = Ok (Some (createMinimalHomebrewApp now packageName)))
  ∧ match fetchHomebrewPackageMetadata now packageName resp with
    | Ok (Some app) =>
        PackageType app = "homebrew"
        ∧ strings.HasPrefix (ID app) "homebrew-" = true
        ∧ is_Some (AppHomebrewInfo app)
        ∧ Releases app = []
    | Ok None =>
        ∃ formula,
          resp = Response StatusOK (Payload (Ok formula))
          ∧ (Deprecated formula = true ∨ Disabled formula = true
             ∨ ∃ bottle, Bottle formula = Some bottle
                 ∧ ∀ filename, filename ∈ bottle →
                     strings.Contains filename "linux" = false)
    | Err _ => strings.Contains packageName "/" = false
    end.
Proof.
  assert (Hminimal : ∀ name,
            let app := createMinimalHomebrewApp now name in
            PackageType app = "homebrew"
            ∧ strings.HasPrefix (ID app) "homebrew-" = true
            ∧ is_Some (AppHomebrewInfo app) ∧ Releases app = []).
  { intros name. split; [done|]. split; [apply HasPrefix_append|].
    split; [by eexists|done]. }
  unfold fetchHomebrewPackageMetadata.
  destruct (strings.Contains packageName "/") eqn:Hslash.
  { split; [done|]. apply Hminimal. }
  split; [done|].
  destruct resp as [err|err|StatusCode [err|[formula|err]]]; try done.
  - simpl. destruct (StatusCode =? StatusNotFound); [apply Hminimal|].
    by destruct (negb (StatusCode =? StatusOK)).
  - simpl. destruct (StatusCode =? StatusNotFound) eqn:H404; [apply Hminimal|].
    destruct (negb (StatusCode =? StatusOK)) eqn:H200; [done|].
    apply negb_false_iff, Z.eqb_eq in H200 as ->.
    destruct (Deprecated formula) eqn:Hdep.
    { exists formula. split; [done|]. by left. }
    destruct (Disabled formula) eqn:Hdis.
    { exists formula. split; [done|]. by right; left. }
    simpl.
    destruct (isLinuxCompatible formula) eqn:Hlinux; simpl.
    + split; [done|]. split; [apply HasPrefix_append|].
      split; [by eexists|done].
    + exists formula. split; [done|]. right; right.
      unfold isLinuxCompatible in Hlinux.
      destruct (Bottle formula) as [bottle|]; [|done].
      exists bottle. split; [done|]. intros filename Hin.
      destruct (strings.Contains filename "linux") eqn:Hc; [|done].
      assert (existsb (λ f, strings.Contains f "linux") (elements bottle) = true)
        as Hex; [|congruence].
      apply existsb_exists. exists filename. split; [|done].
      apply list_elem_of_In, elem_of_elements. done.
  - simpl. destruct (StatusCode =? StatusNotFound); [apply Hminimal|].
    by destruct (negb (StatusCode =? StatusOK)).
Qed.
End identifier_lists.

(** ** Flathub records *)
Section flathub_records.
Import models flathub mozilla.
Context `{!Externals}.

Lemma extractGitHubRepo_URL url :
  Type_ (extractGitHubRepo url) = "github" ∧ URL (extractGitHubRepo url) = url.
Proof. unfold extractGitHubRepo. by destruct (_ <? _)%nat. Qed.

Lemma range_nil {V : Type} (rt : Shuffle) (m : gmap string V) :
  range rt m = [] → m = ∅.
Proof.
  intros Hnil. apply map_to_list_empty_iff. apply Permutation_nil_r.
  rewrite <- Hnil. unfold range. symmetry. apply shuffle_perm.
Qed.

(** X11. The repository [ExtractSourceRepo] returns has for URL a value of
    the URL map of the details that is not empty: the one under [homepage]
    when there is one, else the one under [bugtracker] when there is one. Its
    type is [github] when the URL reads [github.com], else [gitlab] when it
    reads [gitlab.com], else [other], and only a GitHub repository has an
    owner and a name. No repository is returned when the map is empty or has
    an empty value; in particular an empty [homepage] gives none, whatever
    the other entries are. *)
Theorem X11_ExtractSourceRepo_priority (rt : Shuffle)
    (details : option FlathubAppDetails) :
  match ExtractSourceRepo rt details with
  | Some repo =>
      ∃ d urls key,
        details = Some d ∧ URLs d = Some urls
        ∧ urls !! key = Some (URL repo) ∧ URL repo ≠ ""
        ∧ (∀ homepage, urls !! "homepage" = Some homepage → URL repo = homepage)
        ∧ (urls !! "homepage" = None →
           ∀ bugtracker, urls !! "bugtracker" = Some bugtracker →
             URL repo = bugtracker)
        ∧ Type_ repo
          = (if strings.Contains (URL repo) "github.com" then "github"
             else if strings.Contains (URL repo) "gitlab.com" then "gitlab"
             else "other")
        ∧ (Type_ repo ≠ "github" → Owner repo = "" ∧ Repo repo = "")
  | None =>
      ∀ d urls, details = Some d → URLs d = Some urls →
        urls = ∅ ∨ ∃ key, urls !! key = Some ""
  end
  ∧ (∀ d urls, details = Some d → URLs d = Some urls →
       urls !! "homepage" = Some "" → ExtractSourceRepo rt details = None).
Proof.
  split.
  2:{ intros d urls -> Hurls Hhome. unfold ExtractSourceRepo.
      by rewrite Hurls, Hhome. }
  unfold ExtractSourceRepo.
  destruct details as [d|]; [|by intros ? ? [=]].
  destruct (URLs d) as [urls|] eqn:Hurls; [|intros ? ? [= <-] ?; congruence].
  set (repoURL := match urls !! "homepage" with
                  | Some homepage => homepage
                  | None => _
                  end).
  assert (Hpick : (repoURL = "" ∧ urls = ∅)
                  ∨ ∃ key, urls !! key = Some repoURL
                      ∧ (∀ homepage, urls !! "homepage" = Some homepage →
                           repoURL = homepage)
                      ∧ (urls !! "homepage" = None →
                         ∀ bugtracker, urls !! "bugtracker" = Some bugtracker →
                           repoURL = bugtracker)).
  { subst repoURL.
    destruct (urls !! "homepage") as [homepage|] eqn:Hhome.
    { right. exists "homepage". split; [done|]. split; [by intros ? [= ->]|done]. }
    destruct (urls !! "bugtracker") as [bugtracker|] eqn:Hbug.
    { right. exists "bugtracker". split; [done|]. split; [done|].
      by intros _ ? [= ->]. }
    destruct (range rt urls) as [|[key url] rest] eqn:Hrange.
    { left. split; [done|]. by apply (range_nil rt). }
    right. exists key. split; [|done].
    apply (elem_of_range rt). rewrite Hrange. by left. }
  clearbody repoURL.
  destruct (String.eqb_spec repoURL "") as [->|Hne].
  { intros d' urls' [= <-] Hurls'. rewrite Hurls in Hurls'.
    injection Hurls' as <-.
    destruct Hpick as [[_ ->]|(key & Hkey & _)]; [by left|].
    right. by exists key. }
  destruct Hpick as [[? _]|(key & Hkey & Hhome & Hbug)]; [done|].
  destruct (strings.Contains repoURL "github.com") eqn:Hgithub.
  { destruct (extractGitHubRepo_URL repoURL) as [Htype Hurl].
    exists d, urls, key. rewrite Hurl, Hgithub. done. }
  destruct (strings.Contains repoURL "gitlab.com") eqn:Hgitlab.
  { exists d, urls, key. cbn [URL Type_ Owner Repo]. rewrite Hgithub, Hgitlab.
    done. }
  exists d, urls, key. cbn [URL Type_ Owner Repo]. rewrite Hgithub, Hgitlab.
  done.
Qed.

(** X12. With the feed in hand [FetchAllApps] returns [min 50 n] records for
    a feed of [n] entries. Each record comes from one of the first 50
    entries: it has the identifier, name, summary and current version of the
    entry, its Flathub address is [https://flathub.org/apps/] followed by the
    identifier, and each of its releases is of type [appstream], titled
    [Version] followed by its version, without URL. When
    the details of the entry are found, the record has their description and
    one release for each of their release entries, in the same order;
    otherwise it has no description, no repository and no release. Without
    the feed there is no result: the run is ended. *)
Theorem X12_FetchAllApps_records (w : World) :
  match FetchAllApps w with
  | Fatal _ => ∃ e, FetchRecentlyUpdated (feed w) = Err e
  | Returns res =>
      ∃ flathubApps,
        FetchRecentlyUpdated (feed w) = Ok flathubApps
        ∧ length (Apps res) = Nat.min 50 (length flathubApps)
        ∧ Forall (λ app,
            ∃ fa, fa ∈ take 50 flathubApps
              ∧ ID app = FlathubApp_ID fa
              ∧ Name app = FlathubApp_Name fa
              ∧ Summary app = FlathubApp_Summary fa
              ∧ AppVersion app = CurrentReleaseVersion fa
              ∧ FlathubURL app = "https://flathub.org/apps/" +:+ ID app
              ∧ Forall (λ r, ReleaseType r = "appstream"
                             ∧ Title r = "Version " +:+ Version r
                             ∧ ReleaseURL r = "") (Releases app)
              ∧ match FetchAppDetails (appstream w (FlathubApp_ID fa)) with
                | Ok (Some details) =>
                    AppDescription app = Details_Description details
                    ∧ map Version (Releases app)
                      = map Entry_Version (Details_Releases details)
                | _ =>
                    AppDescription app = "" ∧ AppSourceRepo app = None
                    ∧ Releases app = []
                end) (Apps res)
  end.
Proof.
  unfold FetchAllApps.
  destruct (FetchRecentlyUpdated (feed w)) as [flathubApps|e]; [|by exists e].
  rewrite appsToFetch_take. exists flathubApps. split; [done|].
  cbn [Apps]. split.
  { rewrite shuffle_perm, length_imap, length_take. lia. }
  apply Forall_forall. intros app Happ. rewrite shuffle_perm in Happ.
  apply elem_of_lookup_imap in Happ as (i & fa & -> & Hfa).
  exists fa. split; [by eapply list_elem_of_lookup_2|].
  unfold enrichApp.
  destruct (FetchAppDetails (appstream w (FlathubApp_ID fa)))
    as [[details|]|e]; cbn [ID Name Summary AppVersion FlathubURL
                             Releases AppDescription AppSourceRepo];
    try (repeat split; try apply Forall_nil; done).
  assert (Hreleases :
            (if (0 <? length (Details_Releases details))%nat
             then ConvertFlathubReleases (λ j, clock w i (S j))
                    (Details_Releases details)
             else [])
            = imap (λ j, convert_entry (clock w i (S j)))
                (Details_Releases details)).
  { rewrite ConvertFlathubReleases_imap.
    by destruct (Details_Releases details). }
  rewrite Hreleases. repeat (split; [done|]). split.
  - apply Forall_forall.
    by intros r (j & entry & -> & _)%elem_of_lookup_imap.
  - split; [done|]. change (map ?f ?l) with (f <$> l).
    rewrite fmap_imap, <- (imap_const Entry_Version). by apply imap_ext.
Qed.

Lemma set_Releases_same app : set_Releases app (Releases app) = app.
Proof. by destruct app. Qed.

Lemma enrich_one_set firefox thunderbird app :
  enrich_one firefox thunderbird app
  = set_Releases app (Releases (enrich_one firefox thunderbird app)).
Proof.
  unfold enrich_one.
  destruct (String.eqb (ID app) "org.mozilla.firefox");
    [destruct firefox; by rewrite ?set_Releases_same|].
  destruct (String.eqb (ID app) "org.mozilla.Thunderbird");
    [destruct thunderbird; by rewrite ?set_Releases_same|].
  by rewrite set_Releases_same.
Qed.

(** X13. [EnrichWithMozillaReleases] returns as many records as it is
    given, in the same order, and changes nothing but release lists. The
    record at a position is the one given when its identifier is neither
    [org.mozilla.firefox] nor [org.mozilla.Thunderbird], and when the fetch
    for its product failed; otherwise its releases are the fetched ones,
    those it had being dropped. Enriching a second time with the same
    answers changes nothing. *)
Theorem X13_mozilla_enrichment (firefox thunderbird : result (list Release))
    (apps : list App) :
  length (EnrichWithMozillaReleases firefox thunderbird apps) = length apps
  ∧ (∀ i app, apps !! i = Some app →
       ∃ app', EnrichWithMozillaReleases firefox thunderbird apps !! i = Some app'
         ∧ app' = set_Releases app (Releases app')
         ∧ (if String.eqb (ID app) "org.mozilla.firefox"
            then match firefox with
                 | Ok releases => Releases app' = releases
                 | Err _ => app' = app
                 end
            else if String.eqb (ID app) "org.mozilla.Thunderbird"
            then match thunderbird with
                 | Ok releases => Releases app' = releases
                 | Err _ => app' = app
                 end
            else app' = app))
  ∧ EnrichWithMozillaReleases firefox thunderbird
      (EnrichWithMozillaReleases firefox thunderbird apps)
    = EnrichWithMozillaReleases firefox thunderbird apps.
Proof.
  unfold EnrichWithMozillaReleases. split; [by rewrite length_map|]. split.
  - intros i app Hi. exists (enrich_one firefox thunderbird app). split.
    { change (map ?f ?l) with (f <$> l). by rewrite list_lookup_fmap, Hi. }
    split; [apply enrich_one_set|].
    unfold enrich_one.
    destruct (String.eqb (ID app) "org.mozilla.firefox");
      [by destruct firefox|].
    destruct (String.eqb (ID app) "org.mozilla.Thunderbird");
      [by destruct thunderbird|done].
  - rewrite map_map. apply map_ext. intros app.
    unfold enrich_one at 1. rewrite enrich_one_ID.
    destruct (String.eqb (ID app) "org.mozilla.firefox") eqn:Hf.
    { unfold enrich_one. rewrite Hf. by destruct firefox. }
    destruct (String.eqb (ID app) "org.mozilla.Thunderbird") eqn:Ht; [|done].
    unfold enrich_one. rewrite Hf, Ht. by destruct thunderbird.
Qed.
End flathub_records.

(** ** Homebrew records and OS information *)
Section homebrew_records.
Import models bluefin bluefin_lts.
Context `{!Externals}.

Lemma Contains_unfold s w :
  strings.Contains s w
  = if strings.HasPrefix s w then true
    else match s with
         | EmptyString => false
         | String _ s' => strings.Contains s' w
         end.
Proof. by destruct s. Qed.

Lemma Contains_occurs s w : occurs_in w s → strings.Contains s w = true.
Proof.
  intros (before & after & ->).
  induction before as [|x before IH].
  - by rewrite append_nil_l, Contains_unfold, HasPrefix_append.
  - rewrite append_cons, Contains_unfold.
    by destruct (strings.HasPrefix _ _).
Qed.

Lemma HasPrefix_drop s : ∀ p,
  strings.HasPrefix s p = true → s = p +:+ strings.drop (String.length p) s.
Proof.
  induction s as [|c s IH]; intros [|x p]; simpl; try done.
  destruct (Ascii.eqb_spec c x) as [->|]; [|done].
  intros Hp. rewrite append_cons. f_equal. by apply IH.
Qed.

Lemma extractGitHubRepoFromURL_github urlStr repo :
  extractGitHubRepoFromURL urlStr = Some repo →
  strings.Contains urlStr "github.com" = true
  ∧ Type_ repo = "github"
  ∧ URL repo = "https://github.com/" +:+ Owner repo +:+ "/" +:+ Repo repo.
Proof.
  unfold extractGitHubRepoFromURL.
  destruct (FindStringSubmatch_sound github_url_re urlStr)
    as [->|(before & w & after & caps & Hurl & Hm & ->)]; [done|].
  apply github_url_re_match in Hm
    as (sep & owner & repo' & -> & -> & _). simpl. intros [= <-].
  split; [|done]. apply Contains_occurs.
  exists before, (String sep (owner +:+ "/" +:+ repo') +:+ after).
  by rewrite Hurl, append_assoc.
Qed.

(** X14. The record [convertHomebrewFormulaToApp] builds has the
    identifier [homebrew-] followed by the name of the formula, and for name
    the name of the formula without a leading [homebrew-]. Its source
    repository is what [extractGitHubRepoFromURL] reads off the stable URL
    when that is not empty, what it reads off the homepage when the stable
    URL is empty and the homepage reads [github.com], and none otherwise: a
    formula whose stable URL does not read [github.com] gets no repository,
    whatever its homepage is. A repository that is recorded is of type
    [github], with the address [https://github.com/OWNER/NAME], and the
    address it was read off reads [github.com]. *)
Theorem X14_homebrew_formula_record (now : Z) (formula : HomebrewFormula) :
  ID (convertHomebrewFormulaToApp now formula)
  = "homebrew-" +:+ Formula_Name formula
  ∧ (if strings.HasPrefix (Formula_Name formula) "homebrew-"
     then Formula_Name formula
          = "homebrew-" +:+ Name (convertHomebrewFormulaToApp now formula)
     else Name (convertHomebrewFormulaToApp now formula) = Formula_Name formula)
  ∧ AppVersion (convertHomebrewFormulaToApp now formula)
    = Versions_Stable formula
  ∧ AppSourceRepo (convertHomebrewFormulaToApp now formula)
    = (if String.eqb (URLs_Stable_URL formula) ""
       then if strings.Contains (Formula_Homepage formula) "github.com"
            then extractGitHubRepoFromURL (Formula_Homepage formula)
            else None
       else extractGitHubRepoFromURL (URLs_Stable_URL formula))
  ∧ (if String.eqb (URLs_Stable_URL formula) ""
     then strings.Contains (Formula_Homepage formula) "github.com" = false →
          AppSourceRepo (convertHomebrewFormulaToApp now formula) = None
     else strings.Contains (URLs_Stable_URL formula) "github.com" = false →
          AppSourceRepo (convertHomebrewFormulaToApp now formula) = None)
  ∧ match AppSourceRepo (convertHomebrewFormulaToApp now formula) with
    | None => True
    | Some repo =>
        Type_ repo = "github"
        ∧ URL repo = "https://github.com/" +:+ Owner repo +:+ "/" +:+ Repo repo
        ∧ extractGitHubRepoFromURL
            (if String.eqb (URLs_Stable_URL formula) ""
             then Formula_Homepage formula else URLs_Stable_URL formula)
          = Some repo
    end.
Proof.
  split; [done|]. split.
  { change (Name (convertHomebrewFormulaToApp now formula))
      with (strings.TrimPrefix (Formula_Name formula) "homebrew-").
    unfold strings.TrimPrefix.
    destruct (strings.HasPrefix (Formula_Name formula) "homebrew-") eqn:Hp;
      [|done].
    by apply HasPrefix_drop. }
  split; [done|].
  change (AppSourceRepo (convertHomebrewFormulaToApp now formula))
    with (if negb (String.eqb (URLs_Stable_URL formula) "")
          then extractGitHubRepoFromURL (URLs_Stable_URL formula)
          else if negb (String.eqb (Formula_Homepage formula) "")
                  && strings.Contains (Formula_Homepage formula) "github.com"
          then extractGitHubRepoFromURL (Formula_Homepage formula)
          else None).
  destruct (String.eqb (URLs_Stable_URL formula) "") eqn:Hstable; simpl.
  - assert (Hhomepage :
              negb (String.eqb (Formula_Homepage formula) "")
              && strings.Contains (Formula_Homepage formula) "github.com"
              = strings.Contains (Formula_Homepage formula) "github.com").
    { by destruct (String.eqb_spec (Formula_Homepage formula) "") as [->|]. }
    rewrite Hhomepage. clear Hhomepage.
    split; [done|]. split; [by intros ->|].
    destruct (strings.Contains (Formula_Homepage formula) "github.com");
      [|done].
    destruct (extractGitHubRepoFromURL (Formula_Homepage formula))
      as [repo|] eqn:Hrepo; [|done].
    by destruct (extractGitHubRepoFromURL_github _ _ Hrepo) as (_ & ? & ?).
  - split; [done|].
    destruct (extractGitHubRepoFromURL (URLs_Stable_URL formula))
      as [repo|] eqn:Hrepo; [|done].
    destruct (extractGitHubRepoFromURL_github _ _ Hrepo) as (Hc & ? & ?).
    split; [|done]. intros Hno. congruence.
Qed.

Lemma homebrew_record_shape now name resp app :
  fetchHomebrewPackageMetadata now name resp = Ok (Some app) →
  PackageType app = "homebrew"
  ∧ strings.HasPrefix (ID app) "homebrew-" = true
  ∧ is_Some (AppHomebrewInfo app) ∧ Releases app = [] ∧ AppOSInfo app = None.
Proof.
  assert (Hshape : ∀ id name' summary description version sourceRepo info,
            let app := homebrew_app ("homebrew-" +:+ id) name' summary
                         description version sourceRepo now info in
            PackageType app = "homebrew"
            ∧ strings.HasPrefix (ID app) "homebrew-" = true
            ∧ is_Some (AppHomebrewInfo app) ∧ Releases app = []
            ∧ AppOSInfo app = None).
  { intros. split; [done|]. split; [apply HasPrefix_append|].
    split; [by eexists|done]. }
  unfold fetchHomebrewPackageMetadata.
  destruct (strings.Contains name "/"); [intros [= <-]; apply Hshape|].
  destruct resp as [err|err|StatusCode [err|[formula|err]]]; try done;
    destruct (StatusCode =? StatusNotFound);
    try (intros [= <-]; apply Hshape);
    destruct (negb (StatusCode =? StatusOK)); try done.
  destruct (Deprecated formula || Disabled formula); [done|].
  destruct (negb (isLinuxCompatible formula)); [done|].
  intros [= <-]. apply Hshape.
Qed.

(** X15. [FetchHomebrewPackages] returns no error. Each record it returns
    is what [fetchHomebrewPackageMetadata] gave for one name of the list of
    [FetchHomebrewList]: it is of type [homebrew], its identifier starts with
    [homebrew-], it carries its Homebrew information and has no release. A
    name whose metadata cannot be fetched costs its own record only: every
    name with a slash, and every name the Homebrew API answers with 404,
    has its minimal record in the result. *)
Theorem X15_FetchHomebrewPackages_records (w : HomebrewWorld) :
  ∃ names apps,
    FetchHomebrewList (raw w) = Ok names
    ∧ FetchHomebrewPackages w = Ok apps
    ∧ (∀ app, app ∈ apps ↔
         ∃ i name, names !! i = Some name
           ∧ fetchHomebrewPackageMetadata (brew_clock w i) name (formulae w name)
             = Ok (Some app))
    ∧ Forall (λ app,
                PackageType app = "homebrew"
                ∧ strings.HasPrefix (ID app) "homebrew-" = true
                ∧ is_Some (AppHomebrewInfo app) ∧ Releases app = []
                ∧ AppOSInfo app = None) apps
    ∧ (∀ i name, names !! i = Some name →
         strings.Contains name "/" = true
         ∨ (∃ body, formulae w name = Response StatusNotFound body) →
         createMinimalHomebrewApp (brew_clock w i) name ∈ apps).
Proof.
  unfold FetchHomebrewPackages.
  destruct (FetchHomebrewList (raw w)) as [names|e] eqn:Hlist.
  2:{ unfold FetchHomebrewList in Hlist. done. }
  exists names. eexists. split; [done|]. split; [reflexivity|].
  assert (Hmem : ∀ app,
            app ∈ shuffle (brew_sched w) (omap id (imap (homebrew_worker w) names))
            ↔ ∃ i name, names !! i = Some name
                ∧ fetchHomebrewPackageMetadata (brew_clock w i) name
                    (formulae w name) = Ok (Some app)).
  { intros app. rewrite shuffle_perm, list_elem_of_omap. split.
    - intros (o & (i & name & -> & Hi)%elem_of_lookup_imap & Ho).
      exists i, name. split; [done|]. unfold homebrew_worker, id in Ho.
      destruct (fetchHomebrewPackageMetadata _ _ _) as [o|]; [|done].
      by rewrite Ho.
    - intros (i & name & Hi & Hfetch). exists (Some app). split; [|done].
      apply elem_of_lookup_imap. exists i, name. split; [|done].
      unfold homebrew_worker. by rewrite Hfetch. }
  split; [done|]. split.
  - apply Forall_forall. intros app (i & name & _ & Hfetch)%Hmem.
    by eapply homebrew_record_shape.
  - intros i name Hi Hcase. apply Hmem. exists i, name. split; [done|].
    unfold fetchHomebrewPackageMetadata.
    destruct (strings.Contains name "/"); [done|].
    destruct Hcase as [?|[body ->]]; done.
Qed.

Lemma major_packages_add (body name : string) (names : list string)
    (m : gmap string string) :
  (∀ k v, m !! k = Some v
          ↔ k ∈ names ∧ v = extractPackageVersion body k ∧ v ≠ "") →
  ∀ k v,
    (if negb (String.eqb (extractPackageVersion body name) "")
     then <[name := extractPackageVersion body name]> m else m) !! k = Some v
    ↔ k ∈ name :: names ∧ v = extractPackageVersion body k ∧ v ≠ "".
Proof.
  intros Hm k v.
  destruct (String.eqb_spec (extractPackageVersion body name) "") as [He|Hne];
    simpl.
  - rewrite Hm. split.
    + intros (? & ? & ?). split; [by right|done].
    + intros ([->|?]%elem_of_cons & Hv & Hne); [congruence|done].
  - rewrite lookup_insert_Some, Hm. split.
    + intros [[<- <-]|(? & ? & ? & ?)]; [split; [by left|done]|].
      split; [by right|done].
    + intros (Hk & -> & Hv).
      destruct (decide (name = k)) as [->|Hnk]; [by left|].
      right. apply elem_of_cons in Hk as [->|Hk]; done.
Qed.

(** X16. In the information [parseOSInfo] and [parseLTSInfo] read off a
    release, the map of major packages has an entry exactly for those of
    Podman, Nvidia, Docker and Incus for which a version is found in the
    body, and the entry is that version: no package is mapped to the empty
    string. The two functions read the same packages, kernel, GNOME and Mesa
    versions and commit hash; [parseLTSInfo] always gives the stream [lts],
    the image [ghcr.io/ublue-os/bluefin:lts] and no Fedora version, and
    [parseOSInfo] gives no CentOS version. *)
Theorem X16_major_packages (release : GitHubRelease) :
  (∀ name ver,
     MajorPackages (parseOSInfo release) !! name = Some ver
     ↔ name ∈ major_package_names
       ∧ ver = extractPackageVersion (GH_Body release) name ∧ ver ≠ "")
  ∧ MajorPackages (parseLTSInfo release) = MajorPackages (parseOSInfo release)
  ∧ KernelVersion (parseLTSInfo release) = KernelVersion (parseOSInfo release)
  ∧ GnomeVersion (parseLTSInfo release) = GnomeVersion (parseOSInfo release)
  ∧ MesaVersion (parseLTSInfo release) = MesaVersion (parseOSInfo release)
  ∧ CommitHash (parseLTSInfo release) = CommitHash (parseOSInfo release)
  ∧ Stream (parseLTSInfo release) = "lts"
  ∧ ImageName (parseLTSInfo release) = "ghcr.io/ublue-os/bluefin:lts"
  ∧ FedoraVersion (parseLTSInfo release) = ""
  ∧ CentOSVersion (parseOSInfo release) = "".
Proof.
  split; [|done].
  assert (Hall : ∀ name ver,
            MajorPackages (parseOSInfo release) !! name = Some ver
            ↔ name ∈ ["Incus"; "Docker"; "Nvidia"; "Podman"]
              ∧ ver = extractPackageVersion (GH_Body release) name ∧ ver ≠ "").
  { unfold parseOSInfo. cbn [MajorPackages].
    do 4 apply major_packages_add.
    intros k v. rewrite lookup_empty. split; [done|].
    by intros [?%elem_of_nil _]. }
  intros name ver. rewrite Hall. unfold major_package_names. clear Hall.
  split; intros (Hin & Hrest); (split; [|exact Hrest]);
    rewrite !elem_of_cons in Hin; rewrite !elem_of_cons;
    destruct Hin as [?|[?|[?|[?|Hnil]]]]; auto 10;
    by apply elem_of_nil in Hnil.
Qed.

(** X17. The Fedora version [parseOSInfo] reads off the name of a release
    is empty, or a run of decimal digits that the name holds between an [F]
    and a dot followed by a digit. The CentOS version [parseLTSInfo] reads is
    empty, or a run of decimal digits that the name holds between a [c] and
    an [s]. The commit hash is empty, or a run of digits and of the letters
    [a] to [f] that follows a [#] in the name. *)
Theorem X17_versions_read_off_the_name (release : GitHubRelease) :
  (FedoraVersion (parseOSInfo release) = ""
   ∨ (FedoraVersion (parseOSInfo release) ≠ ""
      ∧ all_bytes regexp.digit (FedoraVersion (parseOSInfo release)) = true
      ∧ ∃ ds, ds ≠ "" ∧ all_bytes regexp.digit ds = true
              ∧ occurs_in ("F" +:+ FedoraVersion (parseOSInfo release)
                               +:+ "." +:+ ds)
                          (GH_Name release)))
  ∧ (CentOSVersion (parseLTSInfo release) = ""
     ∨ (CentOSVersion (parseLTSInfo release) ≠ ""
        ∧ all_bytes regexp.digit (CentOSVersion (parseLTSInfo release)) = true
        ∧ occurs_in ("c" +:+ CentOSVersion (parseLTSInfo release) +:+ "s")
                    (GH_Name release)))
  ∧ (CommitHash (parseOSInfo release) = ""
     ∨ (CommitHash (parseOSInfo release) ≠ ""
        ∧ all_bytes (λ c, regexp.digit c
                          || ((97 <=? nat_of_ascii c)%nat
                              && (nat_of_ascii c <=? 102)%nat))
            (CommitHash (parseOSInfo release)) = true
        ∧ occurs_in ("#" +:+ CommitHash (parseOSInfo release))
                    (GH_Name release))).
Proof.
  split; [|split].
  - change (FedoraVersion (parseOSInfo release))
      with (if (1 <? length (regexp.FindStringSubmatch fedora_re
                               (GH_Name release)))%nat
            then default "" (regexp.FindStringSubmatch fedora_re
                               (GH_Name release) !! 1%nat)
            else "").
    destruct (FindStringSubmatch_sound fedora_re (GH_Name release))
      as [->|(before & w & after & caps & Hname & Hm & ->)]; [by left|].
    unfold fedora_re in Hm. invert_matches. simpl. right.
    split; [done|]. split; [done|].
    eexists. split; [|split]; cycle 2.
    { exists before, after. exact Hname. }
    all: done.
  - change (CentOSVersion (parseLTSInfo release))
      with (if (1 <? length (regexp.FindStringSubmatch centos_re
                               (GH_Name release)))%nat
            then default "" (regexp.FindStringSubmatch centos_re
                               (GH_Name release) !! 1%nat)
            else "").
    destruct (FindStringSubmatch_sound centos_re (GH_Name release))
      as [->|(before & w & after & caps & Hname & Hm & ->)]; [by left|].
    unfold centos_re in Hm. invert_matches. simpl. right.
    split; [done|]. split; [done|]. by exists before, after.
  - change (CommitHash (parseOSInfo release))
      with (if (1 <? length (regexp.FindStringSubmatch commit_re
                               (GH_Name release)))%nat
            then default "" (regexp.FindStringSubmatch commit_re
                               (GH_Name release) !! 1%nat)
            else "").
    destruct (FindStringSubmatch_sound commit_re (GH_Name release))
      as [->|(before & w & after & caps & Hname & Hm & ->)]; [by left|].
    unfold commit_re in Hm. invert_matches. simpl. right.
    split; [done|]. split; [done|]. by exists before, after.
Qed.

End homebrew_records.

(** ** The LTS fetcher, the feed parser and the taps *)
Section lts.
Import models bluefin bluefin_lts.
Context `{!Externals}.

Lemma latest_lts_loop_spec l : ∀ seen latest,
  first_latest seen latest →
  first_latest (seen ++ published l) (latest_lts_loop l latest).
Proof.
  induction l as [|g l IH]; intros seen latest Hinv.
  - simpl. by rewrite app_nil_r.
  - simpl. destruct (Draft g || Prerelease g) eqn:Hd.
    + rewrite published_cons_skip by done. by apply IH.
    + rewrite published_cons_keep by done.
      replace (seen ++ g :: published l) with ((seen ++ [g]) ++ published l)
        by (by rewrite <- app_assoc).
      pose proof (first_latest_step seen latest g Hinv) as Hstep.
      destruct latest as [latest|]; [|by apply IH].
      destruct (PublishedAt latest <? PublishedAt g); by apply IH.
Qed.

(** X18. [FetchBluefinLTSApps] fails exactly when the list of releases
    cannot be fetched, with the error of the fetch. Otherwise it returns at
    most one record: none when every release is a draft or a pre-release,
    and else the record [bluefin-os-lts], named [Bluefin LTS], of type [os]
    and stream [lts], built from the published release with the latest
    publication date, which is the first one in the list among those of that
    date; its one release has the tag of that release for version. *)
Theorem X18_lts_latest_release (now : Z)
    (resp : HttpResult (result (list GitHubRelease))) :
  match FetchBluefinLTSApps now resp with
  | Err e => fetch_github_releases resp = Err e
  | Ok apps =>
      ∃ githubReleases,
        fetch_github_releases resp = Ok githubReleases
        ∧ match apps with
          | [] => published githubReleases = []
          | [app] =>
              ∃ before latest after,
                published githubReleases = before ++ latest :: after
                ∧ (∀ g, g ∈ before → PublishedAt g < PublishedAt latest)
                ∧ (∀ g, g ∈ after → PublishedAt g ≤ PublishedAt latest)
                ∧ ID app = "bluefin-os-lts" ∧ Name app = "Bluefin LTS"
                ∧ PackageType app = "os"
                ∧ AppVersion app = TagName latest
                ∧ AppDescription app = GH_Body latest
                ∧ AppOSInfo app = Some (parseLTSInfo latest)
                ∧ Releases app = [to_release latest]
          | _ => False
          end
  end.
Proof.
  unfold FetchBluefinLTSApps.
  destruct (fetch_github_releases resp) as [githubReleases|e]; [|done].
  pose proof (latest_lts_loop_spec githubReleases [] None eq_refl) as Hinv.
  rewrite app_nil_l in Hinv.
  destruct (latest_lts_loop githubReleases None) as [latest|];
    exists githubReleases; (split; [done|]); [|done].
  unfold first_latest in Hinv.
  destruct Hinv as (before & after & Hpub & Hbefore & Hafter).
  exists before, latest, after. done.
Qed.
End lts.

Section feeds.
Import models rss.

Lemma convert_items_loop_spec now releaseType items : ∀ releases,
  convert_items_loop now releaseType items releases
  = releases
    ++ imap (λ i, convert_item (now (length releases + i)%nat) releaseType)
         items.
Proof.
  induction items as [|item items IH]; intros releases; simpl.
  - by rewrite app_nil_r.
  - rewrite IH, <- app_assoc, length_app. simpl.
    rewrite Nat.add_0_r. do 2 f_equal.
    apply imap_ext. intros i item' _. simpl. do 2 f_equal. lia.
Qed.

(** X19. [extractVersion] never returns the empty string. It returns the
    whole title when the title starts with [v] or [V]; otherwise the GUID
    when that is not empty; otherwise [unknown]. *)
Theorem X19_extractVersion_never_empty (item : Item) :
  extractVersion item ≠ ""
  ∧ ((starts_with_v (Item_Title item) = true
      ∧ extractVersion item = Item_Title item)
     ∨ (starts_with_v (Item_Title item) = false ∧ GUID item ≠ ""
        ∧ extractVersion item = GUID item)
     ∨ (starts_with_v (Item_Title item) = false ∧ GUID item = ""
        ∧ extractVersion item = "unknown")).
Proof.
  unfold extractVersion.
  destruct (Item_Title item) as [|c title] eqn:Htitle; simpl.
  - destruct (String.eqb_spec (GUID item) "") as [Hguid|Hguid]; simpl.
    + split; [done|]. right; right. done.
    + split; [done|]. right; left. done.
  - destruct (Ascii.eqb c "v" || Ascii.eqb c "V") eqn:Hv.
    + split; [done|]. by left.
    + destruct (String.eqb_spec (GUID item) "") as [Hguid|Hguid]; simpl.
      * split; [done|]. right; right. done.
      * split; [done|]. right; left. done.
Qed.

(** X20. [FetchGitHubReleases] asks for the feed
    [https://github.com/OWNER/REPO/releases.atom]. When the feed cannot be
    parsed it returns an error whose message is that of the parser behind
    the two prefixes [fetch GitHub releases: parse RSS feed: ]. Otherwise it
    returns one release for each item of the feed, in the order of the feed:
    the release has the title, description and link of its item, the type
    [github-release], a version that is not empty, and for date the
    publication date of the item when it has one, else its update date when
    it has one, else the clock reading of its iteration. *)
Theorem X20_github_feed_releases (now : nat → Z) (parse : string → result Feed)
    (owner repo : string) :
  match FetchGitHubReleases now parse owner repo with
  | Err e =>
      ∃ err,
        parse ("https://github.com/" +:+ owner +:+ "/" +:+ repo
                 +:+ "/releases.atom") = Err err
        ∧ Error e = "fetch GitHub releases: parse RSS feed: " +:+ Error err
  | Ok releases =>
      ∃ feed,
        parse ("https://github.com/" +:+ owner +:+ "/" +:+ repo
                 +:+ "/releases.atom") = Ok feed
        ∧ length releases = length (Items feed)
        ∧ ∀ i item, Items feed !! i = Some item →
            ∃ r, releases !! i = Some r
              ∧ Title r = Item_Title item
              ∧ Description r = Item_Description item
              ∧ ReleaseURL r = Item_Link item
              ∧ ReleaseType r = "github-release"
              ∧ Version r ≠ ""
              ∧ Date r = match PublishedParsed item, UpdatedParsed item with
                         | Some published, _ => published
                         | None, Some updated => updated
                         | None, None => now i
                         end
  end.
Proof.
  unfold FetchGitHubReleases, FetchAndParse.
  destruct (parse _) as [feed|err]; [|by exists err].
  exists feed. split; [done|].
  unfold ConvertToReleases. rewrite convert_items_loop_spec, app_nil_l.
  split; [by rewrite length_imap|].
  intros i item Hi. exists (convert_item (now i) "github-release" item).
  split; [by rewrite list_lookup_imap, Hi|].
  repeat (split; [done|]). split; [|done].
  unfold convert_item. cbn [Version].
  unfold extractVersion.
  destruct (Item_Title item) as [|c title]; simpl.
  - by destruct (String.eqb_spec (GUID item) "").
  - destruct (Ascii.eqb c "v" || Ascii.eqb c "V"); [done|].
    by destruct (String.eqb_spec (GUID item) "").
Qed.
End feeds.

Section tap_packages.
Import models homebrew_taps.
Variable parseTapPackage :
  string → string → string → string → string → string → bool → result App.

Lemma take_drop_string (n : nat) : ∀ s,
  s = strings.take n s +:+ strings.drop n s.
Proof.
  induction n as [|n IH]; intros s; [done|].
  destruct s as [|c s]; [done|]. simpl. rewrite append_cons. f_equal.
  apply IH.
Qed.

Lemma drop_append (a b : string) :
  strings.drop (String.length (a +:+ b) - String.length b) (a +:+ b) = b.
Proof.
  rewrite length_append.
  replace (String.length a + String.length b - String.length b)%nat
    with (String.length a) by lia.
  induction a as [|x a IH]; [done|]. by rewrite append_cons.
Qed.

Lemma HasSuffix_append a b : strings.HasSuffix (a +:+ b) b = true.
Proof.
  unfold strings.HasSuffix. rewrite drop_append, String.eqb_refl.
  rewrite andb_true_r. apply Nat.leb_le. rewrite length_append. lia.
Qed.

Lemma HasSuffix_TrimSuffix s suffix :
  strings.HasSuffix s suffix = true →
  s = strings.TrimSuffix s suffix +:+ suffix.
Proof.
  intros Hs. unfold strings.TrimSuffix. rewrite Hs.
  unfold strings.HasSuffix in Hs.
  apply andb_true_iff in Hs as [_ Hs%String.eqb_eq].
  etrans;
    [apply (take_drop_string (String.length s - String.length suffix))|].
  by rewrite Hs.
Qed.

Lemma TrimSuffix_append a b : strings.TrimSuffix (a +:+ b) b = a.
Proof.
  unfold strings.TrimSuffix. rewrite HasSuffix_append. apply take_append.
Qed.

Lemma tap_files_loop_elem owner repo directory pkgType experimental files_ :
  ∀ apps app,
    app ∈ tap_files_loop parseTapPackage owner repo directory pkgType
            experimental files_ apps
    ↔ app ∈ apps
      ∨ ∃ file pkgName,
          file ∈ files_ ∧ Content_Name file = pkgName +:+ ".rb"
          ∧ parseTapPackage owner repo directory (Content_Name file) pkgName
              pkgType experimental = Ok app.
Proof.
  induction files_ as [|file files_ IH]; intros apps app; simpl.
  { split; [by left|]. intros [?|(? & ? & ?%elem_of_nil & _)]; done. }
  destruct (strings.HasSuffix (Content_Name file) ".rb") eqn:Hrb; simpl.
  - pose proof (HasSuffix_TrimSuffix _ _ Hrb) as Hname.
    destruct (parseTapPackage owner repo directory (Content_Name file)
                (strings.TrimSuffix (Content_Name file) ".rb") pkgType
                experimental) as [app'|e] eqn:Hparse; rewrite IH.
    + rewrite elem_of_app, list_elem_of_singleton. split.
      * intros [[? | ->] | (f & p & Hf & Hp)]; [by left| |].
        -- right. exists file, (strings.TrimSuffix (Content_Name file) ".rb").
           split; [by left|done].
        -- right. exists f, p. split; [by right|done].
      * intros [?|(f & p & [-> | Hf]%elem_of_cons & Hn & Hp)]; [by left; left| |].
        -- left; right. rewrite Hn, TrimSuffix_append in Hparse. congruence.
        -- right. by exists f, p.
    + split.
      * intros [?|(f & p & Hf & Hp)]; [by left|].
        right. exists f, p. split; [by right|done].
      * intros [?|(f & p & [-> | Hf]%elem_of_cons & Hn & Hp)]; [by left| |].
        -- rewrite Hn, TrimSuffix_append in Hparse. congruence.
        -- right. by exists f, p.
  - rewrite IH. split.
    + intros [?|(f & p & Hf & Hp)]; [by left|].
      right. exists f, p. split; [by right|done].
    + intros [?|(f & p & [-> | Hf]%elem_of_cons & Hn & Hp)]; [by left| |].
      * rewrite Hn, HasSuffix_append in Hrb. done.
      * right. by exists f, p.
Qed.

Lemma tap_files_loop_length owner repo directory pkgType experimental files_ :
  ∀ apps,
    (length (tap_files_loop parseTapPackage owner repo directory pkgType
               experimental files_ apps)
     ≤ length apps
       + length (filter (λ file,
                   strings.HasSuffix (Content_Name file) ".rb" = true) files_))%nat.
Proof.
  induction files_ as [|file files_ IH]; intros apps; simpl; [lia|].
  destruct (strings.HasSuffix (Content_Name file) ".rb") eqn:Hrb; simpl.
  - rewrite filter_cons_True by done. simpl.
    destruct (parseTapPackage _ _ _ _ _ _ _).
    + etrans; [apply IH|]. rewrite length_app. simpl. lia.
    + etrans; [apply IH|]. lia.
  - rewrite filter_cons_False by (by rewrite Hrb). apply IH.
Qed.

(** X21. [fetchTapDirectory] answers a 404 with the empty list and no
    error, whatever the body. On a 200 with a well-formed listing it returns
    no error either: a record is in its result exactly when it is what
    [parseTapPackage] returned for a file of the listing whose name ends in
    [.rb], called with that name and with the name without the [.rb] as the
    package name, so that other files and files that fail to parse are left
    out, and the result has at most as many records as the listing has
    [.rb] files. Every other answer is an error. *)
Theorem X21_fetchTapDirectory_outcomes (owner repo directory pkgType : string)
    (experimental : bool) (resp : HttpResult (result (list GitHubContentItem))) :
  match fetchTapDirectory parseTapPackage owner repo directory pkgType
          experimental resp with
  | Ok apps =>
      (∃ body, resp = Response 404 body ∧ apps = [])
      ∨ (∃ files_,
           resp = Response 200 (Payload (Ok files_))
           ∧ (∀ app, app ∈ apps ↔
                ∃ file pkgName,
                  file ∈ files_ ∧ Content_Name file = pkgName +:+ ".rb"
                  ∧ parseTapPackage owner repo directory (Content_Name file)
                      pkgName pkgType experimental = Ok app)
           ∧ (length apps
              ≤ length (filter (λ file,
                          strings.HasSuffix (Content_Name file) ".rb" = true)
                          files_))%nat)
  | Err _ =>
      (∀ body, resp ≠ Response 404 body)
      ∧ (∀ files_, resp ≠ Response 200 (Payload (Ok files_)))
  end.
Proof.
  unfold fetchTapDirectory.
  destruct resp as [err|err|StatusCode body]; [done..|].
  destruct (StatusCode =? 404) eqn:H404.
  { apply Z.eqb_eq in H404 as ->. left. by exists body. }
  apply Z.eqb_neq in H404.
  destruct (negb (StatusCode =? 200)) eqn:H200.
  { apply negb_true_iff, Z.eqb_neq in H200.
    split; intros ? [=]; done. }
  apply negb_false_iff, Z.eqb_eq in H200 as ->.
  destruct body as [err|[files_|err]]; [done| |done].
  right. exists files_. split; [done|]. split.
  - intros app. rewrite tap_files_loop_elem. split; [|by right].
    by intros [?%elem_of_nil|?].
  - apply (tap_files_loop_length owner repo directory pkgType experimental
             files_ []).
Qed.





End tap_packages.

(** ** What the adapters accept, and what the runtime decides *)
Section adapters.
Import models flathub bluefin.
Context `{!Externals}.

(** X23. The adapters return a result on a 200 answer with a readable,
    well-formed body, and on nothing else: [fetchRawFile] returns a content
    exactly when the answer is a 200 with that content for body;
    [FetchRecentlyUpdated], [FetchAppDetails] and the three fetchers of
    GitHub releases accept only a 200 whose body decodes. The one answer
    without a body that is not an error is the 404 of [FetchAppDetails],
    which gives no details. *)
Theorem X23_success_only_on_200 :
  (∀ path resp content,
     fetchRawFile path resp = Ok content
     ↔ resp = Response StatusOK (Payload content))
  ∧ (∀ resp apps,
       FetchRecentlyUpdated resp = Ok apps
       ↔ resp = Response StatusOK (Payload (Ok apps)))
  ∧ (∀ resp details,
       FetchAppDetails resp = Ok (Some details)
       ↔ resp = Response StatusOK (Payload (Ok details)))
  ∧ (∀ resp,
       FetchAppDetails resp = Ok None
       ↔ ∃ body, resp = Response StatusNotFound body)
  ∧ (∀ resp,
       (∃ releases, FetchBluefinReleases resp = Ok releases)
       ↔ ∃ githubReleases, resp = Response StatusOK (Payload (Ok githubReleases)))
  ∧ (∀ resp rt now,
       (∃ apps, FetchBluefinOSApps rt now resp = Ok apps)
       ↔ ∃ githubReleases, resp = Response StatusOK (Payload (Ok githubReleases)))
  ∧ (∀ resp now,
       (∃ apps, bluefin_lts.FetchBluefinLTSApps now resp = Ok apps)
       ↔ ∃ githubReleases, resp = Response StatusOK (Payload (Ok githubReleases))).
Proof.
  assert (Hgh : ∀ resp githubReleases,
            fetch_github_releases resp = Ok githubReleases
            ↔ resp = Response StatusOK (Payload (Ok githubReleases))).
  { intros resp githubReleases. split; [|by intros ->].
    unfold fetch_github_releases. intros Hok.
    destruct resp as [err|err|StatusCode body]; [done..|].
    destruct (Z.eqb_spec StatusCode StatusForbidden); [done|].
    destruct (Z.eqb_spec StatusCode StatusOK) as [->|]; [|done].
    destruct body as [err|[l|err]]; try done. simpl in Hok. congruence. }
  split; [|split; [|split; [|split; [|split; [|split]]]]].
  - intros path resp content. split; [|by intros ->].
    unfold fetchRawFile. intros Hok.
    destruct resp as [err|err|StatusCode body]; [done..|].
    destruct (Z.eqb_spec StatusCode StatusNotFound); [done|].
    destruct (Z.eqb_spec StatusCode StatusForbidden); [done|].
    destruct (Z.eqb_spec StatusCode StatusOK) as [->|]; [|done].
    destruct body as [err|body]; [done|]. simpl in Hok. congruence.
  - intros resp apps. split; [|by intros ->].
    unfold FetchRecentlyUpdated. intros Hok.
    destruct resp as [err|err|StatusCode body]; [done..|].
    destruct (Z.eqb_spec StatusCode StatusOK) as [->|]; [|done].
    destruct body as [err|[l|err]]; try done. simpl in Hok. congruence.
  - intros resp details. split; [|by intros ->].
    unfold FetchAppDetails. intros Hok.
    destruct resp as [err|err|StatusCode body]; [done..|].
    destruct (Z.eqb_spec StatusCode StatusNotFound); [done|].
    destruct (Z.eqb_spec StatusCode StatusOK) as [->|]; [|done].
    destruct body as [err|[l|err]]; try done. simpl in Hok. congruence.
  - intros resp. split; [|by intros [body ->]].
    unfold FetchAppDetails. intros Hok.
    destruct resp as [err|err|StatusCode body]; [done..|].
    destruct (Z.eqb_spec StatusCode StatusNotFound) as [->|]; [by exists body|].
    destruct (Z.eqb_spec StatusCode StatusOK) as [->|]; [|done].
    by destruct body as [err|[l|err]].
  - intros resp. unfold FetchBluefinReleases. split.
    + intros [releases Hok].
      destruct (fetch_github_releases resp) as [l|] eqn:Hl; [|done].
      exists l. by apply Hgh.
    + intros [l Hl%Hgh]. rewrite Hl. by eexists.
  - intros resp rt now. unfold FetchBluefinOSApps. split.
    + intros [apps Hok].
      destruct (fetch_github_releases resp) as [l|] eqn:Hl; [|done].
      exists l. by apply Hgh.
    + intros [l Hl%Hgh]. rewrite Hl. by eexists.
  - intros resp now. unfold bluefin_lts.FetchBluefinLTSApps. split.
    + intros [apps Hok].
      destruct (fetch_github_releases resp) as [l|] eqn:Hl; [|done].
      exists l. by apply Hgh.
    + intros [l Hl%Hgh]. rewrite Hl.
      destruct (bluefin_lts.latest_lts_loop l None); by eexists.
Qed.

Lemma concat_Permutation {A : Type} (l1 l2 : list (list A)) :
  l1 ≡ₚ l2 → concat l1 ≡ₚ concat l2.
Proof.
  induction 1 as [|x l1 l2 _ IH|x y l|l1 l2 l3 _ IH1 _ IH2]; simpl.
  - done.
  - by rewrite IH.
  - apply Permutation_app_swap_app.
  - by etrans.
Qed.

Lemma range_Permutation {V : Type} (rt1 rt2 : Shuffle) (m : gmap string V) :
  range rt1 m ≡ₚ range rt2 m.
Proof. unfold range. by rewrite !shuffle_perm. Qed.

(** X24. The order in which the runtime visits a map, and the order in
    which goroutines finish, change the order of a result but not what it
    is made of. For the same answers of the upstreams, two runs of
    [FetchFlatpakListWithAppSets] return the same entries, each as often in
    one run as in the other. Two runs of [FetchBluefinOSApps] return the
    same error, or build their records from the same releases, taken in the
    order of the visit: the record [i] of a run is built from the release
    [i] of that order and carries the clock reading of the iteration [i] of
    that run, so that the order of the visit also decides which record gets
    which [FetchedAt]. For the same clock reading in every goroutine, two
    runs of [FetchHomebrewPackages] return the same records, each as often
    in one run as in the other. *)
Theorem X24_runtime_changes_order_only (rt1 rt2 : Shuffle) :
  (∀ raw, ∃ infos1 infos2,
     FetchFlatpakListWithAppSets rt1 raw = Ok infos1
     ∧ FetchFlatpakListWithAppSets rt2 raw = Ok infos2
     ∧ infos1 ≡ₚ infos2)
  ∧ (∀ now1 now2 resp,
       match FetchBluefinOSApps rt1 now1 resp,
             FetchBluefinOSApps rt2 now2 resp with
       | Ok apps1, Ok apps2 =>
           ∃ kept1 kept2,
             kept1 ≡ₚ kept2
             ∧ apps1 = imap (λ i g, os_app (now1 i) g) kept1
             ∧ apps2 = imap (λ i g, os_app (now2 i) g) kept2
             ∧ (∀ i app, apps1 !! i = Some app → FetchedAt app = now1 i)
             ∧ (∀ i app, apps2 !! i = Some app → FetchedAt app = now2 i)
       | Err e1, Err e2 => e1 = e2
       | _, _ => False
       end)
  ∧ (∀ raw formulae brew_clock, ∃ apps1 apps2,
       FetchHomebrewPackages
         {| bluefin.raw := raw; bluefin.formulae := formulae;
            bluefin.brew_clock := brew_clock; brew_sched := rt1 |} = Ok apps1
       ∧ FetchHomebrewPackages
           {| bluefin.raw := raw; bluefin.formulae := formulae;
              bluefin.brew_clock := brew_clock; brew_sched := rt2 |} = Ok apps2
       ∧ apps1 ≡ₚ apps2).
Proof.
  split; [|split].
  - intros raw. unfold FetchFlatpakListWithAppSets.
    rewrite !flatpak_loop_spec, !app_nil_l.
    eexists _, _. split; [reflexivity|]. split; [reflexivity|].
    apply concat_Permutation.
    change (map ?f ?l) with (f <$> l).
    by rewrite (range_Permutation rt1 rt2).
  - intros now1 now2 resp. rewrite !FetchBluefinOSApps_kept.
    destruct (fetch_github_releases resp) as [githubReleases|e]; [|done].
    eexists _, _. split; [|split; [reflexivity|split; [reflexivity|]]].
    { by rewrite (range_Permutation rt1 rt2). }
    split; intros i app Hi; rewrite list_lookup_imap in Hi;
      destruct (_ !! i); simpl in Hi; [|done| |done];
      by injection Hi as <-.
  - intros raw formulae brew_clock. unfold FetchHomebrewPackages.
    cbn [bluefin.raw brew_sched].
    destruct (FetchHomebrewList raw) as [names|e] eqn:Hlist.
    2:{ unfold FetchHomebrewList in Hlist. done. }
    eexists _, _. split; [reflexivity|]. split; [reflexivity|].
    by rewrite !shuffle_perm.
Qed.

(** X25. [extractPackageVersion] finds no version of a package in a body
    that does not hold the name of the package between two pairs of
    asterisks: it returns the empty string. *)
Theorem X25_extractPackageVersion_absent (body packageName : string) :
  strings.Contains body ("**" +:+ packageName +:+ "**") = false →
  extractPackageVersion body packageName = "".
Proof.
  intros Habsent. unfold extractPackageVersion.
  destruct (FindStringSubmatch_sound (package_re packageName) body)
    as [->|(before & w & after & caps & Hbody & Hm & ->)]; [done|].
  unfold package_re in Hm. invert_matches.
  assert (Hin : occurs_in ("**" +:+ packageName +:+ "**") body);
    [|apply Contains_occurs in Hin; congruence].
  match type of Hbody with
  | body = before +:+ (_ +:+ ?ws +:+ _ +:+ _ +:+ _ +:+ ?rest) +:+ after =>
      exists (before +:+ "|" +:+ ws), (rest +:+ after)
  end.
  rewrite Hbody. by rewrite !append_assoc.
Qed.

End adapters.

(** X25 at a body whose table has no row for the package *)
Lemma X25_extractPackageVersion_absent_witness :
  strings.Contains "| **Kernel** | 6.17.12-300 |" "**Mesa**" = false
  ∧ @bluefin.extractPackageVersion plain_externals "| **Kernel** | 6.17.12-300 |" "Mesa"
    = "".
Proof.
  split; [reflexivity|].
  apply (@X25_extractPackageVersion_absent plain_externals). reflexivity.
Defined.
